(** * Turn-based battle engine: the game-session engine of [src/gameEngine.js]

    A shallow embedding of the [GameEngine] class.  The engine object holds
    three JavaScript [Map]s ([activeGames], [gameTimers], [turnTimers]); the
    host gives it [setTimeout]/[clearTimeout], an event emitter and a
    persistence sink.  Every method is a computation in a state-and-exception
    monad over that engine: a JavaScript [throw] keeps the mutations made
    before it, which is what the monad's [Throw] does.

    The reading of the clock ([new Date()]) is an argument [now] of each
    call, the values of [Math.random()] are a stream [rnd], and the
    identifier [generateGameId] produces is an argument of [createGame].
    The game-type hooks are functions of their arguments, as their contract
    says; calls to the logger are left out. *)

From stdpp Require Import gmap strings list.

(** ** JavaScript values used as identifiers *)

(** [currentTurn], [winner] and the [playerId] arguments are either [null],
    [undefined] or a player identifier. *)
Inductive jsid : Type :=
  | JNull
  | JUndefined
  | JId (s : string).

#[global] Instance jsid_eq_dec : EqDecision jsid.
Proof. solve_decision. Defined.

(** Truthiness of an identifier: [null], [undefined] and the empty string are
    falsy. *)
Definition truthy (v : jsid) : bool :=
  match v with
  | JId s => negb (String.eqb s EmptyString)
  | _ => false
  end.

(** A parameter declared [= null]: a missing or [undefined] argument takes
    the default. *)
Definition default_null (v : jsid) : jsid :=
  match v with
  | JUndefined => JNull
  | _ => v
  end.

(** [a[i]] on an array of identifiers: [undefined] out of range. *)
Definition js_index (a : list string) (i : nat) : jsid :=
  match a !! i with
  | Some s => JId s
  | None => JUndefined
  end.

(** [n >= m] and [n < m] where [m] may be [undefined]: both are [false] then
    (comparison with [NaN]). *)
Definition js_ge (n : nat) (m : option nat) : bool :=
  match m with
  | Some k => k <=? n
  | None => false
  end.

Definition js_lt (n : nat) (m : option nat) : bool :=
  match m with
  | Some k => n <? k
  | None => false
  end.

(** [a || b] on numbers: [0] (and [undefined], represented by [0]) is falsy. *)
Definition js_or (a b : nat) : nat := if a =? 0 then b else a.

Definition js_or_ms (a b : Z) : Z := if (a =? 0)%Z then b else a.

(** ** Errors *)

Inductive js_error : Type :=
  | Error (message : string)
  | ReferenceError (message : string).

#[global] Instance js_error_eq_dec : EqDecision js_error.
Proof. solve_decision. Defined.

(** The error conditions of the engine are [Error]s told apart by message. *)
Definition GameNotFound : js_error := Error "Game not found".
Definition GameFull : js_error := Error "Game is full".
Definition DuplicatePlayer : js_error := Error "Player already in game".
Definition PlayerNotFound : js_error := Error "Player not found in game".
Definition NotWaiting : js_error := Error "Game is not in waiting status".
Definition NotEnoughPlayers : js_error := Error "Not enough players to start game".
Definition NotActive : js_error := Error "Game is not active".
Definition NotYourTurn : js_error := Error "Not your turn".

(** ** Data model *)

Inductive status : Type := Waiting | Active | Ended.

#[global] Instance status_eq_dec : EqDecision status.
Proof. solve_decision. Defined.

(** The argument of [addPlayer]. *)
Record player : Type := mkPlayer {
  pl_id : string;
  pl_name : string
}.

(** An entry of [game.state.players]. *)
Record participant : Type := mkParticipant {
  p_id : string;
  p_name : string;
  p_ready : bool;
  p_connected : bool;
  p_joinedAt : Z;
  p_lastActivity : Z
}.

(** [gameConfig]: [maxPlayers] and [turnTimeLimit] are read through [||], so
    an absent field is [0]; [minPlayers] is compared directly, so an absent
    field is [None]. *)
Record game_config : Type := mkConfig {
  c_gameType : string;
  c_maxPlayers : nat;
  c_minPlayers : option nat;
  c_turnTimeLimit : Z
}.

(** [game.state].  [GD] is the opaque [gameData]. *)
Record gstate (GD : Type) : Type := mkState {
  st_status : status;
  st_players : list participant;
  st_currentTurn : jsid;
  st_turnOrder : list string;
  st_gameData : GD;
  st_createdAt : Z;
  st_updatedAt : Z;
  st_startedAt : option Z;
  st_endedAt : option Z;
  st_endReason : option string;
  st_winner : jsid
}.
Arguments mkState {GD}.
Arguments st_status {GD}.
Arguments st_players {GD}.
Arguments st_currentTurn {GD}.
Arguments st_turnOrder {GD}.
Arguments st_gameData {GD}.
Arguments st_createdAt {GD}.
Arguments st_updatedAt {GD}.
Arguments st_startedAt {GD}.
Arguments st_endedAt {GD}.
Arguments st_endReason {GD}.
Arguments st_winner {GD}.

Record game (GD : Type) : Type := mkGame {
  g_id : string;
  g_config : game_config;
  g_state : gstate GD;
  g_maxPlayers : nat;
  g_turnTimeLimit : Z
}.
Arguments mkGame {GD}.
Arguments g_id {GD}.
Arguments g_config {GD}.
Arguments g_state {GD}.
Arguments g_maxPlayers {GD}.
Arguments g_turnTimeLimit {GD}.

Definition player_ids {GD} (g : game GD) : list string :=
  fmap p_id (st_players (g_state g)).

(** Field updates of [game.state]. *)
Definition with_state {GD} (f : gstate GD -> gstate GD) (g : game GD) : game GD :=
  mkGame (g_id g) (g_config g) (f (g_state g)) (g_maxPlayers g) (g_turnTimeLimit g).

Definition set_status {GD} (v : status) (s : gstate GD) : gstate GD :=
  mkState v (st_players s) (st_currentTurn s) (st_turnOrder s) (st_gameData s)
    (st_createdAt s) (st_updatedAt s) (st_startedAt s) (st_endedAt s)
    (st_endReason s) (st_winner s).

Definition set_players {GD} (v : list participant) (s : gstate GD) : gstate GD :=
  mkState (st_status s) v (st_currentTurn s) (st_turnOrder s) (st_gameData s)
    (st_createdAt s) (st_updatedAt s) (st_startedAt s) (st_endedAt s)
    (st_endReason s) (st_winner s).

Definition set_currentTurn {GD} (v : jsid) (s : gstate GD) : gstate GD :=
  mkState (st_status s) (st_players s) v (st_turnOrder s) (st_gameData s)
    (st_createdAt s) (st_updatedAt s) (st_startedAt s) (st_endedAt s)
    (st_endReason s) (st_winner s).

Definition set_turnOrder {GD} (v : list string) (s : gstate GD) : gstate GD :=
  mkState (st_status s) (st_players s) (st_currentTurn s) v (st_gameData s)
    (st_createdAt s) (st_updatedAt s) (st_startedAt s) (st_endedAt s)
    (st_endReason s) (st_winner s).

Definition set_gameData {GD} (v : GD) (s : gstate GD) : gstate GD :=
  mkState (st_status s) (st_players s) (st_currentTurn s) (st_turnOrder s) v
    (st_createdAt s) (st_updatedAt s) (st_startedAt s) (st_endedAt s)
    (st_endReason s) (st_winner s).

Definition set_updatedAt {GD} (v : Z) (s : gstate GD) : gstate GD :=
  mkState (st_status s) (st_players s) (st_currentTurn s) (st_turnOrder s)
    (st_gameData s) (st_createdAt s) v (st_startedAt s) (st_endedAt s)
    (st_endReason s) (st_winner s).

Definition set_startedAt {GD} (v : Z) (s : gstate GD) : gstate GD :=
  mkState (st_status s) (st_players s) (st_currentTurn s) (st_turnOrder s)
    (st_gameData s) (st_createdAt s) (st_updatedAt s) (Some v) (st_endedAt s)
    (st_endReason s) (st_winner s).

Definition set_endedAt {GD} (v : Z) (s : gstate GD) : gstate GD :=
  mkState (st_status s) (st_players s) (st_currentTurn s) (st_turnOrder s)
    (st_gameData s) (st_createdAt s) (st_updatedAt s) (st_startedAt s) (Some v)
    (st_endReason s) (st_winner s).

Definition set_endReason {GD} (v : option string) (s : gstate GD) : gstate GD :=
  mkState (st_status s) (st_players s) (st_currentTurn s) (st_turnOrder s)
    (st_gameData s) (st_createdAt s) (st_updatedAt s) (st_startedAt s)
    (st_endedAt s) v (st_winner s).

Definition set_winner {GD} (v : jsid) (s : gstate GD) : gstate GD :=
  mkState (st_status s) (st_players s) (st_currentTurn s) (st_turnOrder s)
    (st_gameData s) (st_createdAt s) (st_updatedAt s) (st_startedAt s)
    (st_endedAt s) (st_endReason s) v.

(** ** The host: timers, emitted events, persistence *)

(** The three closures the engine passes to [setTimeout]. *)
Inductive callback : Type :=
  | CbTurnTimeout (gameId : string)   (* () => this.handleTurnTimeout(gameId) *)
  | CbGameTimeout (gameId : string)   (* () => this.handleGameTimeout(gameId) *)
  | CbPurge (gameId : string).        (* () => this.activeGames.delete(gameId) *)

Inductive event : Type :=
  | EvTurnStarted (gameId : string) (playerId : jsid)
  | EvGameEnded (gameId : string) (reason : option string) (winner : jsid).

(** The engine with its host.  [timeouts] are the live [setTimeout] handles
    with their closure and delay in milliseconds, [nextHandle] the next fresh handle;
    [emitted] and [saved] record the calls to [emit] and [saveGameState],
    newest first. *)
Record engine (GD : Type) : Type := mkEngine {
  activeGames : gmap string (game GD);
  gameTimers : gmap string nat;
  turnTimers : gmap string nat;
  timeouts : gmap nat (callback * Z);
  nextHandle : nat;
  emitted : list event;
  saved : list (string * gstate GD)
}.
Arguments mkEngine {GD}.
Arguments activeGames {GD}.
Arguments gameTimers {GD}.
Arguments turnTimers {GD}.
Arguments timeouts {GD}.
Arguments nextHandle {GD}.
Arguments emitted {GD}.
Arguments saved {GD}.

(** The engine with another content of the [activeGames] map. *)
Definition with_games {GD} (m : gmap string (game GD)) (e : engine GD) : engine GD :=
  mkEngine m (gameTimers e) (turnTimers e) (timeouts e) (nextHandle e)
    (emitted e) (saved e).

Definition new_engine {GD} : engine GD := mkEngine ∅ ∅ ∅ ∅ 0 [] [].

(** ** The state-and-exception monad *)

Inductive outcome (A : Type) : Type :=
  | Ok (a : A)
  | Throw (e : js_error).
Arguments Ok {A}.
Arguments Throw {A}.

Definition M (GD A : Type) : Type := engine GD -> engine GD * outcome A.

Definition ret {GD A} (a : A) : M GD A := fun e => (e, Ok a).

Definition throw {GD A} (err : js_error) : M GD A := fun e => (e, Throw err).

Definition bind {GD A B} (c : M GD A) (k : A -> M GD B) : M GD B :=
  fun e =>
    match c e with
    | (e', Ok a) => k a e'
    | (e', Throw err) => (e', Throw err)
    end.

Definition gets {GD A} (f : engine GD -> A) : M GD A := fun e => (e, Ok (f e)).

Definition modify {GD} (f : engine GD -> engine GD) : M GD unit :=
  fun e => (f e, Ok tt).

Declare Scope js_scope.
Delimit Scope js_scope with js.
Notation "x <- c ;; k" := (bind c (fun x => k))
  (at level 100, c at next level, right associativity) : js_scope.
Notation "c ;;; k" := (bind c (fun _ => k))
  (at level 100, right associativity) : js_scope.

(** The engine after a call, and what the call returned or threw. *)
Definition after {GD A} (c : M GD A) (e : engine GD) : engine GD := fst (c e).
Definition result {GD A} (c : M GD A) (e : engine GD) : outcome A := snd (c e).

(** ** Configuration and the game-type hooks *)

(** [config.game] of the configuration module. *)
Record host_config : Type := mkHost {
  maxPlayersPerGame : nat;
  turnTimeLimit : Z;
  gameTimeout : Z
}.

(** What [validateAction] and [executeAction] return. *)
Record validation : Type := mkValidation {
  valid : bool;
  error : string
}.

Record exec_result (GD : Type) : Type := mkResult {
  r_gameData : GD;
  r_gameEnded : bool;
  r_endReason : option string;
  r_winner : jsid
}.
Arguments mkResult {GD}.
Arguments r_gameData {GD}.
Arguments r_gameEnded {GD}.
Arguments r_endReason {GD}.
Arguments r_winner {GD}.

(** The five methods a game type overrides.  [getDefaultAction] returns
    [None] for [null]. *)
Record hooks (GD Act : Type) : Type := mkHooks {
  initializeGameData : game GD -> GD;
  validateAction : game GD -> jsid -> Act -> validation;
  executeAction : game GD -> jsid -> Act -> exec_result GD;
  getDefaultAction : game GD -> jsid -> option Act;
  filterPrivateData : GD -> jsid -> GD
}.
Arguments mkHooks {GD Act}.
Arguments initializeGameData {GD Act}.
Arguments validateAction {GD Act}.
Arguments executeAction {GD Act}.
Arguments getDefaultAction {GD Act}.
Arguments filterPrivateData {GD Act}.

(** The base class: the methods as [GameEngine] itself defines them. *)
Definition base_hooks {GD Act} (emptyObject : GD) : hooks GD Act :=
  mkHooks
    (fun _ => emptyObject)
    (fun _ _ _ => mkValidation true EmptyString)
    (fun g _ _ => mkResult (st_gameData (g_state g)) false None JUndefined)
    (fun _ _ => None)
    (fun d _ => d).

(** ** Randomness and the Fisher-Yates shuffle *)

(** A value of [Math.random()]: the fraction [d_num / (d_num + d_gap + 1)],
    which lies in [0, 1). *)
Record draw : Type := mkDraw {
  d_num : nat;
  d_gap : nat
}.

(** [Math.floor(r * n)], the product taken exactly. *)
Definition floor_scale (r : draw) (n : nat) : nat :=
  (d_num r * n) `div` (d_num r + d_gap r + 1).

(** [[a[i], a[j]] = [a[j], a[i]]]: the right-hand side is read first, then
    [a[i]] and [a[j]] are written in this order.  Both indices are in range
    wherever the engine swaps. *)
Definition swap (i j : nat) (a : list string) : list string :=
  match a !! i, a !! j with
  | Some x, Some y => <[j:=x]> (<[i:=y]> a)
  | _, _ => a
  end.

(** The loop [for (let i = n; i > 0; i--)] of [generateTurnOrder]; [k] counts
    the calls to [Math.random] so far and [rnd k] is the value of call [k]. *)
Fixpoint shuffle_from (i k : nat) (rnd : nat -> draw) (a : list string) : list string :=
  match i with
  | 0 => a
  | S i' => shuffle_from i' (S k) rnd (swap i (floor_scale (rnd k) (i + 1)) a)
  end.

Definition generateTurnOrder (players : list participant) (rnd : nat -> draw) : list string :=
  let playerIds := fmap p_id players in
  shuffle_from (length playerIds - 1) 0 rnd playerIds.

(** ** Turn rotation on [game.state] *)

(** [turnOrder.indexOf(currentTurn)]: [None] is [-1]. *)
Definition indexOf (a : list string) (v : jsid) : option nat :=
  fst <$> list_find (fun s => JId s = v) a.

(** [turnOrder[(currentIndex + 1) % turnOrder.length]].  [currentIndex + 1]
    is never negative; on an empty array the remainder is [NaN] and the read
    gives [undefined]. *)
Definition next_holder (turnOrder : list string) (currentTurn : jsid) : jsid :=
  let next := match indexOf turnOrder currentTurn with
              | Some currentIndex => currentIndex + 1
              | None => 0
              end in
  match turnOrder with
  | [] => JUndefined
  | _ => js_index turnOrder (next `mod` length turnOrder)
  end.

Definition advance {GD} (s : gstate GD) : gstate GD :=
  set_currentTurn (next_holder (st_turnOrder s) (st_currentTurn s)) s.

(** An object is truthy, [undefined] is not. *)
Definition is_Some_b {A} (o : option A) : bool :=
  match o with
  | Some _ => true
  | None => false
  end.

(** [players.find(p => p.id === v)]. *)
Definition find_player (players : list participant) (v : jsid) : option participant :=
  snd <$> list_find (fun p => JId (p_id p) = v) players.

(** ** The engine's methods *)

Section Engine.
Context {GD Act : Type}.
Variable cfg : host_config.
Variable emptyObject : GD.
Variable hk : hooks GD Act.

Local Open Scope js_scope.

(** [this.activeGames.get(gameId)]. *)
Definition getGame (gameId : string) : M GD (option (game GD)) :=
  gets (fun e => activeGames e !! gameId).

(** A write to fields of [game.state] of the registered game object. *)
Definition update_state (gameId : string) (f : gstate GD -> gstate GD) : M GD unit :=
  modify (fun e => with_games (alter (with_state f) gameId (activeGames e)) e).

(** [setTimeout(cb, delay)] returns a fresh handle. *)
Definition setTimeout (cb : callback) (delay : Z) : M GD nat :=
  fun e =>
    (mkEngine (activeGames e) (gameTimers e) (turnTimers e)
       (<[nextHandle e := (cb, delay)]> (timeouts e)) (S (nextHandle e))
       (emitted e) (saved e),
     Ok (nextHandle e)).

Definition clearTimeout (h : nat) : M GD unit :=
  modify (fun e =>
    mkEngine (activeGames e) (gameTimers e) (turnTimers e)
      (delete h (timeouts e)) (nextHandle e) (emitted e) (saved e)).

Definition emit (ev : event) : M GD unit :=
  modify (fun e =>
    mkEngine (activeGames e) (gameTimers e) (turnTimers e) (timeouts e)
      (nextHandle e) (ev :: emitted e) (saved e)).

(** [saveGameState]: the persistence sink receives the record; a failure
    there is caught inside the method. *)
Definition saveGameState (g : game GD) : M GD unit :=
  modify (fun e =>
    mkEngine (activeGames e) (gameTimers e) (turnTimers e) (timeouts e)
      (nextHandle e) (emitted e) ((g_id g, g_state g) :: saved e)).

Definition clearTurnTimer (gameId : string) : M GD unit :=
  timer <- gets (fun e => turnTimers e !! gameId) ;;
  match timer with
  | Some h =>
      clearTimeout h ;;;
      modify (fun e =>
        mkEngine (activeGames e) (gameTimers e) (delete gameId (turnTimers e))
          (timeouts e) (nextHandle e) (emitted e) (saved e))
  | None => ret tt
  end.

(** [setTurnTimer] names [game.turnTimeLimit], but no [game] is in scope in
    this method (nor at module level): evaluating the second argument of
    [setTimeout] raises a [ReferenceError] before any timer is installed. *)
Definition setTurnTimer (gameId : string) : M GD unit :=
  clearTurnTimer gameId ;;;
  throw (ReferenceError "game is not defined").

Definition startTurn (gameId : string) : M GD unit :=
  og <- getGame gameId ;;
  match og with
  | None => ret tt
  | Some game =>
      match find_player (st_players (g_state game)) (st_currentTurn (g_state game)) with
      | None => ret tt
      | Some _ =>
          setTurnTimer gameId ;;;
          emit (EvTurnStarted gameId (st_currentTurn (g_state game)))
      end
  end.

Definition nextTurn (gameId : string) : M GD unit :=
  og <- getGame gameId ;;
  match og with
  | None => ret tt
  | Some _ =>
      clearTurnTimer gameId ;;;
      update_state gameId advance ;;;
      startTurn gameId
  end.

Definition setGameTimeout (gameId : string) : M GD unit :=
  timer <- setTimeout (CbGameTimeout gameId) (gameTimeout cfg) ;;
  modify (fun e =>
    mkEngine (activeGames e) (<[gameId := timer]> (gameTimers e)) (turnTimers e)
      (timeouts e) (nextHandle e) (emitted e) (saved e)).

Definition clearGameTimers (gameId : string) : M GD unit :=
  gameTimer <- gets (fun e => gameTimers e !! gameId) ;;
  match gameTimer with
  | Some h =>
      clearTimeout h ;;;
      modify (fun e =>
        mkEngine (activeGames e) (delete gameId (gameTimers e)) (turnTimers e)
          (timeouts e) (nextHandle e) (emitted e) (saved e))
  | None => ret tt
  end ;;;
  clearTurnTimer gameId.

(** The five assignments at the head of [endGame]. *)
Definition finish (reason : option string) (winner : jsid) (now : Z)
    (s : gstate GD) : gstate GD :=
  set_updatedAt now (set_winner winner (set_endReason reason
    (set_endedAt now (set_status Ended s)))).

(** [endGame(gameId, reason, winner = null)]: an [undefined] winner takes
    the default. *)
Definition endGame (gameId : string) (reason : option string) (winner : jsid)
    (now : Z) : M GD unit :=
  let winner := default_null winner in
  og <- getGame gameId ;;
  match og with
  | None => throw GameNotFound
  | Some game =>
      update_state gameId (finish reason winner now) ;;;
      clearGameTimers gameId ;;;
      saveGameState (with_state (finish reason winner now) game) ;;;
      emit (EvGameEnded gameId reason winner) ;;;
      _ <- setTimeout (CbPurge gameId) 60000 ;;
      ret tt
  end.

(** The assignments of [startGame] before the first turn starts. *)
Definition begin (game : game GD) (rnd : nat -> draw) (now : Z) : gstate GD :=
  let s1 := set_status Active (g_state game) in
  let s2 := set_turnOrder (generateTurnOrder (st_players s1) rnd) s1 in
  let s3 := set_currentTurn (js_index (st_turnOrder s2) 0) s2 in
  let s4 := set_gameData (initializeGameData hk (with_state (fun _ => s3) game)) s3 in
  set_updatedAt now (set_startedAt now s4).

(** The two guards of [startGame]. *)
Definition can_start (g : game GD) : bool :=
  bool_decide (st_status (g_state g) = Waiting)
  && negb (js_lt (length (st_players (g_state g))) (c_minPlayers (g_config g))).

Definition startGame (gameId : string) (rnd : nat -> draw) (now : Z) : M GD bool :=
  og <- getGame gameId ;;
  match og with
  | None => throw GameNotFound
  | Some game =>
      if negb (bool_decide (st_status (g_state game) = Waiting)) then
        throw NotWaiting
      else if js_lt (length (st_players (g_state game))) (c_minPlayers (g_config game)) then
        throw NotEnoughPlayers
      else
        update_state gameId (fun _ => begin game rnd now) ;;;
        startTurn gameId ;;;
        ret true
  end.

Definition checkGameStart (gameId : string) (rnd : nat -> draw) (now : Z) : M GD unit :=
  og <- getGame gameId ;;
  match og with
  | None => ret tt
  | Some game =>
      let readyPlayers := filter (fun p => p_ready p = true) (st_players (g_state game)) in
      if js_ge (length readyPlayers) (c_minPlayers (g_config game))
         && (length readyPlayers =? length (st_players (g_state game)))
      then _ <- startGame gameId rnd now ;; ret tt
      else ret tt
  end.

(** The writes of [addPlayer], [removePlayer] and [processAction] to
    [game.state]. *)
Definition join (player : player) (now : Z) (s : gstate GD) : gstate GD :=
  let gamePlayer := mkParticipant (pl_id player) (pl_name player) false true now now in
  set_updatedAt now (set_players (st_players s ++ [gamePlayer]) s).

Definition leave (playerIndex : nat) (now : Z) (s : gstate GD) : gstate GD :=
  set_updatedAt now (set_players (delete playerIndex (st_players s)) s).

Definition commit (result : exec_result GD) (now : Z) (s : gstate GD) : gstate GD :=
  set_updatedAt now (set_gameData (r_gameData result) s).

Definition createGame (gameId : string) (gameConfig : game_config) (now : Z)
    : M GD (game GD) :=
  let game :=
    mkGame gameId gameConfig
      (mkState Waiting [] JNull [] emptyObject now now None None None JUndefined)
      (js_or (c_maxPlayers gameConfig) (maxPlayersPerGame cfg))
      (js_or_ms (c_turnTimeLimit gameConfig) (turnTimeLimit cfg)) in
  modify (fun e => with_games (<[gameId := game]> (activeGames e)) e) ;;;
  setGameTimeout gameId ;;;
  ret game.

Definition addPlayer (gameId : string) (player : player) (rnd : nat -> draw)
    (now : Z) : M GD bool :=
  og <- getGame gameId ;;
  match og with
  | None => throw GameNotFound
  | Some game =>
      if g_maxPlayers game <=? length (st_players (g_state game)) then
        throw GameFull
      else if is_Some_b (find_player (st_players (g_state game)) (JId (pl_id player))) then
        throw DuplicatePlayer
      else
        update_state gameId (join player now) ;;;
        (* players.length now counts the pushed participant *)
        (if js_ge (length (st_players (join player now (g_state game))))
              (c_minPlayers (g_config game))
         then checkGameStart gameId rnd now
         else ret tt) ;;;
        ret true
  end.

Definition removePlayer (gameId : string) (playerId : string) (now : Z) : M GD bool :=
  og <- getGame gameId ;;
  match og with
  | None => throw GameNotFound
  | Some game =>
      match list_find (fun p => p_id p = playerId) (st_players (g_state game)) with
      | None => throw PlayerNotFound
      | Some (playerIndex, _) =>
          update_state gameId (leave playerIndex now) ;;;
          (if bool_decide (st_status (g_state game) = Active)
              && bool_decide (st_currentTurn (g_state game) = JId playerId)
           then nextTurn gameId
           else ret tt) ;;;
          og' <- getGame gameId ;;
          let game' := default game og' in
          (if js_lt (length (st_players (g_state game'))) (c_minPlayers (g_config game'))
              && bool_decide (st_status (g_state game') = Active)
           then endGame gameId (Some "insufficient_players") JUndefined now
           else ret tt) ;;;
          ret true
      end
  end.

Definition processAction (gameId : string) (playerId : jsid) (action : Act)
    (now : Z) : M GD (exec_result GD) :=
  og <- getGame gameId ;;
  match og with
  | None => throw GameNotFound
  | Some game =>
      if negb (bool_decide (st_status (g_state game) = Active)) then
        throw NotActive
      else if negb (bool_decide (st_currentTurn (g_state game) = playerId)) then
        throw NotYourTurn
      else
        let validationResult := validateAction hk game playerId action in
        if negb (valid validationResult) then
          throw (Error (error validationResult))
        else
          let result := executeAction hk game playerId action in
          update_state gameId (commit result now) ;;;
          (if r_gameEnded result
           then endGame gameId (r_endReason result) (r_winner result) now
           else nextTurn gameId) ;;;
          ret result
  end.

(** What follows the commit of an accepted action: the end of the game or
    the next turn. *)
Definition settle (r : exec_result GD) (now : Z) (s : gstate GD) : gstate GD :=
  if r_gameEnded r
  then finish (r_endReason r) (default_null (r_winner r)) now s
  else advance s.

Definition handleTurnTimeout (gameId : string) (now : Z) : M GD unit :=
  og <- getGame gameId ;;
  match og with
  | None => ret tt
  | Some game =>
      match getDefaultAction hk game (st_currentTurn (g_state game)) with
      | Some defaultAction =>
          _ <- processAction gameId (st_currentTurn (g_state game)) defaultAction now ;;
          ret tt
      | None => nextTurn gameId
      end
  end.

Definition handleGameTimeout (gameId : string) (now : Z) : M GD unit :=
  endGame gameId (Some "timeout") JUndefined now.

(** [getGameState(gameId, playerId = null)]: the spread [{ ...game.state }]
    builds a new object from the fields of [game.state]; the filtered
    [gameData] is assigned to that new object. *)
Definition getGameState (gameId : string) (playerId : jsid) : M GD (gstate GD) :=
  let playerId := default_null playerId in
  og <- getGame gameId ;;
  match og with
  | None => throw GameNotFound
  | Some game =>
      let state := g_state game in
      if truthy playerId
      then ret (set_gameData (filterPrivateData hk (st_gameData state) playerId) state)
      else ret state
  end.

(** What a viewer is shown of a state. *)
Definition view (playerId : jsid) (s : gstate GD) : gstate GD :=
  if truthy (default_null playerId)
  then set_gameData (filterPrivateData hk (st_gameData s) (default_null playerId)) s
  else s.

(** *** The same method over a store of objects *)

(** State objects live at addresses of a store; [registry] gives the
    address of [game.state] for each registered game.  The spread
    [{ ...game.state }] allocates a new object with the same fields, and
    the assignment to [state.gameData] writes to that new object. *)
Definition spread (o : gstate GD) (store : gmap nat (gstate GD))
    : gmap nat (gstate GD) * nat :=
  let address := fresh (dom store) in
  (<[address := o]> store, address).

Definition getGameState_obj (registry : gmap string nat) (gameId : string)
    (playerId : jsid) (store : gmap nat (gstate GD))
    : gmap nat (gstate GD) * outcome nat :=
  let playerId := default_null playerId in
  match registry !! gameId with
  | None => (store, Throw GameNotFound)
  | Some game_state =>
      match store !! game_state with
      | None => (store, Throw GameNotFound) (* a registered game has its state object *)
      | Some o =>
          let '(store1, state) := spread o store in
          if truthy playerId
          then (alter (fun c => set_gameData (filterPrivateData hk (st_gameData c) playerId) c)
                  state store1,
                Ok state)
          else (store1, Ok state)
      end
  end.

(** *** Timer callbacks *)

(** The body of each closure handed to [setTimeout]: a plain call, with no
    [try] around it. *)
Definition run_callback (cb : callback) (now : Z) : M GD unit :=
  match cb with
  | CbTurnTimeout gameId => handleTurnTimeout gameId now
  | CbGameTimeout gameId => handleGameTimeout gameId now
  | CbPurge gameId =>
      modify (fun e => with_games (delete gameId (activeGames e)) e)
  end.

(** The host fires the live timeout [h]: it leaves the set of live
    timeouts and its closure runs. *)
Definition fire (h : nat) (now : Z) : M GD unit :=
  live <- gets (fun e => timeouts e !! h) ;;
  match live with
  | None => ret tt
  | Some (cb, _) => clearTimeout h ;;; run_callback cb now
  end.
End Engine.

(** ** The socket layer's ready handler *)

(** The one place outside the engine that writes to [game.state]: the socket
    handler [handlePlayerReady] sets the [ready] flag of the caller's
    participant object and then calls [checkGameStart], all inside a [try]
    whose [catch] reports the error to the socket. *)
Definition set_ready (ready : bool) (p : participant) : participant :=
  mkParticipant (p_id p) (p_name p) ready (p_connected p) (p_joinedAt p)
    (p_lastActivity p).

Definition mark_ready {GD} (playerId : string) (ready : bool) (now : Z)
    (s : gstate GD) : gstate GD :=
  match list_find (fun p => p_id p = playerId) (st_players s) with
  | Some (i, gamePlayer) =>
      set_updatedAt now (set_players (<[i := set_ready ready gamePlayer]> (st_players s)) s)
  | None => s
  end.

(** [try { c } catch (error) { ... }] with a handler that does not rethrow. *)
Definition try_catch {GD A} (c : M GD A) : M GD unit :=
  fun e => (fst (c e), Ok tt).

Definition handlePlayerReady {GD Act} (hk : hooks GD Act) (gameId playerId : string)
    (ready : bool) (rnd : nat -> draw) (now : Z) : M GD unit :=
  try_catch
    (if String.eqb gameId EmptyString then ret tt (* if (!gameId) return *)
     else
       bind (getGame gameId) (fun og =>
         match og with
         | None => ret tt
         | Some _ =>
             bind (update_state gameId (mark_ready playerId ready now)) (fun _ =>
               checkGameStart hk gameId rnd now)
         end)).

(** ** Entry points and reachable engines *)

(** The calls the HTTP and socket layers and the host's timers make. *)
Inductive op (Act : Type) : Type :=
  | OpCreate (gameId : string) (gameConfig : game_config)
  | OpAddPlayer (gameId : string) (p : player) (rnd : nat -> draw)
  | OpRemovePlayer (gameId playerId : string)
  | OpStartGame (gameId : string) (rnd : nat -> draw)
  | OpProcessAction (gameId : string) (playerId : jsid) (action : Act)
  | OpGetGameState (gameId : string) (playerId : jsid)
  | OpEndGame (gameId : string) (reason : option string) (winner : jsid)
  | OpNextTurn (gameId : string)
  | OpTurnTimeout (gameId : string)
  | OpGameTimeout (gameId : string)
  | OpFire (h : nat)
  | OpReady (gameId playerId : string) (ready : bool) (rnd : nat -> draw).
Arguments OpCreate {Act}.
Arguments OpAddPlayer {Act}.
Arguments OpRemovePlayer {Act}.
Arguments OpStartGame {Act}.
Arguments OpProcessAction {Act}.
Arguments OpGetGameState {Act}.
Arguments OpEndGame {Act}.
Arguments OpNextTurn {Act}.
Arguments OpTurnTimeout {Act}.
Arguments OpGameTimeout {Act}.
Arguments OpFire {Act}.
Arguments OpReady {Act}.

(** The engine after one call made at time [now]; what the call returned or
    threw goes to the caller. *)
Definition step {GD Act} (cfg : host_config) (emptyObject : GD) (hk : hooks GD Act)
    (o : op Act) (now : Z) (e : engine GD) : engine GD :=
  match o with
  | OpCreate gameId gameConfig => after (createGame cfg emptyObject gameId gameConfig now) e
  | OpAddPlayer gameId p rnd => after (addPlayer hk gameId p rnd now) e
  | OpRemovePlayer gameId playerId => after (removePlayer gameId playerId now) e
  | OpStartGame gameId rnd => after (startGame hk gameId rnd now) e
  | OpProcessAction gameId playerId action =>
      after (processAction hk gameId playerId action now) e
  | OpGetGameState gameId playerId => after (getGameState hk gameId playerId) e
  | OpEndGame gameId reason winner => after (endGame gameId reason winner now) e
  | OpNextTurn gameId => after (nextTurn gameId) e
  | OpTurnTimeout gameId => after (handleTurnTimeout hk gameId now) e
  | OpGameTimeout gameId => after (handleGameTimeout gameId now) e
  | OpFire h => after (fire hk h now) e
  | OpReady gameId playerId ready rnd =>
      after (handlePlayerReady hk gameId playerId ready rnd now) e
  end.

(** A history is a list of timed calls, oldest first. *)
Fixpoint run {GD Act} (cfg : host_config) (emptyObject : GD) (hk : hooks GD Act)
    (history : list (op Act * Z)) (e : engine GD) : engine GD :=
  match history with
  | [] => e
  | (o, now) :: rest => run cfg emptyObject hk rest (step cfg emptyObject hk o now e)
  end.

Definition reachable {GD Act} (cfg : host_config) (emptyObject : GD) (hk : hooks GD Act)
    (e : engine GD) : Prop :=
  exists history, e = run cfg emptyObject hk history new_engine.

(** ** Sequences of calls *)

(** [n] consecutive calls of [nextTurn]. *)
Definition rotate {GD} (gameId : string) (n : nat) (e : engine GD) : engine GD :=
  Nat.iter n (after (nextTurn gameId)) e.

(** A sequence of [addPlayer] calls, oldest first; errors go to the
    callers. *)
Fixpoint add_all {GD Act} (hk : hooks GD Act)
    (calls : list (string * player * (nat -> draw) * Z)) (e : engine GD) : engine GD :=
  match calls with
  | [] => e
  | (gameId, p, rnd, now) :: rest => add_all hk rest (after (addPlayer hk gameId p rnd now) e)
  end.

(** ** Statements about a game *)

(** The fields the specification calls the terminal state. *)
Definition terminal_state {GD} (s : gstate GD)
    : status * option Z * option string * jsid :=
  (st_status s, st_endedAt s, st_endReason s, st_winner s).

(** Capacity is respected, participants and turn order have no duplicate,
    and a holder that is an identifier is an entry of the turn order. *)
Record game_ok {GD} (g : game GD) : Prop := mkGameOk {
  ok_capacity : length (st_players (g_state g)) <= g_maxPlayers g;
  ok_players : NoDup (player_ids g);
  ok_order : NoDup (st_turnOrder (g_state g));
  ok_turn : forall s, st_currentTurn (g_state g) = JId s -> s ∈ st_turnOrder (g_state g)
}.

Definition games_ok {GD} (e : engine GD) : Prop :=
  map_Forall (fun _ g => game_ok g) (activeGames e).

(** * Concrete sessions *)

Module Scenario.
(** Game data and actions are numbers here; the empty object is [0]. *)
Definition cfg : host_config := mkHost 8 30000 300000.

Definition base : hooks nat nat := base_hooks 0.

(** A game type whose default action is always refused by its own
    validation hook. *)
Definition refusing : hooks nat nat :=
  mkHooks
    (fun _ => 0)
    (fun _ _ _ => mkValidation false "Illegal move")
    (fun g _ _ => mkResult (st_gameData (g_state g)) false None JUndefined)
    (fun _ _ => Some 7)
    (fun d _ => d).

(** [Math.random()] returning [0] at every call. *)
Definition zeros : nat -> draw := fun _ => mkDraw 0 0.

Definition duel : game_config := mkConfig "tic-tac-toe" 2 (Some 2) 30000.
Definition trio : game_config := mkConfig "custom" 3 (Some 2) 30000.

Definition alice : player := mkPlayer "A" "Alice".
Definition bob : player := mkPlayer "B" "Bob".
Definition carol : player := mkPlayer "C" "Carol".

(** Two players have joined game ["g"], nobody has started it. *)
Definition lobby_history : list (op nat * Z) :=
  [(OpCreate "g" duel, 1%Z); (OpAddPlayer "g" alice zeros, 2%Z);
   (OpAddPlayer "g" bob zeros, 3%Z)].

Definition lobby : engine nat := run cfg 0 base lobby_history new_engine.

(** The same game after [startGame]: the turn order is [B; A]. *)
Definition duel_history : list (op nat * Z) :=
  lobby_history ++ [(OpStartGame "g" zeros, 4%Z)].

Definition started : engine nat := run cfg 0 base duel_history new_engine.

(** Three players; the game is started (turn order [B; C; A]), then [C],
    who does not hold the turn, leaves. *)
Definition trio_history : list (op nat * Z) :=
  [(OpCreate "g" trio, 1%Z); (OpAddPlayer "g" alice zeros, 2%Z);
   (OpAddPlayer "g" bob zeros, 3%Z); (OpAddPlayer "g" carol zeros, 4%Z);
   (OpStartGame "g" zeros, 5%Z); (OpRemovePlayer "g" "C", 6%Z)].

Definition after_leave : engine nat := run cfg 0 base trio_history new_engine.

(** A game type that hides the data from every viewer, and a state with
    data to hide. *)
Definition masking : hooks nat nat :=
  mkHooks
    (fun _ => 0)
    (fun _ _ _ => mkValidation true EmptyString)
    (fun g _ _ => mkResult (st_gameData (g_state g)) false None JUndefined)
    (fun _ _ => None)
    (fun _ _ => 0).

Definition secret_state : gstate nat :=
  mkState Active
    [mkParticipant "A" "Alice" false true 2 2; mkParticipant "B" "Bob" false true 3 3]
    (JId "B") ["B"; "A"] 42 1 4 (Some 4%Z) None None JUndefined.

(** One player has joined a three-seat game. *)
Definition solo_history : list (op nat * Z) :=
  [(OpCreate "g" trio, 1%Z); (OpAddPlayer "g" alice zeros, 2%Z)].

Definition solo : engine nat := run cfg 0 base solo_history new_engine.

(** The views of game ["g"] the statements below look at. *)
Definition state_of {GD} (e : engine GD) : option (gstate GD) :=
  g_state <$> activeGames e !! "g".

Definition holder {GD} (e : engine GD) : option jsid :=
  st_currentTurn <$> state_of e.

Definition present {GD} (e : engine GD) : option (list string) :=
  player_ids <$> activeGames e !! "g".
End Scenario.

(** * Definitions for the further properties *)

(** ** Predicates the engine keeps *)

(** The game object [createGame] builds. *)
Definition new_game {GD} (cfg : host_config) (emptyObject : GD) (gameId : string)
    (gameConfig : game_config) (now : Z) : game GD :=
  mkGame gameId gameConfig
    (mkState Waiting [] JNull [] emptyObject now now None None None JUndefined)
    (js_or (c_maxPlayers gameConfig) (maxPlayersPerGame cfg))
    (js_or_ms (c_turnTimeLimit gameConfig) (turnTimeLimit cfg)).

(** A predicate on registered games, which may depend on the key, that
    every write of the engine to a game object keeps: the writes are those of
    [addPlayer] past its two checks, [removePlayer], [nextTurn], [endGame],
    [processAction] on an active game, [startGame] past its guards, and the
    ready handler. *)
Record game_closed {GD Act} (hk : hooks GD Act) (P : string -> game GD -> Prop) : Prop :=
  mkGameClosed {
    gc_join : forall k g p now,
      P k g -> length (st_players (g_state g)) < g_maxPlayers g ->
      pl_id p ∉ player_ids g -> P k (with_state (join p now) g);
    gc_leave : forall k g i now, P k g -> P k (with_state (leave i now) g);
    gc_advance : forall k g, P k g -> P k (with_state advance g);
    gc_finish : forall k g reason winner now,
      P k g -> P k (with_state (finish reason (default_null winner) now) g);
    gc_commit : forall k g r now,
      P k g -> st_status (g_state g) = Active -> P k (with_state (commit r now) g);
    gc_begin : forall k g rnd now,
      P k g -> can_start g = true -> P k (with_state (fun _ => begin hk g rnd now) g);
    gc_ready : forall k g playerId ready now,
      P k g -> P k (with_state (mark_ready playerId ready now) g)
  }.

Definition all_games {GD} (P : string -> game GD -> Prop) (e : engine GD) : Prop :=
  map_Forall P (activeGames e).

(** A call that registers a game under [gameId]. *)
Definition creates {Act} (gameId : string) (o : op Act) : Prop :=
  exists gameConfig, o = OpCreate gameId gameConfig.

(** A predicate on the engine that the host operations keep: replacing the
    registry, emitting, saving, clearing a timeout, dropping an entry of
    either timer map, scheduling a callback other than the turn timeout, and
    arming the lifetime timer of a game. *)
Record host_stable {GD} (cfg : host_config) (I : engine GD -> Prop) : Prop :=
  mkHostStable {
    hs_games : forall m e, I e -> I (with_games m e);
    hs_emit : forall ev e, I e -> I (after (emit ev) e);
    hs_save : forall g e, I e -> I (after (saveGameState g) e);
    hs_clear : forall h e, I e -> I (after (clearTimeout h) e);
    hs_drop_game : forall gameId e,
      I e -> I (mkEngine (activeGames e) (delete gameId (gameTimers e)) (turnTimers e)
                 (timeouts e) (nextHandle e) (emitted e) (saved e));
    hs_drop_turn : forall gameId e,
      I e -> I (mkEngine (activeGames e) (gameTimers e) (delete gameId (turnTimers e))
                 (timeouts e) (nextHandle e) (emitted e) (saved e));
    hs_schedule : forall cb delay e,
      (forall gameId, cb <> CbTurnTimeout gameId) -> I e -> I (after (setTimeout cb delay) e);
    hs_arm : forall gameId e, I e -> I (after (setGameTimeout cfg gameId) e)
  }.

(** The computation [c] keeps the engine predicate [I], whether it returns
    or throws. *)
Definition keeps {GD A} (I : engine GD -> Prop) (c : M GD A) : Prop :=
  forall e, I e -> I (after c e).

(** No turn timer exists: the map is empty and no live timeout carries the
    turn-timeout closure. *)
Definition no_turn_timer {GD} (e : engine GD) : Prop :=
  turnTimers e = ∅
  /\ forall h cb delay, timeouts e !! h = Some (cb, delay) ->
       forall gameId, cb <> CbTurnTimeout gameId.

(** Handles are handed out in increasing order: every live timeout and every
    stored lifetime timer is below the next handle. *)
Definition handles_fresh {GD} (e : engine GD) : Prop :=
  (forall h x, timeouts e !! h = Some x -> h < nextHandle e)
  /\ (forall gameId h, gameTimers e !! gameId = Some h -> h < nextHandle e).

(** ** The life of one game object *)

Definition status_rank (s : status) : nat :=
  match s with
  | Waiting => 0
  | Active => 1
  | Ended => 2
  end.

(** [g'] is a later state of the game object [g]: identity, configuration
    and creation time are the same, the status has not moved back, and once
    the game has left [waiting] its turn order and start time are fixed. *)
Record later {GD} (g g' : game GD) : Prop := mkLater {
  lt_id : g_id g' = g_id g;
  lt_config : g_config g' = g_config g;
  lt_maxPlayers : g_maxPlayers g' = g_maxPlayers g;
  lt_turnTimeLimit : g_turnTimeLimit g' = g_turnTimeLimit g;
  lt_createdAt : st_createdAt (g_state g') = st_createdAt (g_state g);
  lt_status : status_rank (st_status (g_state g)) <= status_rank (st_status (g_state g'));
  lt_order : st_status (g_state g) <> Waiting ->
             st_turnOrder (g_state g') = st_turnOrder (g_state g)
             /\ st_startedAt (g_state g') = st_startedAt (g_state g)
}.

(** What the fields of a game say about each other in every reachable
    engine: a waiting game has no turn order, no holder that is an
    identifier and neither start nor end time; an active game has a start
    time and no end time; an ended game has an end time and a winner that is
    [null] or an identifier. *)
Definition coherent {GD} (g : game GD) : Prop :=
  match st_status (g_state g) with
  | Waiting =>
      st_turnOrder (g_state g) = []
      /\ (forall s, st_currentTurn (g_state g) <> JId s)
      /\ st_startedAt (g_state g) = None
      /\ st_endedAt (g_state g) = None
  | Active =>
      is_Some (st_startedAt (g_state g)) /\ st_endedAt (g_state g) = None
  | Ended =>
      is_Some (st_endedAt (g_state g)) /\ st_winner (g_state g) <> JUndefined
  end.

(** ** The socket handler's own engine *)

(** [SocketHandler] builds a [GameEngine] of its own in its constructor and
    calls three things on it: [processAction] (from [handleGameAction]),
    [getGame] and [checkGameStart] (from [handlePlayerReady]) and
    [getGameState] (from [joinPlayerToGame]). *)
Definition handler_call {Act} (o : op Act) : Prop :=
  match o with
  | OpProcessAction _ _ _ | OpGetGameState _ _ | OpReady _ _ _ _ => True
  | _ => False
  end.

(** ** The persisted document: the methods of the [GameState] model *)

(** The instance methods of the mongoose model that [saveGameState]
    instantiates.  Identifiers are [ObjectId]s, compared through
    [toString()]; they are strings here.  Each method is given by its writes
    to the document in memory; the [save()] it ends with, and the
    [updatedAt] stamp of the save hook, belong to the database layer and are
    left out. *)
Module GameState.

Inductive doc_status : Type := Waiting | Active | Paused | Ended | Cancelled.

(** An entry of [state.players], with the defaults of the schema. *)
Record member : Type := mkMember {
  m_id : string;
  m_name : string;
  m_ready : bool;
  m_connected : bool;
  m_joinedAt : Z;
  m_lastActivity : Z;
  m_score : Z;
  m_position : Z;
  m_isSpectator : bool
}.

Record document : Type := mkDocument {
  minPlayers : nat;
  status : doc_status;
  players : list member;
  currentTurn : option string;
  turnOrder : list string;
  currentRound : nat;
  startedAt : option Z;
  endedAt : option Z;
  endReason : option string;
  winner : option string
}.

Definition ids (d : document) : list string := m_id <$> players d.

Definition set_players (v : list member) (d : document) : document :=
  mkDocument (minPlayers d) (status d) v (currentTurn d) (turnOrder d)
    (currentRound d) (startedAt d) (endedAt d) (endReason d) (winner d).

(** [players.find(p => p.id.toString() === playerId.toString())]. *)
Definition getPlayerById (d : document) (playerId : string) : option member :=
  snd <$> list_find (fun p => m_id p = playerId) (players d).

Definition addPlayer (d : document) (p : player) (now : Z) : document :=
  match getPlayerById d (pl_id p) with
  | Some _ => d
  | None =>
      set_players
        (players d ++ [mkMember (pl_id p) (pl_name p) false true now now 0 0 false]) d
  end.

Definition removePlayer (d : document) (playerId : string) : document :=
  set_players (filter (fun p => m_id p <> playerId) (players d)) d.

Definition setPlayerReady (d : document) (playerId : string) (ready : bool) : document :=
  match list_find (fun p => m_id p = playerId) (players d) with
  | Some (i, p) =>
      set_players
        (<[i := mkMember (m_id p) (m_name p) ready (m_connected p) (m_joinedAt p)
                 (m_lastActivity p) (m_score p) (m_position p) (m_isSpectator p)]>
           (players d)) d
  | None => d
  end.

(** [startGame]: the turn order is generated only when none is set, from
    the participants that are not spectators, with the same shuffle loop as
    the engine's. *)
Definition startGame (d : document) (rnd : nat -> draw) (now : Z) : document :=
  let order :=
    match turnOrder d with
    | [] =>
        let candidates := m_id <$> filter (fun p => m_isSpectator p = false) (players d) in
        shuffle_from (length candidates - 1) 0 rnd candidates
    | _ => turnOrder d
    end in
  mkDocument (minPlayers d) Active (players d) (order !! 0) order 1 (Some now)
    (endedAt d) (endReason d) (winner d).

(** [turnOrder.findIndex(id => id.toString() === currentTurn.toString())];
    [None] is [-1]. *)
Definition findIndex (order : list string) (current : string) : option nat :=
  fst <$> list_find (fun s => s = current) order.

(** [nextTurn]: nothing without a holder or a turn order; otherwise the
    holder moves one place round the order and a round is counted when it
    comes back to the first place. *)
Definition nextTurn (d : document) : document :=
  match currentTurn d with
  | None => d
  | Some current =>
      match turnOrder d with
      | [] => d
      | _ =>
          let next := match findIndex (turnOrder d) current with
                      | Some currentIndex => currentIndex + 1
                      | None => 0
                      end in
          let nextIndex := next `mod` length (turnOrder d) in
          mkDocument (minPlayers d) (status d) (players d) (turnOrder d !! nextIndex)
            (turnOrder d)
            (if nextIndex =? 0 then currentRound d + 1 else currentRound d)
            (startedAt d) (endedAt d) (endReason d) (winner d)
      end
  end.

Definition canStart (d : document) : bool :=
  let readyPlayers := filter (fun p => m_ready p && negb (m_isSpectator p) = true) (players d) in
  (minPlayers d <=? length readyPlayers)
  && (length readyPlayers
      =? length (filter (fun p => negb (m_isSpectator p) = true) (players d))).

(** [n] calls of [nextTurn]. *)
Definition turns (n : nat) (d : document) : document := Nat.iter n nextTurn d.

End GameState.

(** ** Concrete games, hooks and documents *)

Module Cases.
Import Scenario.

Definition seat (id name : string) (ready : bool) (joined : Z) : participant :=
  mkParticipant id name ready true joined joined.

(** Game ["g"] as [Scenario.lobby], [Scenario.started], [Scenario.solo] and
    [Scenario.after_leave] hold it. *)
Definition lobby_game : game nat :=
  mkGame "g" duel
    (mkState Waiting [seat "A" "Alice" false 2; seat "B" "Bob" false 3]
       JNull [] 0 1 3 None None None JUndefined)
    2 30000.

Definition started_game : game nat :=
  mkGame "g" duel
    (mkState Active [seat "A" "Alice" false 2; seat "B" "Bob" false 3]
       (JId "B") ["B"; "A"] 0 1 4 (Some 4%Z) None None JUndefined)
    2 30000.

Definition solo_game : game nat :=
  mkGame "g" trio
    (mkState Waiting [seat "A" "Alice" false 2] JNull [] 0 1 2 None None None JUndefined)
    3 30000.

Definition left_game : game nat :=
  mkGame "g" trio
    (mkState Active [seat "A" "Alice" false 2; seat "B" "Bob" false 3]
       (JId "B") ["B"; "C"; "A"] 0 1 6 (Some 5%Z) None None JUndefined)
    3 30000.

(** The started duel is ended by a call of [endGame]; or A, who does not
    hold the turn, leaves it. *)
Definition closing : list (op nat * Z) :=
  [(OpEndGame "g" (Some "resigned") (JId "B"), 9%Z)].

Definition closed_game : game nat :=
  with_state (finish (Some "resigned") (JId "B") 9) started_game.

Definition walkout : list (op nat * Z) := [(OpRemovePlayer "g" "A", 7%Z)].

Definition deserted_game : game nat :=
  with_state (finish (Some "insufficient_players") JNull 7)
    (with_state (leave 0 7) started_game).



(** Calls of the socket handler on its own engine. *)
Definition handler_history : list (op nat * Z) :=
  [(OpGetGameState "g" (JId "A"), 1%Z); (OpReady "g" "A" true zeros, 2%Z);
   (OpProcessAction "g" (JId "A") 7, 3%Z)].

(** A game type in which every action ends the game, the one who acts
    winning; the action is the new game data. *)
Definition finishing : hooks nat nat :=
  mkHooks
    (fun _ => 0)
    (fun _ _ _ => mkValidation true EmptyString)
    (fun _ playerId action => mkResult action true (Some "checkmate") playerId)
    (fun _ _ => None)
    (fun d _ => d).

(** A persisted document with three places in its turn order, the first
    holding the turn in round 1. *)
Definition table : GameState.document :=
  GameState.mkDocument 2 GameState.Active [] (Some "a") ["a"; "b"; "c"] 1 (Some 0%Z)
    None None None.

(** A waiting document with two participants, of whom only the first is
    ready. *)
Definition pair : GameState.document :=
  GameState.mkDocument 2 GameState.Waiting
    [GameState.mkMember "a" "Ann" true true 1 1 0 0 false;
     GameState.mkMember "b" "Ben" false true 2 2 0 0 false]
    None [] 0 None None None None.
End Cases.

(** * Properties *)

(** ** The shuffle permutes *)

Lemma floor_scale_lt (r : draw) (n : nat) : 0 < n -> floor_scale r n < n.
Proof.
  intros Hn. unfold floor_scale.
  apply Nat.Div0.div_lt_upper_bound. nia.
Qed.

Lemma insert_cons_perm (a : list string) (i : nat) (x y : string) :
  a !! i = Some x -> y :: a ≡ₚ x :: <[i:=y]> a.
Proof.
  revert i. induction a as [|z a IH]; intros [|i] Hi; simplify_eq/=.
  - apply perm_swap.
  - rewrite perm_swap, (IH i Hi), perm_swap. done.
Qed.

Lemma swap_perm (i j : nat) (a : list string) : swap i j a ≡ₚ a.
Proof.
  unfold swap.
  destruct (a !! i) as [x|] eqn:Hi; [|done].
  destruct (a !! j) as [y|] eqn:Hj; [|done].
  assert (Hj' : <[i:=y]> a !! j = Some y).
  { destruct (decide (i = j)) as [->|Hne].
    - apply list_lookup_insert_eq. by eapply lookup_lt_Some.
    - by rewrite list_lookup_insert_ne. }
  apply (Permutation_cons_inv (a:=y)).
  rewrite (insert_cons_perm a i x y Hi).
  symmetry. apply (insert_cons_perm _ j y x Hj').
Qed.

Lemma shuffle_from_perm (i k : nat) (rnd : nat -> draw) (a : list string) :
  shuffle_from i k rnd a ≡ₚ a.
Proof.
  revert k a. induction i as [|i IH]; intros k a; simpl; [done|].
  rewrite IH. apply swap_perm.
Qed.

Lemma generateTurnOrder_perm (players : list participant) (rnd : nat -> draw) :
  generateTurnOrder players rnd ≡ₚ fmap p_id players.
Proof. apply shuffle_from_perm. Qed.

(** Every swap of the loop is between positions of the array: the model's
    out-of-range branch of [swap] is never taken. *)
Lemma shuffle_index_in_range (r : draw) (i : nat) (a : list string) :
  i < length a -> is_Some (a !! i) /\ is_Some (a !! floor_scale r (i + 1)).
Proof.
  intros Hi. split; apply lookup_lt_is_Some; [done|].
  pose proof (floor_scale_lt r (i + 1)). lia.
Qed.

(** ** Reading and finding *)

Lemma find_player_Some (players : list participant) (v : jsid) :
  is_Some (find_player players v) <-> exists s, v = JId s /\ s ∈ fmap p_id players.
Proof.
  unfold find_player. split.
  - intros [p Hp]. apply fmap_Some in Hp as [[i q] [Hf ->]].
    apply list_find_Some in Hf as (Hi & Hq & _).
    exists (p_id q). split; [done|].
    apply list_elem_of_fmap. exists q. split; [done|].
    by eapply list_elem_of_lookup_2.
  - intros (s & -> & Hs). apply list_elem_of_fmap in Hs as (q & -> & Hq).
    destruct (list_find (fun p => JId (p_id p) = JId (p_id q)) players) as [[i p]|] eqn:Hf.
    + by eexists.
    + exfalso. eapply list_find_None in Hf.
      rewrite Forall_forall in Hf. by apply (Hf q).
Qed.

Lemma find_player_None (players : list participant) (v : jsid) :
  find_player players v = None <-> forall s, v = JId s -> s ∉ fmap p_id players.
Proof.
  rewrite eq_None_not_Some, find_player_Some. split.
  - intros Hno s -> Hs. apply Hno. by exists s.
  - intros Hno (s & -> & Hs). by apply (Hno s).
Qed.

Lemma indexOf_Some (a : list string) (v : jsid) (i : nat) :
  indexOf a v = Some i ->
  exists s, v = JId s /\ a !! i = Some s /\ forall j, j < i -> a !! j <> Some s.
Proof.
  unfold indexOf. intros Hf.
  apply fmap_Some in Hf as [[k s] [Hf ->]].
  apply list_find_Some in Hf as (Hk & <- & Hmin). simpl.
  exists s. repeat split; [done|].
  intros j Hj Hjs. by apply (Hmin j s Hjs Hj).
Qed.

Lemma indexOf_NoDup (a : list string) (i : nat) (s : string) :
  NoDup a -> a !! i = Some s -> indexOf a (JId s) = Some i.
Proof.
  intros Hnd Hi. unfold indexOf.
  destruct (list_find (fun x => JId x = JId s) a) as [[k x]|] eqn:Hf; simpl.
  - apply list_find_Some in Hf as (Hk & Hx & _). simplify_eq.
    f_equal. by eapply NoDup_lookup.
  - exfalso. eapply list_find_None in Hf. rewrite Forall_forall in Hf.
    apply (Hf s); [|done]. by eapply list_elem_of_lookup_2.
Qed.

Lemma next_holder_in (a : list string) (v : jsid) (s : string) :
  next_holder a v = JId s -> s ∈ a.
Proof.
  unfold next_holder. destruct a as [|x a]; [done|].
  unfold js_index. intros H.
  destruct ((x :: a) !! _) as [y|] eqn:Hy; simplify_eq.
  by eapply list_elem_of_lookup_2.
Qed.

Lemma next_holder_lookup (a : list string) (i : nat) (s : string) :
  NoDup a -> a !! i = Some s ->
  next_holder a (JId s) = js_index a ((i + 1) `mod` length a).
Proof.
  intros Hnd Hi. unfold next_holder.
  rewrite (indexOf_NoDup a i s Hnd Hi).
  destruct a; [done|]. done.
Qed.

(** ** What each method does to the registry of games *)

Section Effects.
Context {GD Act : Type}.
Variable cfg : host_config.
Variable emptyObject : GD.
Variable hk : hooks GD Act.

Implicit Types (e : engine GD) (g : game GD) (gameId : string).

Lemma bind_ok {A B} (c : M GD A) (k : A -> M GD B) e a :
  result c e = Ok a -> bind c k e = k a (after c e).
Proof. unfold result, after, bind. by destruct (c e) as [e' [a'|err]]; intros; simplify_eq/=. Qed.

Lemma bind_throw {A B} (c : M GD A) (k : A -> M GD B) e err :
  result c e = Throw err -> bind c k e = (after c e, Throw err).
Proof. unfold result, after, bind. by destruct (c e) as [e' [a'|err']]; intros; simplify_eq/=. Qed.

Lemma alter_absent (f : game GD -> game GD) gameId (m : gmap string (game GD)) :
  m !! gameId = None -> alter f gameId m = m.
Proof.
  intros Hm. apply map_eq. intros k. rewrite lookup_alter.
  case_decide; subst; [by rewrite Hm|done].
Qed.

Lemma alter_present (f : game GD -> game GD) gameId g (m : gmap string (game GD)) :
  m !! gameId = Some g -> alter f gameId m = <[gameId := f g]> m.
Proof.
  intros Hm. apply map_eq. intros k. rewrite lookup_alter, lookup_insert.
  case_decide; subst; [by rewrite Hm|done].
Qed.

Lemma clearTurnTimer_games gameId e :
  activeGames (after (clearTurnTimer gameId) e) = activeGames e.
Proof.
  unfold after, clearTurnTimer, bind, gets. simpl.
  by destruct (turnTimers e !! gameId).
Qed.

Lemma clearTurnTimer_gameTimers gameId e :
  gameTimers (after (clearTurnTimer gameId) e) = gameTimers e.
Proof.
  unfold after, clearTurnTimer, bind, gets. simpl.
  by destruct (turnTimers e !! gameId).
Qed.

Lemma clearTurnTimer_ok gameId e : result (clearTurnTimer gameId) e = Ok tt.
Proof.
  unfold result, clearTurnTimer, bind, gets. simpl.
  by destruct (turnTimers e !! gameId).
Qed.

Lemma clearTurnTimer_cleared gameId e :
  turnTimers (after (clearTurnTimer gameId) e) !! gameId = None.
Proof.
  unfold after, clearTurnTimer, bind, gets. simpl.
  destruct (turnTimers e !! gameId) eqn:Ht; simpl; [|done].
  apply lookup_delete_eq.
Qed.

(** [setTurnTimer] always raises, and installs nothing. *)
Lemma setTurnTimer_throws gameId e :
  result (setTurnTimer gameId) e = Throw (ReferenceError "game is not defined")
  /\ activeGames (after (setTurnTimer gameId) e) = activeGames e
  /\ turnTimers (after (setTurnTimer gameId) e) !! gameId = None.
Proof.
  pose proof (clearTurnTimer_ok gameId e) as Hr.
  pose proof (clearTurnTimer_games gameId e) as Hg.
  pose proof (clearTurnTimer_cleared gameId e) as Hc.
  unfold result, after, setTurnTimer, bind, throw in *.
  destruct (clearTurnTimer gameId e) as [e' [[]|err]]; simplify_eq/=. done.
Qed.

Lemma startTurn_games gameId e :
  activeGames (after (startTurn gameId) e) = activeGames e.
Proof.
  pose proof (setTurnTimer_throws gameId e) as (Hr & Hg & _).
  unfold result, after, startTurn, bind, getGame, gets in *. simpl.
  destruct (activeGames e !! gameId) as [g|]; [|done].
  destruct (find_player _ _); [|done].
  destruct (setTurnTimer gameId e) as [e' [[]|err]]; simplify_eq/=. done.
Qed.

(** [startTurn] raises exactly when the holder is a present participant. *)
Lemma startTurn_result gameId e :
  result (startTurn gameId) e =
    match activeGames e !! gameId with
    | Some g =>
        if is_Some_b (find_player (st_players (g_state g)) (st_currentTurn (g_state g)))
        then Throw (ReferenceError "game is not defined")
        else Ok tt
    | None => Ok tt
    end.
Proof.
  pose proof (setTurnTimer_throws gameId e) as (Hr & _ & _).
  unfold result, after, startTurn, bind, getGame, gets in *. simpl.
  destruct (activeGames e !! gameId) as [g|]; [|done].
  destruct (find_player _ _); [|done]. simpl.
  destruct (setTurnTimer gameId e) as [e' [[]|err]]; simplify_eq/=. done.
Qed.

Lemma nextTurn_games gameId e :
  activeGames (after (nextTurn gameId) e)
  = alter (with_state advance) gameId (activeGames e).
Proof.
  unfold after, nextTurn, bind at 1, getGame, gets. simpl.
  destruct (activeGames e !! gameId) as [g|] eqn:Hg; simpl.
  - pose proof (clearTurnTimer_ok gameId e) as Hr.
    pose proof (clearTurnTimer_games gameId e) as Hc.
    unfold result, after, bind in *.
    destruct (clearTurnTimer gameId e) as [e1 [[]|err]]; simplify_eq/=.
    unfold update_state, modify. simpl.
    match goal with |- activeGames (fst (startTurn gameId ?x)) = _ =>
      pose proof (startTurn_games gameId x) as Hs end.
    unfold after in Hs. rewrite Hs. simpl. by rewrite Hc.
  - by rewrite alter_absent.
Qed.

Lemma nextTurn_result gameId e :
  result (nextTurn gameId) e =
    match activeGames e !! gameId with
    | Some g =>
        if is_Some_b (find_player (st_players (g_state g))
                        (next_holder (st_turnOrder (g_state g)) (st_currentTurn (g_state g))))
        then Throw (ReferenceError "game is not defined")
        else Ok tt
    | None => Ok tt
    end.
Proof.
  unfold result, nextTurn, bind at 1, getGame, gets. simpl.
  destruct (activeGames e !! gameId) as [g|] eqn:Hg; simpl; [|done].
  pose proof (clearTurnTimer_ok gameId e) as Hr.
  pose proof (clearTurnTimer_games gameId e) as Hc.
  unfold result, after, bind in *.
  destruct (clearTurnTimer gameId e) as [e1 [[]|err]]; simplify_eq/=.
  unfold update_state, modify. simpl.
  match goal with |- snd (startTurn gameId ?x) = _ =>
    pose proof (startTurn_result gameId x) as Hs end.
  unfold result in Hs. rewrite Hs. simpl.
  rewrite Hc, lookup_alter, decide_True, Hg by done. done.
Qed.

Lemma clearGameTimers_games gameId e :
  activeGames (after (clearGameTimers gameId) e) = activeGames e.
Proof.
  unfold after, clearGameTimers, bind at 1, bind at 1, gets. simpl.
  destruct (gameTimers e !! gameId); simpl;
    match goal with |- activeGames (fst (clearTurnTimer gameId ?x)) = _ =>
      apply (clearTurnTimer_games gameId x) end.
Qed.

Lemma clearGameTimers_ok gameId e : result (clearGameTimers gameId) e = Ok tt.
Proof.
  unfold result, clearGameTimers, bind at 1, bind at 1, gets. simpl.
  destruct (gameTimers e !! gameId); simpl;
    match goal with |- snd (clearTurnTimer gameId ?x) = _ =>
      apply (clearTurnTimer_ok gameId x) end.
Qed.

(** Both timer slots of the game are empty after [clearGameTimers]. *)
Lemma clearGameTimers_cleared gameId e :
  gameTimers (after (clearGameTimers gameId) e) !! gameId = None
  /\ turnTimers (after (clearGameTimers gameId) e) !! gameId = None.
Proof.
  unfold after, clearGameTimers, bind, gets, clearTimeout, modify, ret. simpl.
  destruct (gameTimers e !! gameId) eqn:Hg; simpl;
    match goal with |- context [clearTurnTimer gameId ?x] =>
      pose proof (clearTurnTimer_cleared gameId x) as Hc;
      pose proof (clearTurnTimer_gameTimers gameId x) as Ht;
      unfold after in Hc, Ht; split; [rewrite Ht; simpl|exact Hc] end.
  - apply lookup_delete_eq.
  - done.
Qed.

Lemma clearGameTimers_emitted gameId e :
  emitted (after (clearGameTimers gameId) e) = emitted e.
Proof.
  unfold after, clearGameTimers, clearTurnTimer, bind, gets, clearTimeout, modify, ret.
  simpl. destruct (gameTimers e !! gameId); simpl;
    by destruct (turnTimers e !! gameId).
Qed.

Lemma endGame_emitted gameId reason winner now e g :
  activeGames e !! gameId = Some g ->
  emitted (after (endGame gameId reason winner now) e)
  = EvGameEnded gameId reason (default_null winner) :: emitted e.
Proof.
  intros Hg. unfold after, endGame, bind at 1, getGame, gets. simpl. rewrite Hg.
  unfold bind, update_state, modify. simpl.
  match goal with |- context [clearGameTimers gameId ?x] =>
    pose proof (clearGameTimers_emitted gameId x) as Hc;
    pose proof (clearGameTimers_ok gameId x) as Hr end.
  unfold after, result in *.
  destruct (clearGameTimers _ _) as [e1 [[]|err]]; simplify_eq/=. by rewrite Hc.
Qed.

(** An ended game has neither timer. *)
Lemma endGame_timers gameId reason winner now e g :
  activeGames e !! gameId = Some g ->
  gameTimers (after (endGame gameId reason winner now) e) !! gameId = None
  /\ turnTimers (after (endGame gameId reason winner now) e) !! gameId = None.
Proof.
  intros Hg.
  split;
    unfold after, endGame, bind at 1, getGame, gets; simpl; rewrite Hg;
    unfold bind, update_state, modify; simpl;
    match goal with |- context [clearGameTimers gameId ?x] =>
      pose proof (clearGameTimers_cleared gameId x) as Hc;
      pose proof (clearGameTimers_ok gameId x) as Hr end;
    unfold after, result in *;
    destruct (clearGameTimers _ _) as [e1 [[]|err]]; simplify_eq/=; apply Hc.
Qed.

Lemma endGame_games gameId reason winner now e :
  activeGames (after (endGame gameId reason winner now) e)
  = alter (with_state (finish reason (default_null winner) now)) gameId (activeGames e).
Proof.
  unfold after, endGame, bind at 1, getGame, gets. simpl.
  destruct (activeGames e !! gameId) as [g|] eqn:Hg; simpl;
    [|by rewrite alter_absent].
  unfold bind, update_state, modify. simpl.
  match goal with |- context [clearGameTimers gameId ?x] =>
    pose proof (clearGameTimers_games gameId x) as Hc;
    pose proof (clearGameTimers_ok gameId x) as Hr end.
  unfold after, result in *.
  destruct (clearGameTimers _ _) as [e1 [[]|err]]; simplify_eq/=. done.
Qed.

Lemma endGame_result gameId reason winner now e :
  result (endGame gameId reason winner now) e =
    match activeGames e !! gameId with
    | Some _ => Ok tt
    | None => Throw GameNotFound
    end.
Proof.
  unfold result, endGame, bind at 1, getGame, gets. simpl.
  destruct (activeGames e !! gameId) as [g|] eqn:Hg; simpl; [|done].
  unfold bind, update_state, modify. simpl.
  match goal with |- context [clearGameTimers gameId ?x] =>
    pose proof (clearGameTimers_ok gameId x) as Hr end.
  unfold after, result in *.
  destruct (clearGameTimers _ _) as [e1 [[]|err]]; simplify_eq/=. done.
Qed.

(** [startGame]: the three outcomes.  Past the two guards the state of the
    game is [begin] and the call raises or returns as [startTurn] does. *)
Lemma startGame_games gameId rnd now e :
  activeGames (after (startGame hk gameId rnd now) e) =
    match activeGames e !! gameId with
    | Some g =>
        if can_start g
        then <[gameId := with_state (fun _ => begin hk g rnd now) g]> (activeGames e)
        else activeGames e
    | None => activeGames e
    end.
Proof.
  unfold after, startGame, bind at 1, getGame, gets, can_start. simpl.
  destruct (activeGames e !! gameId) as [g|] eqn:Hg; simpl; [|done].
  case_bool_decide; simpl; [|done].
  destruct (js_lt _ _); simpl; [done|].
  unfold bind, update_state, modify. simpl.
  match goal with |- context [startTurn gameId ?x] =>
    pose proof (startTurn_games gameId x) as Hs end.
  unfold after in *.
  destruct (startTurn _ _) as [e1 [[]|err]]; simplify_eq/=;
    rewrite Hs; by apply alter_present.
Qed.

Lemma startGame_result gameId rnd now e :
  result (startGame hk gameId rnd now) e =
    match activeGames e !! gameId with
    | Some g =>
        if negb (bool_decide (st_status (g_state g) = Waiting)) then Throw NotWaiting
        else if js_lt (length (st_players (g_state g))) (c_minPlayers (g_config g))
        then Throw NotEnoughPlayers
        else if is_Some_b (find_player (st_players (g_state g))
                             (js_index (generateTurnOrder (st_players (g_state g)) rnd) 0))
        then Throw (ReferenceError "game is not defined")
        else Ok true
    | None => Throw GameNotFound
    end.
Proof.
  unfold result, startGame, bind at 1, getGame, gets. simpl.
  destruct (activeGames e !! gameId) as [g|] eqn:Hg; simpl; [|done].
  case_bool_decide; simpl; [|done].
  destruct (js_lt _ _); simpl; [done|].
  unfold bind, update_state, modify. simpl.
  match goal with |- context [startTurn gameId ?x] =>
    pose proof (startTurn_result gameId x) as Hs end.
  unfold result in *. simpl in Hs.
  rewrite lookup_alter, decide_True, Hg in Hs by done. simpl in Hs.
  destruct (startTurn _ _) as [e1 [[]|err]]; simplify_eq/=;
    by destruct (is_Some_b _); simplify_eq.
Qed.

(** [checkGameStart] starts nothing while some participant is not ready. *)
Lemma checkGameStart_not_ready gameId rnd now e g p :
  activeGames e !! gameId = Some g ->
  p ∈ st_players (g_state g) -> p_ready p = false ->
  checkGameStart hk gameId rnd now e = (e, Ok tt).
Proof.
  intros Hg Hp Hr. unfold checkGameStart, bind, getGame, gets. simpl.
  rewrite Hg.
  pose proof (length_filter_lt (fun p => p_ready p = true) _ p Hp) as Hlt.
  rewrite (proj2 (Nat.eqb_neq _ _)), andb_false_r; [done|].
  apply Nat.lt_neq, Hlt. by rewrite Hr.
Qed.

(** [addPlayer]: at capacity, then duplicate, then the push.  The pushed
    participant is not ready, so the start check that follows starts
    nothing. *)
Lemma addPlayer_full gameId player rnd now e g :
  activeGames e !! gameId = Some g ->
  g_maxPlayers g <= length (st_players (g_state g)) ->
  addPlayer hk gameId player rnd now e = (e, Throw GameFull).
Proof.
  intros Hg Hfull. unfold addPlayer, bind, getGame, gets. simpl.
  rewrite Hg. by rewrite (proj2 (Nat.leb_le _ _)).
Qed.

Lemma addPlayer_duplicate gameId player rnd now e g :
  activeGames e !! gameId = Some g ->
  length (st_players (g_state g)) < g_maxPlayers g ->
  pl_id player ∈ player_ids g ->
  addPlayer hk gameId player rnd now e = (e, Throw DuplicatePlayer).
Proof.
  intros Hg Hroom Hdup. unfold addPlayer, bind, getGame, gets. simpl.
  rewrite Hg. rewrite (proj2 (Nat.leb_gt _ _)) by done.
  destruct (find_player _ _) eqn:Hf; [done|].
  exfalso. rewrite find_player_None in Hf. by eapply Hf.
Qed.

Lemma addPlayer_joins gameId player rnd now e g :
  activeGames e !! gameId = Some g ->
  length (st_players (g_state g)) < g_maxPlayers g ->
  pl_id player ∉ player_ids g ->
  addPlayer hk gameId player rnd now e
  = (with_games (<[gameId := with_state (join player now) g]> (activeGames e)) e,
     Ok true).
Proof.
  intros Hg Hroom Hnew. unfold addPlayer, bind at 1, getGame, gets. simpl.
  rewrite Hg. rewrite (proj2 (Nat.leb_gt _ _)) by done.
  destruct (find_player _ _) eqn:Hf.
  { exfalso. apply Hnew.
    destruct (proj1 (find_player_Some _ _) (mk_is_Some _ _ Hf)) as (s & Hs & Hin).
    by simplify_eq. }
  simpl. unfold bind at 1, update_state, modify. simpl.
  rewrite (alter_present _ _ _ _ Hg).
  destruct (js_ge _ _).
  - unfold bind. erewrite checkGameStart_not_ready; [done|..].
    + simpl. apply lookup_insert_eq.
    + simpl. apply elem_of_app. right. apply list_elem_of_singleton. done.
    + done.
  - done.
Qed.

Lemma addPlayer_games gameId player rnd now e :
  activeGames (after (addPlayer hk gameId player rnd now) e) =
    match activeGames e !! gameId with
    | Some g =>
        if bool_decide (length (st_players (g_state g)) < g_maxPlayers g
                        /\ pl_id player ∉ player_ids g)
        then <[gameId := with_state (join player now) g]> (activeGames e)
        else activeGames e
    | None => activeGames e
    end.
Proof.
  destruct (activeGames e !! gameId) as [g|] eqn:Hg.
  - case_bool_decide as Hc.
    + destruct Hc. unfold after. by erewrite addPlayer_joins.
    + destruct (decide (length (st_players (g_state g)) < g_maxPlayers g)) as [Hroom|Hfull].
      * unfold after. erewrite addPlayer_duplicate; [done..|].
        destruct (decide (pl_id player ∈ player_ids g)); [done|]. by destruct Hc.
      * unfold after. erewrite addPlayer_full; [done..|]. lia.
  - unfold after, addPlayer, bind, getGame, gets. simpl. by rewrite Hg.
Qed.

(** [processAction]: the four refusals leave the engine as it was. *)
Lemma processAction_not_found gameId playerId action now e :
  activeGames e !! gameId = None ->
  processAction hk gameId playerId action now e = (e, Throw GameNotFound).
Proof.
  intros Hg. unfold processAction, bind, getGame, gets. simpl. by rewrite Hg.
Qed.

Lemma processAction_not_active gameId playerId action now e g :
  activeGames e !! gameId = Some g ->
  st_status (g_state g) <> Active ->
  processAction hk gameId playerId action now e = (e, Throw NotActive).
Proof.
  intros Hg Hs. unfold processAction, bind, getGame, gets. simpl. rewrite Hg.
  by rewrite bool_decide_eq_false_2.
Qed.

Lemma processAction_not_your_turn gameId playerId action now e g :
  activeGames e !! gameId = Some g ->
  st_status (g_state g) = Active ->
  playerId <> st_currentTurn (g_state g) ->
  processAction hk gameId playerId action now e = (e, Throw NotYourTurn).
Proof.
  intros Hg Hs Hne. unfold processAction, bind, getGame, gets. simpl. rewrite Hg.
  rewrite bool_decide_eq_true_2 by done. simpl.
  by rewrite bool_decide_eq_false_2.
Qed.

Lemma processAction_invalid gameId playerId action now e g :
  activeGames e !! gameId = Some g ->
  st_status (g_state g) = Active ->
  st_currentTurn (g_state g) = playerId ->
  valid (validateAction hk g playerId action) = false ->
  processAction hk gameId playerId action now e
  = (e, Throw (Error (error (validateAction hk g playerId action)))).
Proof.
  intros Hg Hs Ht Hv. unfold processAction, bind, getGame, gets. simpl. rewrite Hg.
  rewrite !bool_decide_eq_true_2 by done. simpl. by rewrite Hv.
Qed.

Lemma processAction_games gameId playerId action now e g :
  activeGames e !! gameId = Some g ->
  st_status (g_state g) = Active ->
  st_currentTurn (g_state g) = playerId ->
  valid (validateAction hk g playerId action) = true ->
  let r := executeAction hk g playerId action in
  activeGames (after (processAction hk gameId playerId action now) e)
  = <[gameId := with_state (fun s => settle r now (commit r now s)) g]> (activeGames e).
Proof.
  intros Hg Hs Ht Hv r.
  unfold after, processAction, bind at 1, getGame, gets. simpl. rewrite Hg.
  rewrite !bool_decide_eq_true_2 by done. simpl. rewrite Hv. simpl.
  unfold bind at 1, update_state, modify. simpl.
  rewrite (alter_present _ _ _ _ Hg). fold r. unfold settle.
  destruct (r_gameEnded r).
  - match goal with |- context [bind (endGame ?a ?b ?c ?d) ?k ?x] =>
      pose proof (endGame_games a b c d x) as Hgm;
      destruct (result (endGame a b c d) x) eqn:Hr;
      [rewrite (bind_ok _ _ _ _ Hr)|rewrite (bind_throw _ _ _ _ Hr)] end;
      unfold ret; cbn [fst]; rewrite Hgm; simpl;
      by rewrite alter_insert_eq.
  - match goal with |- context [bind (nextTurn ?a) ?k ?x] =>
      pose proof (nextTurn_games a x) as Hgm;
      destruct (result (nextTurn a) x) eqn:Hr;
      [rewrite (bind_ok _ _ _ _ Hr)|rewrite (bind_throw _ _ _ _ Hr)] end;
      unfold ret; cbn [fst]; rewrite Hgm; simpl;
      by rewrite alter_insert_eq.
Qed.

Lemma handleTurnTimeout_skip_games gameId now e g :
  activeGames e !! gameId = Some g ->
  getDefaultAction hk g (st_currentTurn (g_state g)) = None ->
  activeGames (after (handleTurnTimeout hk gameId now) e)
  = <[gameId := with_state advance g]> (activeGames e).
Proof.
  intros Hg Hd. unfold after, handleTurnTimeout, bind at 1, getGame, gets. simpl.
  rewrite Hg, Hd. pose proof (nextTurn_games gameId e) as Hn.
  unfold after in Hn. rewrite Hn. by apply alter_present.
Qed.

Lemma handleTurnTimeout_games gameId now e :
  activeGames (after (handleTurnTimeout hk gameId now) e) =
    match activeGames e !! gameId with
    | Some g =>
        match getDefaultAction hk g (st_currentTurn (g_state g)) with
        | Some a =>
            activeGames (after (processAction hk gameId (st_currentTurn (g_state g)) a now) e)
        | None => <[gameId := with_state advance g]> (activeGames e)
        end
    | None => activeGames e
    end.
Proof.
  destruct (activeGames e !! gameId) as [g|] eqn:Hg.
  - destruct (getDefaultAction _ _ _) as [a|] eqn:Hd.
    + unfold after, handleTurnTimeout, bind at 1, getGame, gets. simpl.
      rewrite Hg, Hd. unfold bind.
      by destruct (processAction _ _ _ _ _ _) as [e' [r|err]].
    + by apply handleTurnTimeout_skip_games.
  - unfold after, handleTurnTimeout, bind, getGame, gets. simpl. by rewrite Hg.
Qed.

(** [removePlayer]: the participant leaves; if the holder left an active
    game the turn advances; the game may then end for lack of players,
    unless the advance raised. *)
Lemma removePlayer_games gameId playerId now e g i p :
  activeGames e !! gameId = Some g ->
  list_find (fun p => p_id p = playerId) (st_players (g_state g)) = Some (i, p) ->
  let g1 := with_state (leave i now) g in
  let g2 := if bool_decide (st_status (g_state g) = Active)
               && bool_decide (st_currentTurn (g_state g) = JId playerId)
            then with_state advance g1 else g1 in
  exists g3,
    activeGames (after (removePlayer gameId playerId now) e)
    = <[gameId := g3]> (activeGames e)
    /\ (g3 = g2
        \/ g3 = with_state (finish (Some "insufficient_players") JNull now) g2).
Proof.
  intros Hg Hf g1 g2.
  unfold after, removePlayer, bind at 1, getGame, gets. simpl. rewrite Hg, Hf.
  unfold bind at 1, update_state, modify. simpl.
  rewrite (alter_present _ _ _ _ Hg). fold g1.
  set (e1 := with_games _ e).
  set (turn := if _ && _ then nextTurn gameId else ret ()).
  assert (Hgm : activeGames (after turn e1) = <[gameId := g2]> (activeGames e)).
  { subst turn g2. destruct (_ && _).
    - rewrite nextTurn_games. subst e1. simpl. by rewrite alter_insert_eq.
    - subst e1. simpl. done. }
  destruct (result turn e1) as [[]|err] eqn:Hr.
  - rewrite (bind_ok _ _ _ _ Hr).
    unfold bind at 1, gets. simpl. rewrite Hgm, lookup_insert_eq. simpl.
    destruct (js_lt _ _ && _).
    + exists (with_state (finish (Some "insufficient_players") JNull now) g2).
      split; [|by right].
      match goal with |- context [bind (endGame ?a ?b ?c ?d) ?k ?x] =>
        pose proof (endGame_games a b c d x) as Hen;
        destruct (result (endGame a b c d) x) eqn:Hre;
        [rewrite (bind_ok _ _ _ _ Hre)|rewrite (bind_throw _ _ _ _ Hre)] end;
        unfold ret; cbn [fst]; rewrite Hen, Hgm; simpl;
        by rewrite alter_insert_eq.
    + exists g2. split; [|by left]. simpl. done.
  - exists g2. split; [|by left]. rewrite (bind_throw _ _ _ _ Hr). done.
Qed.

Lemma removePlayer_absent gameId playerId now e g :
  activeGames e !! gameId = Some g ->
  list_find (fun p => p_id p = playerId) (st_players (g_state g)) = None ->
  removePlayer gameId playerId now e = (e, Throw PlayerNotFound).
Proof.
  intros Hg Hf. unfold removePlayer, bind, getGame, gets. simpl. by rewrite Hg, Hf.
Qed.
End Effects.

(** ** Invariants of every registered game *)

Section Invariants.
Context {GD Act : Type}.
Variable cfg : host_config.
Variable emptyObject : GD.
Variable hk : hooks GD Act.

Implicit Types (e : engine GD) (g : game GD) (gameId : string).

Lemma join_ok g p now :
  game_ok g ->
  length (st_players (g_state g)) < g_maxPlayers g ->
  pl_id p ∉ player_ids g ->
  game_ok (with_state (join p now) g).
Proof.
  intros [Hc Hp Ho Ht] Hroom Hnew. split; simpl; [| |done..].
  - rewrite length_app. simpl. lia.
  - unfold player_ids in *. simpl. rewrite fmap_app. simpl.
    apply NoDup_app. repeat split; [done| |apply NoDup_singleton].
    intros x Hx ->%list_elem_of_singleton. done.
Qed.

Lemma leave_ok g i now : game_ok g -> game_ok (with_state (leave i now) g).
Proof.
  intros [Hc Hp Ho Ht]. split; simpl; [| |done..].
  - pose proof (sublist_length _ _ (sublist_delete (st_players (g_state g)) i)). lia.
  - unfold player_ids in *. simpl.
    rewrite list_fmap_delete.
    eapply sublist_NoDup; [exact Hp|apply sublist_delete].
Qed.

Lemma advance_ok g : game_ok g -> game_ok (with_state advance g).
Proof.
  intros [Hc Hp Ho Ht]. split; simpl; [done..|].
  intros s Hs. by eapply next_holder_in.
Qed.

Lemma finish_ok g reason winner now :
  game_ok g -> game_ok (with_state (finish reason winner now) g).
Proof. intros [Hc Hp Ho Ht]. by split. Qed.

Lemma commit_ok g r now : game_ok g -> game_ok (with_state (commit r now) g).
Proof. intros [Hc Hp Ho Ht]. by split. Qed.

Lemma settle_ok g r now : game_ok g -> game_ok (with_state (settle r now) g).
Proof.
  intros Hg. unfold settle. destruct (r_gameEnded r).
  - by apply finish_ok.
  - by apply advance_ok.
Qed.

Lemma begin_ok g rnd now :
  game_ok g -> game_ok (with_state (fun _ => begin hk g rnd now) g).
Proof.
  intros [Hc Hp Ho Ht]. split; simpl; [done..| |].
  - rewrite generateTurnOrder_perm. done.
  - unfold js_index. intros s Hs.
    destruct (generateTurnOrder _ _ !! 0) as [x|] eqn:Hx; simplify_eq.
    by eapply list_elem_of_lookup_2.
Qed.

Lemma mark_ready_ok g playerId ready now :
  game_ok g -> game_ok (with_state (mark_ready playerId ready now) g).
Proof.
  intros [Hc Hp Ho Ht]. unfold with_state, mark_ready.
  destruct (list_find (fun p => p_id p = playerId) (st_players (g_state g)))
    as [[i p]|] eqn:Hf; [|by split].
  apply list_find_Some in Hf as (Hi & _ & _).
  split; simpl; [| |done..].
  - by rewrite length_insert.
  - unfold player_ids in *. simpl.
    rewrite list_fmap_insert. simpl.
    rewrite list_insert_id; [done|].
    by rewrite list_lookup_fmap, Hi.
Qed.

Lemma games_ok_alter e gameId (f : gstate GD -> gstate GD) :
  (forall g, game_ok g -> game_ok (with_state f g)) ->
  games_ok e ->
  map_Forall (fun _ g => game_ok g) (alter (with_state f) gameId (activeGames e)).
Proof.
  intros Hf He k g'. rewrite lookup_alter. case_decide; subst.
  - destruct (activeGames e !! k) as [g|] eqn:Hg; intros; simplify_eq/=.
    apply Hf. by apply (He k).
  - apply He.
Qed.

Lemma startGame_ok gameId rnd now e :
  games_ok e -> games_ok (after (startGame hk gameId rnd now) e).
Proof.
  intros He. unfold games_ok. rewrite startGame_games.
  destruct (activeGames e !! gameId) as [g|] eqn:Hg; [|done].
  destruct (can_start g); [|done].
  apply map_Forall_insert_2; [|done]. apply begin_ok. by apply (He gameId).
Qed.

Lemma checkGameStart_ok gameId rnd now e :
  games_ok e -> games_ok (after (checkGameStart hk gameId rnd now) e).
Proof.
  intros He. unfold after, checkGameStart, bind at 1, getGame, gets. simpl.
  destruct (activeGames e !! gameId) as [g|] eqn:Hg; [|done].
  destruct (_ && _); [|done].
  pose proof (startGame_ok gameId rnd now e He) as Hs.
  unfold after, bind in *. by destruct (startGame _ _ _ _ _) as [e' [r|err]].
Qed.

Lemma processAction_ok gameId playerId action now e :
  games_ok e -> games_ok (after (processAction hk gameId playerId action now) e).
Proof.
  intros He.
  destruct (activeGames e !! gameId) as [g|] eqn:Hg;
    [|unfold after; by rewrite processAction_not_found].
  destruct (decide (st_status (g_state g) = Active)) as [Hs|Hs];
    [|unfold after; by erewrite processAction_not_active].
  destruct (decide (playerId = st_currentTurn (g_state g))) as [Ht|Ht];
    [|unfold after; by erewrite processAction_not_your_turn].
  destruct (valid (validateAction hk g playerId action)) eqn:Hv;
    [|unfold after; by erewrite processAction_invalid].
  unfold games_ok. erewrite processAction_games by done.
  apply map_Forall_insert_2; [|done].
  apply (settle_ok (with_state (commit _ now) g)), commit_ok. by apply (He gameId).
Qed.

(** Every entry point preserves the invariants. *)
Lemma step_ok (o : op Act) now e :
  games_ok e -> games_ok (step cfg emptyObject hk o now e).
Proof.
  intros He. destruct o; simpl.
  - (* createGame *)
    unfold after, createGame, setGameTimeout, setTimeout, bind, modify, ret. simpl.
    apply map_Forall_insert_2; [|done].
    split; simpl; [lia|apply NoDup_nil_2|apply NoDup_nil_2|done].
  - (* addPlayer *)
    unfold games_ok. rewrite addPlayer_games.
    destruct (activeGames e !! gameId) as [g|] eqn:Hg; [|done].
    case_bool_decide as Hc; [|done]. destruct Hc.
    apply map_Forall_insert_2; [|done]. apply join_ok; [by apply (He gameId)|done..].
  - (* removePlayer *)
    destruct (activeGames e !! gameId) as [g|] eqn:Hg.
    + destruct (list_find (fun p => p_id p = playerId) (st_players (g_state g)))
        as [[i p]|] eqn:Hf.
      * destruct (removePlayer_games gameId playerId now e g i p Hg Hf)
          as (g3 & Hm & Hg3).
        unfold games_ok. rewrite Hm.
        apply map_Forall_insert_2; [|done].
        assert (game_ok (if bool_decide (st_status (g_state g) = Active)
                  && bool_decide (st_currentTurn (g_state g) = JId playerId)
                then with_state advance (with_state (leave i now) g)
                else with_state (leave i now) g)) as Hg2.
        { destruct (_ && _); [apply advance_ok|]; apply leave_ok; by apply (He gameId). }
        destruct Hg3 as [->| ->]; [done|]. by apply finish_ok.
      * unfold after. by erewrite removePlayer_absent.
    + unfold after, removePlayer, bind, getGame, gets. simpl. by rewrite Hg.
  - by apply startGame_ok.
  - by apply processAction_ok.
  - (* getGameState *)
    unfold after, getGameState, bind, getGame, gets. simpl.
    destruct (activeGames e !! gameId); [|done]. by destruct (truthy _).
  - (* endGame *)
    unfold games_ok. rewrite endGame_games.
    apply games_ok_alter; [|done]. intros g. apply finish_ok.
  - (* nextTurn *)
    unfold games_ok. rewrite nextTurn_games.
    apply games_ok_alter; [|done]. intros g. apply advance_ok.
  - (* handleTurnTimeout *)
    unfold games_ok. rewrite handleTurnTimeout_games.
    destruct (activeGames e !! gameId) as [g|] eqn:Hg; [|done].
    destruct (getDefaultAction _ _ _).
    + by apply processAction_ok.
    + apply map_Forall_insert_2; [|done]. apply advance_ok. by apply (He gameId).
  - (* handleGameTimeout *)
    unfold games_ok, handleGameTimeout. rewrite endGame_games.
    apply games_ok_alter; [|done]. intros g. apply finish_ok.
  - (* fire *)
    unfold after, fire, bind at 1, gets. simpl.
    destruct (timeouts e !! h) as [[cb d]|]; [|done].
    unfold bind, clearTimeout, modify. simpl.
    set (e1 := mkEngine _ _ _ _ _ _ _).
    assert (He1 : games_ok e1) by done.
    destruct cb as [gameId|gameId|gameId]; simpl.
    + unfold games_ok. fold (after (handleTurnTimeout hk gameId now) e1).
      rewrite handleTurnTimeout_games.
      destruct (activeGames e1 !! gameId) as [g|] eqn:Hg; [|done].
      destruct (getDefaultAction _ _ _).
      * by apply processAction_ok.
      * apply map_Forall_insert_2; [|done]. apply advance_ok. by apply (He1 gameId).
    + unfold games_ok, handleGameTimeout.
      fold (after (endGame gameId (Some "timeout") JUndefined now) e1).
      rewrite endGame_games.
      apply games_ok_alter; [|done]. intros g. apply finish_ok.
    + by apply map_Forall_delete.
  - (* handlePlayerReady *)
    unfold after, handlePlayerReady, try_catch. simpl.
    destruct (String.eqb gameId EmptyString); [done|].
    unfold bind at 1, getGame, gets. simpl.
    destruct (activeGames e !! gameId) as [g|] eqn:Hg; [|done].
    unfold bind, update_state, modify. simpl.
    apply (checkGameStart_ok gameId rnd now).
    apply games_ok_alter; [|done]. intros g'. apply mark_ready_ok.
Qed.

Lemma run_ok history e : games_ok e -> games_ok (run cfg emptyObject hk history e).
Proof.
  revert e. induction history as [|[o now] rest IH]; intros e He; simpl; [done|].
  apply IH. by apply step_ok.
Qed.

Lemma reachable_ok e : reachable cfg emptyObject hk e -> games_ok e.
Proof.
  intros [history ->]. apply run_ok. unfold games_ok. simpl. apply map_Forall_empty.
Qed.
End Invariants.


(** * The claims of the specification *)

Section Starting.
Context {GD Act : Type}.
Variable cfg : host_config.
Variable emptyObject : GD.
Variable hk : hooks GD Act.

Implicit Types (e : engine GD) (g : game GD) (gameId : string).

(** The part of the holder invariant that the engine does keep: in every
    reachable engine a holder that is an identifier is an entry of the
    game's turn order. *)
Lemma currentTurn_in_turnOrder e gameId g s :
  reachable cfg emptyObject hk e ->
  activeGames e !! gameId = Some g ->
  st_currentTurn (g_state g) = JId s ->
  s ∈ st_turnOrder (g_state g).
Proof.
  intros Hr Hg Hs. apply (reachable_ok cfg emptyObject hk) in Hr.
  by apply (ok_turn g (Hr gameId g Hg)).
Qed.

(** The first entry of a fresh turn order is a present participant. *)
Lemma first_holder_present (players : list participant) (rnd : nat -> draw) :
  players <> [] ->
  is_Some (find_player players (js_index (generateTurnOrder players rnd) 0)).
Proof.
  intros Hne. apply find_player_Some.
  pose proof (generateTurnOrder_perm players rnd) as Hperm.
  destruct (generateTurnOrder players rnd) as [|s order] eqn:Ho.
  - apply Permutation_nil_l in Hperm. symmetry in Hperm.
    by apply fmap_nil_inv in Hperm.
  - exists s. split; [done|]. rewrite <- Hperm. apply list_elem_of_here.
Qed.

(** Whenever [startGame] passes its guards on a game with a participant,
    it raises the [ReferenceError] of [setTurnTimer]. *)
Lemma startGame_raises gameId rnd now e g :
  activeGames e !! gameId = Some g ->
  st_status (g_state g) = Waiting ->
  js_ge (length (st_players (g_state g))) (c_minPlayers (g_config g)) = true ->
  st_players (g_state g) <> [] ->
  result (startGame hk gameId rnd now) e
  = Throw (ReferenceError "game is not defined").
Proof.
  intros Hg Hs Hmin Hne. rewrite startGame_result, Hg.
  rewrite bool_decide_eq_true_2 by done. simpl.
  assert (js_lt (length (st_players (g_state g))) (c_minPlayers (g_config g)) = false) as ->.
  { unfold js_ge, js_lt in *. destruct (c_minPlayers _); [|done].
    apply Nat.leb_le in Hmin. apply Nat.ltb_ge. done. }
  by destruct (first_holder_present _ rnd Hne) as [p ->].
Qed.
End Starting.

(** Claim C1 (fails on the code).  The specification requires a non-null
    [currentTurn] to be in [turnOrder] and among the present participants,
    rotation skipping departed identifiers.  In the engine reached by
    creating a three-seat game, adding A, B and C, starting it (turn order
    [B; C; A], holder B) and removing C, the accepted action of B makes
    [nextTurn] assign the departed C: the call returns normally, the holder C
    is in the turn order but not among the participants [A; B], and no turn
    timer is armed. *)
Theorem currentTurn_departed_after_rotation :
  let e := Scenario.after_leave in
  let call := processAction Scenario.base "g" (JId "B") 0 7 in
  reachable Scenario.cfg 0 Scenario.base e
  /\ Scenario.holder e = Some (JId "B")
  /\ Scenario.present e = Some ["A"; "B"]
  /\ result call e = Ok (mkResult 0 false None JUndefined)
  /\ Scenario.holder (after call e) = Some (JId "C")
  /\ Scenario.present (after call e) = Some ["A"; "B"]
  /\ st_turnOrder <$> Scenario.state_of (after call e) = Some ["B"; "C"; "A"]
  /\ turnTimers (after call e) = ∅.
Proof.
  split; [by exists Scenario.trio_history|].
  vm_compute. repeat split; reflexivity.
Qed.

(** Claim C2 (fails on the code).  The specification says [startGame] on a
    waiting game with enough players returns [true] and arms the turn timer.
    On the two-player lobby the guards pass, the state becomes active with
    holder B, and then [setTurnTimer] raises the [ReferenceError] for its
    unbound [game]: nothing is returned and no turn timer is installed. *)
Theorem startGame_raises_in_lobby :
  let call := startGame Scenario.base "g" Scenario.zeros 4 in
  (st_status <$> Scenario.state_of Scenario.lobby) = Some Waiting
  /\ Scenario.present Scenario.lobby = Some ["A"; "B"]
  /\ result call Scenario.lobby = Throw (ReferenceError "game is not defined")
  /\ (st_status <$> Scenario.state_of (after call Scenario.lobby)) = Some Active
  /\ Scenario.holder (after call Scenario.lobby) = Some (JId "B")
  /\ turnTimers (after call Scenario.lobby) = ∅
  /\ timeouts (after call Scenario.lobby) = {[0 := (CbGameTimeout "g", 300000%Z)]}.
Proof. vm_compute. repeat split; reflexivity. Qed.

(** ** Ending a game twice *)

(** Claim C3, counterexample.  The started two-player game is ended by its
    lifetime timeout at time 10 and [endGame] is called again, with the same
    reason and winner, at time 20.  The second call is not a no-op: it stamps
    [endedAt] again, so the terminal state after two calls differs from the
    terminal state after one, and a second [gameEnded] event is emitted. *)
Lemma endGame_twice_differs :
  let once := after (endGame "g" (Some "timeout") JNull 10) Scenario.started in
  let twice := after (endGame "g" (Some "timeout") JNull 20) once in
  terminal_state <$> Scenario.state_of once
    = Some (Ended, Some 10%Z, Some "timeout", JNull)
  /\ terminal_state <$> Scenario.state_of twice
    = Some (Ended, Some 20%Z, Some "timeout", JNull)
  /\ terminal_state <$> Scenario.state_of twice <> terminal_state <$> Scenario.state_of once
  /\ length (emitted twice) = S (length (emitted once)).
Proof.
  vm_compute. repeat split; try reflexivity. intros H. discriminate H.
Qed.

Section Ending.
Context {GD : Type}.
Implicit Types (e : engine GD) (g : game GD) (gameId : string).

Lemma finish_finish reason1 winner1 now1 reason2 winner2 now2 g :
  with_state (finish reason2 winner2 now2) (with_state (finish reason1 winner1 now1) g)
  = with_state (finish reason2 winner2 now2) g.
Proof. reflexivity. Qed.

(** What [endGame] hands to the persistence sink and to the host's timers,
    on any engine that has the game. *)
Lemma endGame_sinks gameId reason winner now e g :
  activeGames e !! gameId = Some g ->
  saved (after (endGame gameId reason winner now) e)
  = (g_id g, finish reason (default_null winner) now (g_state g)) :: saved e
  /\ nextHandle (after (endGame gameId reason winner now) e) = S (nextHandle e)
  /\ timeouts (after (endGame gameId reason winner now) e) !! nextHandle e
     = Some (CbPurge gameId, 60000%Z).
Proof.
  intros Hg.
  unfold after, endGame, clearGameTimers, clearTurnTimer, bind, getGame, gets,
    update_state, modify, clearTimeout, saveGameState, emit, setTimeout, ret.
  simpl. rewrite Hg. simpl.
  destruct (gameTimers e !! gameId); simpl;
    destruct (turnTimers e !! gameId); simpl;
    repeat split; apply lookup_insert_eq.
Qed.

(** With both timer slots of the game empty, [endGame] cancels nothing: it
    only adds the removal to the live timeouts. *)
Lemma endGame_idle_timeouts gameId reason winner now e g :
  activeGames e !! gameId = Some g ->
  gameTimers e !! gameId = None ->
  turnTimers e !! gameId = None ->
  timeouts (after (endGame gameId reason winner now) e)
  = <[nextHandle e := (CbPurge gameId, 60000%Z)]> (timeouts e).
Proof.
  intros Hg Hgt Htt.
  unfold after, endGame, clearGameTimers, clearTurnTimer, bind, getGame, gets,
    update_state, modify, clearTimeout, saveGameState, emit, setTimeout, ret.
  simpl. rewrite Hg. simpl. rewrite Hgt. simpl. rewrite Htt. reflexivity.
Qed.

(** Claim C3, as amended.  On a registered game a second [endGame] does
    not throw and the game stays ended, but the last call wins: the games
    after two calls are what the second call alone would have produced,
    with [endedAt], [endReason] and [winner] of the second call; both timers
    of the game stay cleared; and each call does its own side effects: each
    emits its own [gameEnded] event, each hands its own state to the
    persistence sink, and each schedules a removal of the game, so two
    removals are pending. *)
Theorem endGame_twice_last_wins e gameId g reason1 winner1 now1 reason2 winner2 now2 :
  activeGames e !! gameId = Some g ->
  let first := endGame gameId reason1 winner1 now1 in
  let second := endGame gameId reason2 winner2 now2 in
  result second (after first e) = Ok tt
  /\ activeGames (after second (after first e)) = activeGames (after second e)
  /\ (exists g', activeGames (after second (after first e)) !! gameId = Some g'
        /\ terminal_state (g_state g')
           = (Ended, Some now2, reason2, default_null winner2))
  /\ emitted (after second (after first e))
     = EvGameEnded gameId reason2 (default_null winner2)
         :: EvGameEnded gameId reason1 (default_null winner1) :: emitted e
  /\ gameTimers (after second (after first e)) !! gameId = None
  /\ turnTimers (after second (after first e)) !! gameId = None
  /\ saved (after second (after first e))
     = (g_id g, finish reason2 (default_null winner2) now2 (g_state g))
         :: (g_id g, finish reason1 (default_null winner1) now1 (g_state g)) :: saved e
  /\ timeouts (after second (after first e)) !! nextHandle e
     = Some (CbPurge gameId, 60000%Z)
  /\ timeouts (after second (after first e)) !! S (nextHandle e)
     = Some (CbPurge gameId, 60000%Z).
Proof.
  intros Hg first second.
  assert (Hg1 : activeGames (after first e) !! gameId
                = Some (with_state (finish reason1 (default_null winner1) now1) g)).
  { subst first. rewrite endGame_games, lookup_alter, decide_True, Hg by done. done. }
  assert (Hgames : activeGames (after second (after first e))
                   = <[gameId := with_state (finish reason2 (default_null winner2) now2) g]>
                       (activeGames e)).
  { subst second. rewrite endGame_games. subst first. rewrite endGame_games.
    rewrite (alter_present _ _ _ _ Hg), alter_insert_eq. by rewrite finish_finish. }
  repeat split.
  - subst second. by rewrite endGame_result, Hg1.
  - rewrite Hgames. subst second. rewrite endGame_games. symmetry. by apply alter_present.
  - eexists. rewrite Hgames, lookup_insert_eq. split; [done|]. reflexivity.
  - subst second. erewrite endGame_emitted by exact Hg1.
    subst first. by erewrite endGame_emitted.
  - subst second. by apply (endGame_timers _ _ _ _ _ _ Hg1).
  - subst second. by apply (endGame_timers _ _ _ _ _ _ Hg1).
  - subst first second.
    destruct (endGame_sinks gameId reason2 winner2 now2 _ _ Hg1) as (Hs2 & _ & _).
    destruct (endGame_sinks gameId reason1 winner1 now1 e g Hg) as (Hs1 & _ & _).
    rewrite Hs2, Hs1. reflexivity.
  - subst first second.
    destruct (endGame_timers gameId reason1 winner1 now1 e g Hg) as [Hgt Htt].
    destruct (endGame_sinks gameId reason1 winner1 now1 e g Hg) as (_ & Hn & Hp).
    rewrite (endGame_idle_timeouts _ _ _ _ _ _ Hg1 Hgt Htt).
    rewrite Hn, lookup_insert_ne by lia. exact Hp.
  - subst first second.
    destruct (endGame_timers gameId reason1 winner1 now1 e g Hg) as [Hgt Htt].
    destruct (endGame_sinks gameId reason1 winner1 now1 e g Hg) as (_ & Hn & _).
    rewrite (endGame_idle_timeouts _ _ _ _ _ _ Hg1 Hgt Htt).
    rewrite Hn. apply lookup_insert_eq.
Qed.
End Ending.

(** Witness for the amended C3 on the started two-player game. *)
Lemma endGame_twice_last_wins_witness :
  result (endGame "g" (Some "resigned") (JId "A") 20)
    (after (endGame "g" (Some "timeout") JUndefined 10) Scenario.started) = Ok tt.
Proof.
  refine (proj1 (endGame_twice_last_wins Scenario.started "g" _
                   (Some "timeout") JUndefined 10 (Some "resigned") (JId "A") 20 _)).
  vm_compute. reflexivity.
Defined.

(** ** Starting, acting out of turn, rotating *)

Section Turns.
Context {GD Act : Type}.
Variable cfg : host_config.
Variable emptyObject : GD.
Variable hk : hooks GD Act.

Implicit Types (e : engine GD) (g : game GD) (gameId : string).

(** Claim C4.  On a waiting game with at least [minPlayers] participants
    [startGame] leaves the game active with the same participants, a
    [turnOrder] that is a permutation of exactly their identifiers, and
    [currentTurn] equal to [turnOrder[0]].  (These writes are in place
    whether or not the call then raises in [startTurn].) *)
Theorem startGame_turnOrder_permutation e gameId g rnd now :
  activeGames e !! gameId = Some g ->
  st_status (g_state g) = Waiting ->
  js_ge (length (st_players (g_state g))) (c_minPlayers (g_config g)) = true ->
  exists g',
    activeGames (after (startGame hk gameId rnd now) e) !! gameId = Some g'
    /\ st_status (g_state g') = Active
    /\ st_players (g_state g') = st_players (g_state g)
    /\ st_turnOrder (g_state g') ≡ₚ player_ids g
    /\ length (st_turnOrder (g_state g')) = length (st_players (g_state g))
    /\ st_currentTurn (g_state g') = js_index (st_turnOrder (g_state g')) 0.
Proof.
  intros Hg Hs Hmin.
  exists (with_state (fun _ => begin hk g rnd now) g).
  rewrite startGame_games, Hg. unfold can_start.
  rewrite bool_decide_eq_true_2 by done.
  assert (js_lt (length (st_players (g_state g))) (c_minPlayers (g_config g)) = false) as ->.
  { unfold js_ge, js_lt in *. destruct (c_minPlayers _); [|done].
    apply Nat.leb_le in Hmin. apply Nat.ltb_ge. done. }
  simpl. rewrite lookup_insert_eq.
  repeat split.
  - apply generateTurnOrder_perm.
  - rewrite (Permutation_length (generateTurnOrder_perm _ rnd)).
    by rewrite length_fmap.
Qed.

(** Claim C5.  On an active game, [processAction] by anyone but the holder
    raises "Not your turn" and the whole engine, hence [gameData] and
    [currentTurn], is as before. *)
Theorem processAction_out_of_turn e gameId g playerId action now :
  activeGames e !! gameId = Some g ->
  st_status (g_state g) = Active ->
  playerId <> st_currentTurn (g_state g) ->
  processAction hk gameId playerId action now e = (e, Throw NotYourTurn).
Proof. apply processAction_not_your_turn. Qed.

Lemma rotate_holder e gameId g n :
  activeGames e !! gameId = Some g ->
  NoDup (st_turnOrder (g_state g)) ->
  st_turnOrder (g_state g) <> [] ->
  st_currentTurn (g_state g) = js_index (st_turnOrder (g_state g)) 0 ->
  exists g',
    activeGames (rotate gameId n e) !! gameId = Some g'
    /\ st_turnOrder (g_state g') = st_turnOrder (g_state g)
    /\ st_currentTurn (g_state g')
       = js_index (st_turnOrder (g_state g)) (n `mod` length (st_turnOrder (g_state g))).
Proof.
  intros Hg Hnd Hne H0.
  assert (Hk : 0 < length (st_turnOrder (g_state g))).
  { destruct (st_turnOrder (g_state g)); [done|simpl; lia]. }
  induction n as [|n (g' & Hg' & Ho & Hc)].
  - exists g. rewrite Nat.Div0.mod_0_l. done.
  - exists (with_state advance g'). unfold rotate in *. simpl.
    rewrite nextTurn_games, lookup_alter, decide_True, Hg' by done.
    repeat split; [done|]. simpl. rewrite Ho, Hc.
    destruct (lookup_lt_is_Some_2 (st_turnOrder (g_state g))
                (n `mod` length (st_turnOrder (g_state g)))) as [s Hs].
    { by apply Nat.mod_upper_bound, Nat.neq_0_lt_0. }
    unfold js_index at 1. rewrite Hs.
    rewrite (next_holder_lookup _ _ _ Hnd Hs).
    f_equal. rewrite Nat.Div0.add_mod_idemp_l. f_equal. lia.
Qed.

(** Claim C6.  In a reachable engine, for a game with a non-empty turn
    order of length [k] whose holder is [turnOrder[0]], after [n]
    consecutive [nextTurn] calls the turn order is the same and the holder
    is [turnOrder[n mod k]]. *)
Theorem nextTurn_n_times e gameId g n :
  reachable cfg emptyObject hk e ->
  activeGames e !! gameId = Some g ->
  st_turnOrder (g_state g) <> [] ->
  st_currentTurn (g_state g) = js_index (st_turnOrder (g_state g)) 0 ->
  exists g',
    activeGames (rotate gameId n e) !! gameId = Some g'
    /\ st_turnOrder (g_state g') = st_turnOrder (g_state g)
    /\ st_currentTurn (g_state g')
       = js_index (st_turnOrder (g_state g)) (n `mod` length (st_turnOrder (g_state g))).
Proof.
  intros Hr Hg Hne H0. apply rotate_holder; try done.
  apply (reachable_ok cfg emptyObject hk) in Hr.
  by apply (ok_order g (Hr gameId g Hg)).
Qed.
End Turns.

(** Witnesses on the two-player game: the lobby starts, A (not the holder)
    is refused, and five rotations from the start end on [turnOrder[1]]. *)
Lemma startGame_turnOrder_permutation_witness :
  exists g',
    activeGames (after (startGame Scenario.base "g" Scenario.zeros 4) Scenario.lobby) !! "g"
      = Some g'
    /\ st_turnOrder (g_state g') ≡ₚ ["A"; "B"]
    /\ st_currentTurn (g_state g') = js_index (st_turnOrder (g_state g')) 0.
Proof.
  destruct (activeGames Scenario.lobby !! "g") as [g|] eqn:Hg;
    [|vm_compute in Hg; discriminate Hg].
  assert (Hids : player_ids g = ["A"; "B"]).
  { vm_compute in Hg. injection Hg as <-. reflexivity. }
  destruct (startGame_turnOrder_permutation Scenario.base Scenario.lobby "g" g
              Scenario.zeros 4 Hg) as (g' & Hg' & _ & _ & Hperm & _ & Hcur).
  - vm_compute in Hg. injection Hg as <-. reflexivity.
  - vm_compute in Hg. injection Hg as <-. reflexivity.
  - exists g'. rewrite <- Hids. done.
Defined.

Lemma processAction_out_of_turn_witness :
  processAction Scenario.base "g" (JId "A") 0 5 Scenario.started
  = (Scenario.started, Throw NotYourTurn).
Proof.
  destruct (activeGames Scenario.started !! "g") as [g|] eqn:Hg;
    [|vm_compute in Hg; discriminate Hg].
  apply (processAction_out_of_turn Scenario.base Scenario.started "g" g (JId "A") 0 5 Hg).
  - vm_compute in Hg. injection Hg as <-. reflexivity.
  - vm_compute in Hg. injection Hg as <-. discriminate.
Defined.

Lemma nextTurn_n_times_witness :
  exists g',
    activeGames (rotate "g" 5 Scenario.started) !! "g" = Some g'
    /\ st_currentTurn (g_state g') = JId "A".
Proof.
  destruct (activeGames Scenario.started !! "g") as [g|] eqn:Hg;
    [|vm_compute in Hg; discriminate Hg].
  assert (Ho : st_turnOrder (g_state g) = ["B"; "A"]).
  { vm_compute in Hg. injection Hg as <-. reflexivity. }
  destruct (nextTurn_n_times Scenario.cfg 0 Scenario.base Scenario.started "g" g 5)
    as (g' & Hg' & _ & Hcur).
  - by exists Scenario.duel_history.
  - exact Hg.
  - rewrite Ho. discriminate.
  - vm_compute in Hg. injection Hg as <-. reflexivity.
  - exists g'. split; [exact Hg'|]. rewrite Hcur, Ho. reflexivity.
Defined.

(** ** Capacity *)

Section Capacity.
Context {GD Act : Type}.
Variable cfg : host_config.
Variable emptyObject : GD.
Variable hk : hooks GD Act.

Implicit Types (e : engine GD) (g : game GD) (gameId : string).

Lemma add_all_ok calls e : games_ok e -> games_ok (add_all hk calls e).
Proof.
  revert e. induction calls as [|[[[gameId p] rnd] now] rest IH]; intros e He; [done|].
  simpl. apply IH. apply (step_ok cfg emptyObject hk (OpAddPlayer gameId p rnd) now e He).
Qed.

(** Claim C7.  After any sequence of [addPlayer] calls on a reachable
    engine every game has at most [maxPlayers] participants; a call on a
    game at capacity raises "Game is full" and one with an identifier
    already present raises "Player already in game" (the capacity check
    comes first, so at capacity it is "Game is full"); in both cases the
    engine is unchanged. *)
Theorem addPlayer_respects_capacity :
  (forall e calls gameId g,
      reachable cfg emptyObject hk e ->
      activeGames (add_all hk calls e) !! gameId = Some g ->
      length (st_players (g_state g)) <= g_maxPlayers g)
  /\ (forall e gameId g p rnd now,
      activeGames e !! gameId = Some g ->
      g_maxPlayers g <= length (st_players (g_state g)) ->
      addPlayer hk gameId p rnd now e = (e, Throw GameFull))
  /\ (forall e gameId g p rnd now,
      activeGames e !! gameId = Some g ->
      pl_id p ∈ player_ids g ->
      exists err,
        addPlayer hk gameId p rnd now e = (e, Throw err)
        /\ (err = GameFull \/ err = DuplicatePlayer)
        /\ (length (st_players (g_state g)) < g_maxPlayers g -> err = DuplicatePlayer)).
Proof.
  repeat split.
  - intros e calls gameId g Hr Hg.
    apply (reachable_ok cfg emptyObject hk) in Hr.
    apply (add_all_ok calls) in Hr. by apply (ok_capacity g (Hr gameId g Hg)).
  - intros e gameId g p rnd now. apply addPlayer_full.
  - intros e gameId g p rnd now Hg Hdup.
    destruct (decide (length (st_players (g_state g)) < g_maxPlayers g)) as [Hroom|Hfull].
    + exists DuplicatePlayer. split; [by apply (addPlayer_duplicate hk _ _ _ _ _ g)|].
      split; [by right|done].
    + exists GameFull. split; [apply (addPlayer_full hk _ _ _ _ _ g); [done|lia]|].
      split; [by left|done].
Qed.
End Capacity.

(** Witness: a third player is refused by the full two-seat lobby, a second
    A is refused by the three-seat game she is in, and two more calls leave
    the lobby within its capacity. *)
Lemma addPlayer_respects_capacity_witness :
  addPlayer Scenario.base "g" Scenario.carol Scenario.zeros 9 Scenario.lobby
  = (Scenario.lobby, Throw GameFull)
  /\ addPlayer Scenario.base "g" Scenario.alice Scenario.zeros 9 Scenario.solo
    = (Scenario.solo, Throw DuplicatePlayer)
  /\ (forall g, activeGames (add_all Scenario.base
                               [("g", Scenario.carol, Scenario.zeros, 9%Z);
                                ("g", Scenario.alice, Scenario.zeros, 10%Z)]
                               Scenario.lobby) !! "g" = Some g ->
                length (st_players (g_state g)) <= g_maxPlayers g).
Proof.
  destruct (addPlayer_respects_capacity Scenario.cfg 0 Scenario.base)
    as (Hcap & Hfull & Hdup).
  split; [|split].
  - destruct (activeGames Scenario.lobby !! "g") as [g|] eqn:Hg;
      [|vm_compute in Hg; discriminate Hg].
    apply (Hfull Scenario.lobby "g" g Scenario.carol Scenario.zeros 9%Z Hg).
    vm_compute in Hg. injection Hg as <-. vm_compute. lia.
  - destruct (activeGames Scenario.solo !! "g") as [g|] eqn:Hg;
      [|vm_compute in Hg; discriminate Hg].
    destruct (Hdup Scenario.solo "g" g Scenario.alice Scenario.zeros 9%Z Hg)
      as (err & Hcall & _ & Herr).
    + vm_compute in Hg. injection Hg as <-. vm_compute. set_solver.
    + rewrite Hcall, Herr; [done|].
      vm_compute in Hg. injection Hg as <-. vm_compute. lia.
  - intros g. apply Hcap. by exists Scenario.lobby_history.
Defined.

(** ** Timer callbacks *)

Section Callbacks.
Context {GD Act : Type}.
Variable hk : hooks GD Act.

Implicit Types (e : engine GD) (g : game GD) (gameId : string).

(** [handleTurnTimeout] has no handler of its own: called on an active game
    whose default action the validation hook refuses, it raises the hook's
    error and leaves the engine unchanged. *)
Lemma handleTurnTimeout_refused e gameId g action now :
  activeGames e !! gameId = Some g ->
  st_status (g_state g) = Active ->
  getDefaultAction hk g (st_currentTurn (g_state g)) = Some action ->
  valid (validateAction hk g (st_currentTurn (g_state g)) action) = false ->
  handleTurnTimeout hk gameId now e
  = (e, Throw (Error (error (validateAction hk g (st_currentTurn (g_state g)) action)))).
Proof.
  intros Hg Hs Hd Hv.
  unfold handleTurnTimeout, bind at 1, getGame, gets. simpl. rewrite Hg, Hd.
  unfold bind. by rewrite (processAction_invalid hk _ _ _ _ _ g).
Qed.
End Callbacks.

(** ** The forced skip *)

Section Skip.
Context {GD Act : Type}.
Variable hk : hooks GD Act.

Implicit Types (e : engine GD) (g : game GD) (gameId : string).

Lemma next_holder_pair (order : list string) (x y : string) :
  order ≡ₚ [x; y] -> x <> y -> next_holder order (JId x) = JId y.
Proof.
  intros Hperm Hxy. symmetry in Hperm.
  apply Permutation_length_2_inv in Hperm as [-> | ->];
    unfold next_holder, indexOf; simpl.
  - rewrite decide_True by done. reflexivity.
  - rewrite decide_False by (intros [=]; done). simpl.
    rewrite decide_True by done. reflexivity.
Qed.

(** The body of the turn-timeout handler, were it ever called: in an active
    game whose participants and turn order are the two players [x] and [y],
    with [x] holding the turn and no default action for [x], it makes [y]
    the holder, leaves [gameData] and the participants as they were, and
    ends in the [ReferenceError] of re-arming the turn timer. *)
Lemma handleTurnTimeout_forced_skip e gameId g x y now :
  activeGames e !! gameId = Some g ->
  st_status (g_state g) = Active ->
  player_ids g ≡ₚ [x; y] ->
  st_turnOrder (g_state g) ≡ₚ [x; y] ->
  x <> y ->
  st_currentTurn (g_state g) = JId x ->
  getDefaultAction hk g (JId x) = None ->
  (exists g',
    activeGames (after (handleTurnTimeout hk gameId now) e) !! gameId = Some g'
    /\ st_currentTurn (g_state g') = JId y
    /\ st_gameData (g_state g') = st_gameData (g_state g)
    /\ st_players (g_state g') = st_players (g_state g)
    /\ st_status (g_state g') = Active)
  /\ result (handleTurnTimeout hk gameId now) e
     = Throw (ReferenceError "game is not defined").
Proof.
  intros Hg Hs Hids Horder Hxy Hcur Hd. simpl. split.
  - exists (with_state advance g).
    rewrite (handleTurnTimeout_skip_games hk gameId now e g Hg) by (by rewrite Hcur).
    rewrite lookup_insert_eq. repeat split; [|done].
    simpl. rewrite Hcur. by apply next_holder_pair.
  - unfold result, handleTurnTimeout, bind at 1, getGame, gets. simpl.
    rewrite Hg, Hcur, Hd.
    pose proof (nextTurn_result gameId e) as Hr. unfold result in Hr.
    rewrite Hr, Hg, Hcur, (next_holder_pair _ x y Horder Hxy).
    destruct (find_player (st_players (g_state g)) (JId y)) eqn:Hf; [done|].
    exfalso. rewrite find_player_None in Hf. apply (Hf y eq_refl).
    fold (player_ids g). rewrite Hids. set_solver.
Qed.
End Skip.

(** ** Reading the state *)

Section Reading.
Context {GD Act : Type}.
Variable hk : hooks GD Act.

Implicit Types (e : engine GD) (g : game GD) (gameId : string).

(** Claim C10.  [getGameState] leaves the engine exactly as it was and
    returns the viewer's view of the stored state.  At the level of
    objects: the returned object is at a fresh address, it holds the
    viewer's view, and every object that existed before the call, the
    game's own state object included, is untouched. *)
Theorem getGameState_frame :
  (forall e gameId playerId, after (getGameState hk gameId playerId) e = e)
  /\ (forall e gameId g playerId,
      activeGames e !! gameId = Some g ->
      result (getGameState hk gameId playerId) e = Ok (view hk playerId (g_state g)))
  /\ (forall registry store gameId playerId game_state o,
      registry !! gameId = Some game_state ->
      store !! game_state = Some o ->
      exists state,
        (getGameState_obj hk registry gameId playerId store).2 = Ok state
        /\ store !! state = None
        /\ state <> game_state
        /\ (getGameState_obj hk registry gameId playerId store).1 !! state
           = Some (view hk playerId o)
        /\ (getGameState_obj hk registry gameId playerId store).1 !! game_state = Some o
        /\ forall address c, store !! address = Some c ->
             (getGameState_obj hk registry gameId playerId store).1 !! address = Some c).
Proof.
  repeat split.
  - intros e gameId playerId.
    unfold after, getGameState, bind, getGame, gets. simpl.
    destruct (activeGames e !! gameId); [|done]. by destruct (truthy _).
  - intros e gameId g playerId Hg.
    unfold result, getGameState, view, bind, getGame, gets. simpl. rewrite Hg.
    by destruct (truthy _).
  - intros registry store gameId playerId game_state o Hr Ho.
    assert (Hfresh : store !! fresh (dom store) = None).
    { apply not_elem_of_dom, is_fresh. }
    assert (Hother : forall address c, store !! address = Some c ->
              address <> fresh (dom store)).
    { intros address c Hc ->. by rewrite Hfresh in Hc. }
    exists (fresh (dom store)).
    unfold getGameState_obj, spread, view. rewrite Hr, Ho.
    destruct (truthy (default_null playerId)); simpl.
    + repeat split; [done|by intros <-; rewrite Hfresh in Ho| | |].
      * by rewrite lookup_alter, decide_True, lookup_insert_eq.
      * rewrite lookup_alter_ne, lookup_insert_ne; [done|..];
          apply not_eq_sym, (Hother _ _ Ho).
      * intros address c Hc.
        rewrite lookup_alter_ne, lookup_insert_ne; [done|..];
          apply not_eq_sym, (Hother _ _ Hc).
    + repeat split; [done|by intros <-; rewrite Hfresh in Ho| | |].
      * by rewrite lookup_insert_eq.
      * rewrite lookup_insert_ne; [done|]. apply not_eq_sym, (Hother _ _ Ho).
      * intros address c Hc.
        rewrite lookup_insert_ne; [done|]. apply not_eq_sym, (Hother _ _ Hc).
Qed.
End Reading.

(** Witness: a game type that hides the data from viewers; the stored
    object at address 5 keeps its data while A is handed a masked copy. *)
Lemma getGameState_frame_witness :
  after (getGameState Scenario.masking "g" (JId "A")) Scenario.started = Scenario.started
  /\ exists state,
      (getGameState_obj Scenario.masking {["g" := 5]} "g" (JId "A") {[5 := Scenario.secret_state]}).2 = Ok state
      /\ (getGameState_obj Scenario.masking {["g" := 5]} "g" (JId "A") {[5 := Scenario.secret_state]}).1 !! state
         = Some (set_gameData 0 Scenario.secret_state)
      /\ (getGameState_obj Scenario.masking {["g" := 5]} "g" (JId "A") {[5 := Scenario.secret_state]}).1 !! 5
         = Some Scenario.secret_state.
Proof.
  destruct (getGameState_frame Scenario.masking) as (Hengine & _ & Hobjects).
  split; [apply Hengine|].
  destruct (Hobjects {["g" := 5]} {[5 := Scenario.secret_state]} "g" (JId "A") 5 Scenario.secret_state)
    as (state & Hres & _ & _ & Hcopy & Hown & _).
  - reflexivity.
  - reflexivity.
  - exists state. split; [exact Hres|split; [exact Hcopy|exact Hown]].
Defined.

(** * Further properties of the engine *)

(** ** Predicates on games kept by every entry point *)

Section Keeping.
Context {GD Act : Type}.
Variable cfg : host_config.
Variable emptyObject : GD.
Variable hk : hooks GD Act.
Variable P : string -> game GD -> Prop.
Hypothesis closed : game_closed hk P.

Implicit Types (e : engine GD) (g : game GD) (gameId : string).

Lemma all_games_alter e gameId (f : gstate GD -> gstate GD) :
  (forall g, P gameId g -> P gameId (with_state f g)) ->
  all_games P e ->
  map_Forall P (alter (with_state f) gameId (activeGames e)).
Proof.
  intros Hf He k g'. rewrite lookup_alter. case_decide; subst.
  - destruct (activeGames e !! k) as [g|] eqn:Hg; intros; simplify_eq/=.
    apply Hf. by apply (He k).
  - apply He.
Qed.

Lemma startGame_keeps gameId rnd now e :
  all_games P e -> all_games P (after (startGame hk gameId rnd now) e).
Proof.
  intros He. unfold all_games. rewrite startGame_games.
  destruct (activeGames e !! gameId) as [g|] eqn:Hg; [|done].
  destruct (can_start g) eqn:Hc; [|done].
  apply map_Forall_insert_2; [|done].
  apply (gc_begin hk P closed); [by apply (He gameId)|done].
Qed.

Lemma checkGameStart_keeps gameId rnd now e :
  all_games P e -> all_games P (after (checkGameStart hk gameId rnd now) e).
Proof.
  intros He. unfold after, checkGameStart, bind at 1, getGame, gets. simpl.
  destruct (activeGames e !! gameId) as [g|] eqn:Hg; [|done].
  destruct (_ && _); [|done].
  pose proof (startGame_keeps gameId rnd now e He) as Hs.
  unfold after, bind in *. by destruct (startGame _ _ _ _ _) as [e' [r|err]].
Qed.

Lemma processAction_keeps gameId playerId action now e :
  all_games P e -> all_games P (after (processAction hk gameId playerId action now) e).
Proof.
  intros He.
  destruct (activeGames e !! gameId) as [g|] eqn:Hg;
    [|unfold after; by rewrite processAction_not_found].
  destruct (decide (st_status (g_state g) = Active)) as [Hs|Hs];
    [|unfold after; by erewrite processAction_not_active].
  destruct (decide (playerId = st_currentTurn (g_state g))) as [Ht|Ht];
    [|unfold after; by erewrite processAction_not_your_turn].
  destruct (valid (validateAction hk g playerId action)) eqn:Hv;
    [|unfold after; by erewrite processAction_invalid].
  unfold all_games. erewrite processAction_games by done.
  apply map_Forall_insert_2; [|done].
  pose proof (gc_commit hk P closed gameId g (executeAction hk g playerId action) now
                (He gameId g Hg) Hs) as Hc.
  unfold settle. destruct (r_gameEnded _).
  - apply (gc_finish hk P closed gameId (with_state (commit _ now) g)). exact Hc.
  - apply (gc_advance hk P closed gameId (with_state (commit _ now) g)). exact Hc.
Qed.

Lemma handleTurnTimeout_keeps gameId now e :
  all_games P e -> all_games P (after (handleTurnTimeout hk gameId now) e).
Proof.
  intros He. unfold all_games. rewrite handleTurnTimeout_games.
  destruct (activeGames e !! gameId) as [g|] eqn:Hg; [|done].
  destruct (getDefaultAction _ _ _).
  - by apply processAction_keeps.
  - apply map_Forall_insert_2; [|done].
    apply (gc_advance hk P closed). by apply (He gameId).
Qed.

Lemma endGame_keeps gameId reason winner now e :
  all_games P e -> all_games P (after (endGame gameId reason winner now) e).
Proof.
  intros He. unfold all_games. rewrite endGame_games.
  apply all_games_alter; [|done]. intros g. apply (gc_finish hk P closed).
Qed.

Lemma removePlayer_keeps gameId playerId now e :
  all_games P e -> all_games P (after (removePlayer gameId playerId now) e).
Proof.
  intros He.
  destruct (activeGames e !! gameId) as [g|] eqn:Hg.
  - destruct (list_find (fun p => p_id p = playerId) (st_players (g_state g)))
      as [[i p]|] eqn:Hf.
    + destruct (removePlayer_games gameId playerId now e g i p Hg Hf)
        as (g3 & Hm & Hg3).
      unfold all_games. rewrite Hm.
      apply map_Forall_insert_2; [|done].
      assert (P gameId (if bool_decide (st_status (g_state g) = Active)
                && bool_decide (st_currentTurn (g_state g) = JId playerId)
              then with_state advance (with_state (leave i now) g)
              else with_state (leave i now) g)) as Hg2.
      { destruct (_ && _); [apply (gc_advance hk P closed)|];
          apply (gc_leave hk P closed); by apply (He gameId). }
      destruct Hg3 as [->| ->]; [done|].
      by apply (gc_finish hk P closed gameId _ (Some "insufficient_players") JNull).
    + unfold after. by erewrite removePlayer_absent.
  - unfold after, removePlayer, bind, getGame, gets. simpl. by rewrite Hg.
Qed.

(** Every entry point keeps a closed predicate, provided a game that the
    call creates satisfies it. *)
Lemma step_keeps (o : op Act) now e :
  (forall gameId gameConfig, o = OpCreate gameId gameConfig ->
     P gameId (new_game cfg emptyObject gameId gameConfig now)) ->
  all_games P e -> all_games P (step cfg emptyObject hk o now e).
Proof.
  intros Hnew He. destruct o; simpl.
  - unfold after, createGame, setGameTimeout, setTimeout, bind, modify, ret. simpl.
    apply map_Forall_insert_2; [|done]. by apply Hnew.
  - unfold all_games. rewrite addPlayer_games.
    destruct (activeGames e !! gameId) as [g|] eqn:Hg; [|done].
    case_bool_decide as Hc; [|done]. destruct Hc.
    apply map_Forall_insert_2; [|done].
    apply (gc_join hk P closed); [by apply (He gameId)|done..].
  - by apply removePlayer_keeps.
  - by apply startGame_keeps.
  - by apply processAction_keeps.
  - unfold after, getGameState, bind, getGame, gets. simpl.
    destruct (activeGames e !! gameId); [|done]. by destruct (truthy _).
  - by apply endGame_keeps.
  - unfold all_games. rewrite nextTurn_games.
    apply all_games_alter; [|done]. intros g. apply (gc_advance hk P closed).
  - by apply handleTurnTimeout_keeps.
  - by apply endGame_keeps.
  - unfold after, fire, bind at 1, gets. simpl.
    destruct (timeouts e !! h) as [[cb d]|]; [|done].
    unfold bind, clearTimeout, modify. simpl.
    set (e1 := mkEngine _ _ _ _ _ _ _).
    assert (He1 : all_games P e1) by done.
    destruct cb as [gameId|gameId|gameId]; simpl.
    + by apply handleTurnTimeout_keeps.
    + by apply endGame_keeps.
    + by apply map_Forall_delete.
  - unfold after, handlePlayerReady, try_catch. simpl.
    destruct (String.eqb gameId EmptyString); [done|].
    unfold bind at 1, getGame, gets. simpl.
    destruct (activeGames e !! gameId) as [g|] eqn:Hg; [|done].
    unfold bind, update_state, modify. simpl.
    apply (checkGameStart_keeps gameId rnd now).
    apply all_games_alter; [|done]. intros g'. apply (gc_ready hk P closed).
Qed.

Lemma run_keeps history e :
  (forall o now gameId gameConfig, (o, now) ∈ history -> o = OpCreate gameId gameConfig ->
     P gameId (new_game cfg emptyObject gameId gameConfig now)) ->
  all_games P e -> all_games P (run cfg emptyObject hk history e).
Proof.
  revert e. induction history as [|[o now] rest IH]; intros e Hnew He; simpl; [done|].
  apply IH.
  - intros o' now' gameId gameConfig Hin. apply Hnew. by apply list_elem_of_further.
  - apply step_keeps; [|done]. intros gameId gameConfig. apply Hnew, list_elem_of_here.
Qed.
End Keeping.

(** ** Predicates on the engine kept by every entry point *)

Section Hosting.
Context {GD Act : Type}.
Variable cfg : host_config.
Variable emptyObject : GD.
Variable hk : hooks GD Act.
Variable I : engine GD -> Prop.
Hypothesis stable : host_stable cfg I.

Implicit Types (e : engine GD) (g : game GD) (gameId : string).

Lemma keeps_bind {A B} (c : M GD A) (k : A -> M GD B) :
  keeps I c -> (forall a, keeps I (k a)) -> keeps I (bind c k).
Proof.
  intros Hc Hk e He. specialize (Hc e He). unfold after, bind in *.
  destruct (c e) as [e' [a|err]]; simpl in *; [by apply Hk|done].
Qed.

Lemma keeps_ret {A} (a : A) : keeps I (ret a).
Proof. by intros e He. Qed.

Lemma keeps_throw {A} err : keeps I (@throw GD A err).
Proof. by intros e He. Qed.

Lemma keeps_gets {A} (f : engine GD -> A) : keeps I (gets f).
Proof. by intros e He. Qed.

Lemma keeps_update_state gameId f : keeps I (update_state gameId f).
Proof. intros e He. apply (hs_games cfg I stable), He. Qed.

Lemma keeps_clearTurnTimer gameId : keeps I (clearTurnTimer gameId).
Proof.
  unfold clearTurnTimer. apply keeps_bind; [apply keeps_gets|]. intros [h|].
  - apply keeps_bind; [intros e; apply (hs_clear cfg I stable)|].
    intros ? e. apply (hs_drop_turn cfg I stable).
  - apply keeps_ret.
Qed.

Lemma keeps_setTurnTimer gameId : keeps I (setTurnTimer gameId).
Proof.
  unfold setTurnTimer. apply keeps_bind; [apply keeps_clearTurnTimer|].
  intros ?. apply keeps_throw.
Qed.

Lemma keeps_startTurn gameId : keeps I (startTurn gameId).
Proof.
  unfold startTurn, getGame. apply keeps_bind; [apply keeps_gets|]. intros [g|].
  - destruct (find_player _ _); [|apply keeps_ret].
    apply keeps_bind; [apply keeps_setTurnTimer|].
    intros ? e. apply (hs_emit cfg I stable).
  - apply keeps_ret.
Qed.

Lemma keeps_nextTurn gameId : keeps I (nextTurn gameId).
Proof.
  unfold nextTurn, getGame. apply keeps_bind; [apply keeps_gets|]. intros [g|].
  - apply keeps_bind; [apply keeps_clearTurnTimer|]. intros ?.
    apply keeps_bind; [apply keeps_update_state|]. intros ?. apply keeps_startTurn.
  - apply keeps_ret.
Qed.

Lemma keeps_clearGameTimers gameId : keeps I (clearGameTimers gameId).
Proof.
  unfold clearGameTimers.
  apply keeps_bind; [apply keeps_gets|]. intros [h|];
    (apply keeps_bind; [|intros ?; apply keeps_clearTurnTimer]).
  - apply keeps_bind; [intros e; apply (hs_clear cfg I stable)|].
    intros ? e. apply (hs_drop_game cfg I stable).
  - apply keeps_ret.
Qed.

Lemma keeps_endGame gameId reason winner now :
  keeps I (endGame gameId reason winner now).
Proof.
  unfold endGame, getGame. apply keeps_bind; [apply keeps_gets|]. intros [g|].
  - apply keeps_bind; [apply keeps_update_state|]. intros ?.
    apply keeps_bind; [apply keeps_clearGameTimers|]. intros ?.
    apply keeps_bind; [intros e; apply (hs_save cfg I stable)|]. intros ?.
    apply keeps_bind; [intros e; apply (hs_emit cfg I stable)|]. intros ?.
    apply keeps_bind; [|intros ?; apply keeps_ret].
    intros e. by apply (hs_schedule cfg I stable).
  - apply keeps_throw.
Qed.

Lemma keeps_startGame gameId rnd now : keeps I (startGame hk gameId rnd now).
Proof.
  unfold startGame, getGame. apply keeps_bind; [apply keeps_gets|]. intros [g|].
  - destruct (negb _); [apply keeps_throw|].
    destruct (js_lt _ _); [apply keeps_throw|].
    apply keeps_bind; [apply keeps_update_state|]. intros ?.
    apply keeps_bind; [apply keeps_startTurn|]. intros ?. apply keeps_ret.
  - apply keeps_throw.
Qed.

Lemma keeps_checkGameStart gameId rnd now : keeps I (checkGameStart hk gameId rnd now).
Proof.
  unfold checkGameStart, getGame. apply keeps_bind; [apply keeps_gets|]. intros [g|].
  - destruct (_ && _); [|apply keeps_ret].
    apply keeps_bind; [apply keeps_startGame|]. intros ?. apply keeps_ret.
  - apply keeps_ret.
Qed.

Lemma keeps_addPlayer gameId p rnd now : keeps I (addPlayer hk gameId p rnd now).
Proof.
  unfold addPlayer, getGame. apply keeps_bind; [apply keeps_gets|]. intros [g|].
  - destruct (_ <=? _); [apply keeps_throw|].
    destruct (is_Some_b _); [apply keeps_throw|].
    apply keeps_bind; [apply keeps_update_state|]. intros ?.
    apply keeps_bind; [|intros ?; apply keeps_ret].
    destruct (js_ge _ _); [apply keeps_checkGameStart|apply keeps_ret].
  - apply keeps_throw.
Qed.

Lemma keeps_removePlayer gameId playerId now : keeps I (removePlayer gameId playerId now).
Proof.
  unfold removePlayer, getGame. apply keeps_bind; [apply keeps_gets|]. intros [g|].
  - destruct (list_find _ _) as [[i p]|]; [|apply keeps_throw].
    apply keeps_bind; [apply keeps_update_state|]. intros ?.
    apply keeps_bind; [destruct (_ && _); [apply keeps_nextTurn|apply keeps_ret]|].
    intros ?. apply keeps_bind; [apply keeps_gets|]. intros og'.
    apply keeps_bind; [|intros ?; apply keeps_ret].
    destruct (_ && _); [apply keeps_endGame|apply keeps_ret].
  - apply keeps_throw.
Qed.

Lemma keeps_processAction gameId playerId action now :
  keeps I (processAction hk gameId playerId action now).
Proof.
  unfold processAction, getGame. apply keeps_bind; [apply keeps_gets|]. intros [g|].
  - destruct (negb _); [apply keeps_throw|].
    destruct (negb _); [apply keeps_throw|].
    destruct (negb _); [apply keeps_throw|].
    apply keeps_bind; [apply keeps_update_state|]. intros ?.
    apply keeps_bind; [|intros ?; apply keeps_ret].
    destruct (r_gameEnded _); [apply keeps_endGame|apply keeps_nextTurn].
  - apply keeps_throw.
Qed.

Lemma keeps_handleTurnTimeout gameId now : keeps I (handleTurnTimeout hk gameId now).
Proof.
  unfold handleTurnTimeout, getGame. apply keeps_bind; [apply keeps_gets|]. intros [g|].
  - destruct (getDefaultAction _ _ _); [|apply keeps_nextTurn].
    apply keeps_bind; [apply keeps_processAction|]. intros ?. apply keeps_ret.
  - apply keeps_ret.
Qed.

Lemma keeps_getGameState gameId playerId : keeps I (getGameState hk gameId playerId).
Proof.
  unfold getGameState, getGame. apply keeps_bind; [apply keeps_gets|]. intros [g|].
  - destruct (truthy _); apply keeps_ret.
  - apply keeps_throw.
Qed.

Lemma keeps_run_callback cb now : keeps I (run_callback hk cb now).
Proof.
  destruct cb; simpl.
  - apply keeps_handleTurnTimeout.
  - apply keeps_endGame.
  - intros e. apply (hs_games cfg I stable).
Qed.

Lemma keeps_fire h now : keeps I (fire hk h now).
Proof.
  unfold fire. apply keeps_bind; [apply keeps_gets|]. intros [[cb d]|].
  - apply keeps_bind; [intros e; apply (hs_clear cfg I stable)|].
    intros ?. apply keeps_run_callback.
  - apply keeps_ret.
Qed.

Lemma keeps_handlePlayerReady gameId playerId ready rnd now :
  keeps I (handlePlayerReady hk gameId playerId ready rnd now).
Proof.
  unfold handlePlayerReady, try_catch. intros e He.
  change (I (after (if String.eqb gameId EmptyString then ret tt
                    else bind (getGame gameId) (fun og =>
                      match og with
                      | None => ret tt
                      | Some _ =>
                          bind (update_state gameId (mark_ready playerId ready now))
                            (fun _ => checkGameStart hk gameId rnd now)
                      end)) e)).
  revert e He. change (keeps I (if String.eqb gameId EmptyString then ret tt
                    else bind (getGame gameId) (fun og =>
                      match og with
                      | None => ret tt
                      | Some _ =>
                          bind (update_state gameId (mark_ready playerId ready now))
                            (fun _ => checkGameStart hk gameId rnd now)
                      end))).
  destruct (String.eqb _ _); [apply keeps_ret|].
  unfold getGame. apply keeps_bind; [apply keeps_gets|]. intros [g|]; [|apply keeps_ret].
  apply keeps_bind; [apply keeps_update_state|]. intros ?. apply keeps_checkGameStart.
Qed.

Lemma keeps_createGame gameId gameConfig now :
  keeps I (createGame cfg emptyObject gameId gameConfig now).
Proof.
  unfold createGame.
  apply keeps_bind; [intros e; apply (hs_games cfg I stable)|]. intros ?.
  apply keeps_bind; [intros e; apply (hs_arm cfg I stable)|]. intros ?. apply keeps_ret.
Qed.

(** Every entry point keeps a stable predicate. *)
Lemma step_stable (o : op Act) now e : I e -> I (step cfg emptyObject hk o now e).
Proof.
  destruct o; simpl.
  - apply keeps_createGame.
  - apply keeps_addPlayer.
  - apply keeps_removePlayer.
  - apply keeps_startGame.
  - apply keeps_processAction.
  - apply keeps_getGameState.
  - apply keeps_endGame.
  - apply keeps_nextTurn.
  - apply keeps_handleTurnTimeout.
  - apply keeps_endGame.
  - apply keeps_fire.
  - apply keeps_handlePlayerReady.
Qed.

Lemma run_stable history e : I e -> I (run cfg emptyObject hk history e).
Proof.
  revert e. induction history as [|[o now] rest IH]; intros e He; simpl; [done|].
  apply IH. by apply step_stable.
Qed.
End Hosting.

(** ** Timers in reachable engines *)

Section Timers.
Context {GD Act : Type}.
Variable cfg : host_config.
Variable emptyObject : GD.
Variable hk : hooks GD Act.

Implicit Types (e : engine GD) (g : game GD) (gameId : string).

Lemma no_turn_timer_stable : host_stable cfg (@no_turn_timer GD).
Proof.
  split; unfold no_turn_timer, after; simpl; try done.
  - intros h e [Ht Hl]. split; [done|]. intros h' cb d Hh'.
    apply lookup_delete_Some in Hh' as [_ Hh']. by eapply Hl.
  - intros gameId e [Ht Hl]. split; [|done]. rewrite Ht. apply delete_empty.
  - intros cb d e Hcb [Ht Hl]. split; [done|]. intros h' cb' d' Hh'.
    apply lookup_insert_Some in Hh' as [[_ Heq]|[_ Hh']]; [by simplify_eq|by eapply Hl].
  - intros gameId e [Ht Hl]. split; [done|]. intros h' cb' d' Hh'.
    apply lookup_insert_Some in Hh' as [[_ Heq]|[_ Hh']]; [by simplify_eq|by eapply Hl].
Qed.

Lemma handles_fresh_stable : host_stable cfg (@handles_fresh GD).
Proof.
  split; unfold handles_fresh, after; simpl; try done.
  - intros h e [Hl Hg]. split; [|done]. intros h' x Hh'.
    apply lookup_delete_Some in Hh' as [_ Hh']. by eapply Hl.
  - intros gameId e [Hl Hg]. split; [done|]. intros k h Hk.
    apply lookup_delete_Some in Hk as [_ Hk]. by eapply Hg.
  - intros cb d e _ [Hl Hg]. split.
    + intros h' x Hh'.
      apply lookup_insert_Some in Hh' as [[<- _]|[_ Hh']]; [lia|].
      specialize (Hl _ _ Hh'). lia.
    + intros k h Hk. specialize (Hg _ _ Hk). lia.
  - intros gameId e [Hl Hg]. split.
    + intros h' x Hh'.
      apply lookup_insert_Some in Hh' as [[<- _]|[_ Hh']]; [lia|].
      specialize (Hl _ _ Hh'). lia.
    + intros k h Hk.
      apply lookup_insert_Some in Hk as [[_ <-]|[_ Hk]]; [lia|].
      specialize (Hg _ _ Hk). lia.
Qed.

Lemma reachable_handles_fresh e : reachable cfg emptyObject hk e -> handles_fresh e.
Proof.
  intros [history ->]. apply (run_stable cfg emptyObject hk _ handles_fresh_stable).
  split; simpl; intros ? ?; by rewrite lookup_empty.
Qed.

Lemma reachable_no_turn_timer e : reachable cfg emptyObject hk e -> no_turn_timer e.
Proof.
  intros [history ->]. apply (run_stable cfg emptyObject hk _ no_turn_timer_stable).
  split; [done|]. intros h cb d. simpl. by rewrite lookup_empty.
Qed.

(** Property X1.  The engine never has a turn timer: in every reachable
    engine the [turnTimers] map is empty and no live timeout carries the
    turn-timeout closure, because [setTurnTimer] raises before it calls
    [setTimeout]. *)
Theorem turn_timer_never_armed e :
  reachable cfg emptyObject hk e ->
  turnTimers e = ∅
  /\ forall h cb delay gameId,
       timeouts e !! h = Some (cb, delay) -> cb <> CbTurnTimeout gameId.
Proof.
  intros [Ht Hl]%reachable_no_turn_timer.
  split; [done|]. intros h cb d gameId Hh. by eapply Hl.
Qed.
End Timers.

(** Witness: the started two-player game has no turn timer. *)
Lemma turn_timer_never_armed_witness : turnTimers Scenario.started = ∅.
Proof.
  refine (proj1 (turn_timer_never_armed Scenario.cfg 0 Scenario.base Scenario.started _)).
  by exists Scenario.duel_history.
Defined.

(** ** The life of a game object *)

Section Life.
Context {GD Act : Type}.
Variable cfg : host_config.
Variable emptyObject : GD.
Variable hk : hooks GD Act.

Implicit Types (e : engine GD) (g : game GD) (gameId : string).

Lemma can_start_waiting g : can_start g = true -> st_status (g_state g) = Waiting.
Proof.
  unfold can_start. intros [Hs _]%andb_prop. by apply bool_decide_eq_true in Hs.
Qed.

Lemma later_refl g : later g g.
Proof. by split. Qed.

Lemma later_trans g1 g2 g3 : later g1 g2 -> later g2 g3 -> later g1 g3.
Proof.
  intros [Hi1 Hc1 Hm1 Ht1 Hcr1 Hs1 Ho1] [Hi2 Hc2 Hm2 Ht2 Hcr2 Hs2 Ho2].
  split; try congruence; [lia|].
  intros Hw. destruct (Ho1 Hw) as [Ho Hst].
  assert (st_status (g_state g2) <> Waiting) as Hw2.
  { intros Heq. rewrite Heq in Hs1. destruct (st_status (g_state g1)); simpl in *; [done|lia..]. }
  destruct (Ho2 Hw2). split; congruence.
Qed.

Lemma later_closed g0 gameId :
  game_closed hk (fun k g => k = gameId -> later g0 g).
Proof.
  split; intros k g; intros; subst;
    (eapply later_trans; [by eauto|]); split; simpl; try done.
  - destruct (st_status (g_state g)); simpl; lia.
  - match goal with H : can_start g = true |- _ => apply can_start_waiting in H as -> end.
    simpl. lia.
  - match goal with H : can_start g = true |- _ => apply can_start_waiting in H end.
    done.
  - unfold mark_ready. by destruct (list_find _ _) as [[]|].
  - unfold mark_ready. by destruct (list_find _ _) as [[]|].
  - unfold mark_ready. by destruct (list_find _ _) as [[]|].
Qed.

(** Across any calls that do not register a game under the same identifier
    again, a registered game object only moves forward. *)
Lemma run_later history e gameId g g' :
  (forall o now, (o, now) ∈ history -> ~ creates gameId o) ->
  activeGames e !! gameId = Some g ->
  activeGames (run cfg emptyObject hk history e) !! gameId = Some g' ->
  later g g'.
Proof.
  intros Hno Hg Hg'.
  assert (all_games (fun k x => k = gameId -> later g x)
            (run cfg emptyObject hk history e)) as Hall.
  { apply run_keeps; [apply later_closed| |].
    - intros o now k gameConfig Hin -> ->. exfalso.
      apply (Hno _ _ Hin). by exists gameConfig.
    - intros k x Hx ->. rewrite Hg in Hx. simplify_eq. apply later_refl. }
  by apply (Hall gameId g' Hg').
Qed.

(** Property X2.  The status of a game never moves back: across calls that
    do not create the game anew, a registered game that was active is active
    or ended, and one that was ended is ended. *)
Theorem status_never_moves_back history e gameId g g' :
  (forall o now, (o, now) ∈ history -> ~ creates gameId o) ->
  activeGames e !! gameId = Some g ->
  activeGames (run cfg emptyObject hk history e) !! gameId = Some g' ->
  status_rank (st_status (g_state g)) <= status_rank (st_status (g_state g'))
  /\ (st_status (g_state g) = Ended -> st_status (g_state g') = Ended)
  /\ (st_status (g_state g') = Waiting -> st_status (g_state g) = Waiting).
Proof.
  intros Hno Hg Hg'. pose proof (lt_status _ _ (run_later _ _ _ _ _ Hno Hg Hg')) as Hle.
  split; [done|].
  destruct (st_status (g_state g)), (st_status (g_state g')); simpl in *;
    split; intros; try done; lia.
Qed.

(** Property X3.  What [createGame] fixed stays fixed: across calls that do
    not create the game anew, its identifier, configuration, capacity, turn
    time limit and creation time are unchanged. *)
Theorem creation_parameters_are_fixed history e gameId g g' :
  (forall o now, (o, now) ∈ history -> ~ creates gameId o) ->
  activeGames e !! gameId = Some g ->
  activeGames (run cfg emptyObject hk history e) !! gameId = Some g' ->
  g_id g' = g_id g
  /\ g_config g' = g_config g
  /\ g_maxPlayers g' = g_maxPlayers g
  /\ g_turnTimeLimit g' = g_turnTimeLimit g
  /\ st_createdAt (g_state g') = st_createdAt (g_state g).
Proof.
  intros Hno Hg Hg'. by destruct (run_later _ _ _ _ _ Hno Hg Hg').
Qed.

(** Property X4.  The turn order is written once: after a game has left
    [waiting], no call that does not create the game anew changes its
    [turnOrder] or [startedAt], although participants may leave. *)
Theorem turnOrder_fixed_after_start history e gameId g g' :
  (forall o now, (o, now) ∈ history -> ~ creates gameId o) ->
  activeGames e !! gameId = Some g ->
  st_status (g_state g) <> Waiting ->
  activeGames (run cfg emptyObject hk history e) !! gameId = Some g' ->
  st_turnOrder (g_state g') = st_turnOrder (g_state g)
  /\ st_startedAt (g_state g') = st_startedAt (g_state g).
Proof.
  intros Hno Hg Hw Hg'. by apply (lt_order _ _ (run_later _ _ _ _ _ Hno Hg Hg')).
Qed.

Lemma coherent_closed : game_closed hk (fun _ g => @coherent GD g).
Proof.
  split; intros k g; unfold coherent; simpl; try done.
  - destruct (st_status (g_state g)); try done.
    intros (Ho & Hc & Hs & He). rewrite Ho. repeat split; try done.
  - intros reason winner now _. split; [by eexists|]. by destruct winner.
  - intros rnd now Hc Hs. apply can_start_waiting in Hs. rewrite Hs in Hc.
    destruct Hc as (_ & _ & _ & He). split; [by eexists|done].
  - intros playerId ready now. unfold mark_ready.
    by destruct (list_find _ _) as [[]|].
Qed.

(** Property X5.  Status and fields agree in every reachable engine: a
    waiting game has an empty turn order, no holder and neither start nor end
    time; an active game has a start time and no end time; an ended game has
    an end time and a winner that is [null] or an identifier. *)
Theorem reachable_games_coherent e gameId g :
  reachable cfg emptyObject hk e ->
  activeGames e !! gameId = Some g ->
  coherent g.
Proof.
  intros [history ->] Hg.
  assert (all_games (fun _ x => coherent x)
            (run cfg emptyObject hk history new_engine)) as Hall.
  { apply run_keeps; [apply coherent_closed| |].
    - intros o now k gameConfig _ _. unfold coherent. simpl. done.
    - unfold all_games. simpl. apply map_Forall_empty. }
  by apply (Hall gameId g Hg).
Qed.

(** Property X6.  Participants are distinct: in every reachable engine no
    two participants of a game have the same identifier, and the turn order
    lists no identifier twice. *)
Theorem participants_are_distinct e gameId g :
  reachable cfg emptyObject hk e ->
  activeGames e !! gameId = Some g ->
  NoDup (player_ids g) /\ NoDup (st_turnOrder (g_state g)).
Proof.
  intros Hr Hg. apply (reachable_ok cfg emptyObject hk) in Hr.
  destruct (Hr gameId g Hg). done.
Qed.
End Life.

(** ** The whole engine after a call *)

Section Whole.
Context {GD Act : Type}.
Variable cfg : host_config.
Variable emptyObject : GD.
Variable hk : hooks GD Act.

Implicit Types (e : engine GD) (g : game GD) (gameId : string).

Lemma with_games_same e : with_games (activeGames e) e = e.
Proof. by destruct e. Qed.

Lemma clearTurnTimer_idle gameId e :
  turnTimers e !! gameId = None -> clearTurnTimer gameId e = (e, Ok tt).
Proof. intros Ht. unfold clearTurnTimer, bind, gets. simpl. by rewrite Ht. Qed.

Lemma startTurn_idle gameId e :
  turnTimers e !! gameId = None -> after (startTurn gameId) e = e.
Proof.
  intros Ht. unfold after, startTurn, setTurnTimer, bind, getGame, gets. simpl.
  destruct (activeGames e !! gameId) as [g|]; [|done].
  destruct (find_player _ _); [|done].
  by rewrite (clearTurnTimer_idle _ _ Ht).
Qed.

(** Without a turn timer to clear, [nextTurn] changes the holder and
    nothing else. *)
Lemma nextTurn_whole gameId e :
  turnTimers e !! gameId = None ->
  after (nextTurn gameId) e
  = with_games (alter (with_state advance) gameId (activeGames e)) e.
Proof.
  intros Ht. unfold after, nextTurn, bind at 1, getGame, gets. simpl.
  destruct (activeGames e !! gameId) as [g|] eqn:Hg.
  - unfold bind at 1. rewrite (clearTurnTimer_idle _ _ Ht).
    unfold bind, update_state, modify. simpl.
    exact (startTurn_idle gameId
             (with_games (alter (with_state advance) gameId (activeGames e)) e) Ht).
  - rewrite alter_absent by done. by rewrite with_games_same.
Qed.

Lemma startGame_whole gameId rnd now e :
  turnTimers e !! gameId = None ->
  after (startGame hk gameId rnd now) e
  = with_games (activeGames (after (startGame hk gameId rnd now) e)) e.
Proof.
  intros Ht.
  assert (exists m, after (startGame hk gameId rnd now) e = with_games m e) as [m ->];
    [|done].
  unfold after, startGame, bind at 1, getGame, gets. simpl.
  destruct (activeGames e !! gameId) as [g|] eqn:Hg; simpl;
    [|exists (activeGames e); by rewrite with_games_same].
  destruct (negb _); simpl; [exists (activeGames e); by rewrite with_games_same|].
  destruct (js_lt _ _); simpl; [exists (activeGames e); by rewrite with_games_same|].
  unfold bind, update_state, modify. simpl.
  eexists.
  match goal with |- context [startTurn gameId ?x] =>
    pose proof (startTurn_idle gameId x Ht) as Hs end.
  unfold after in Hs.
  destruct (startTurn _ _) as [e1 [[]|err]]; simpl in *; subst; reflexivity.
Qed.

(** [endGame] on a registered game without a turn timer, in full. *)
Lemma endGame_whole gameId reason winner now e g :
  activeGames e !! gameId = Some g ->
  turnTimers e !! gameId = None ->
  endGame gameId reason winner now e
  = (mkEngine
       (<[gameId := with_state (finish reason (default_null winner) now) g]> (activeGames e))
       (delete gameId (gameTimers e))
       (turnTimers e)
       (<[nextHandle e := (CbPurge gameId, 60000%Z)]>
          (match gameTimers e !! gameId with
           | Some h => delete h (timeouts e)
           | None => timeouts e
           end))
       (S (nextHandle e))
       (EvGameEnded gameId reason (default_null winner) :: emitted e)
       ((g_id g, finish reason (default_null winner) now (g_state g)) :: saved e),
     Ok tt).
Proof.
  intros Hg Ht.
  unfold endGame, clearGameTimers, clearTurnTimer, bind, getGame, gets, update_state,
    modify, clearTimeout, saveGameState, emit, setTimeout, ret. simpl.
  rewrite Hg. simpl. rewrite (alter_present _ _ _ _ Hg).
  destruct (gameTimers e !! gameId) as [h|] eqn:Hh; simpl; rewrite Ht; simpl.
  - done.
  - by rewrite delete_id.
Qed.
End Whole.

(** ** Ending, purging and the lifetime timer *)

Section Closing.
Context {GD Act : Type}.
Variable cfg : host_config.
Variable emptyObject : GD.
Variable hk : hooks GD Act.

Implicit Types (e : engine GD) (g : game GD) (gameId : string).

Lemma reachable_turn_slot e gameId :
  reachable cfg emptyObject hk e -> turnTimers e !! gameId = None.
Proof.
  intros [Ht _]%reachable_no_turn_timer. rewrite Ht. apply lookup_empty.
Qed.

Lemma fire_live e h cb delay now :
  timeouts e !! h = Some (cb, delay) ->
  fire hk h now e = run_callback hk cb now (after (clearTimeout h) e).
Proof.
  intros Hh. unfold fire, bind, gets, clearTimeout, modify, after. simpl.
  by rewrite Hh.
Qed.

(** Property X7.  [endGame] on a registered game of a reachable engine
    returns normally and leaves the game ended with the given reason, the
    winner ([null] when none is given) and the end time, its participants,
    turn order and holder as they were; every other game is untouched; the
    game's lifetime timer is cancelled and its slot emptied; the record is
    handed to the persistence sink, one [gameEnded] event is emitted, and the
    removal of the game is scheduled 60000 ms later. *)
Theorem endGame_ends_and_cleans_up e gameId g reason winner now :
  reachable cfg emptyObject hk e ->
  activeGames e !! gameId = Some g ->
  let e' := after (endGame gameId reason winner now) e in
  result (endGame gameId reason winner now) e = Ok tt
  /\ (exists g', activeGames e' !! gameId = Some g'
        /\ terminal_state (g_state g') = (Ended, Some now, reason, default_null winner)
        /\ st_players (g_state g') = st_players (g_state g)
        /\ st_turnOrder (g_state g') = st_turnOrder (g_state g)
        /\ st_currentTurn (g_state g') = st_currentTurn (g_state g)
        /\ st_gameData (g_state g') = st_gameData (g_state g)
        /\ saved e' = (g_id g, g_state g') :: saved e)
  /\ (forall k, k <> gameId -> activeGames e' !! k = activeGames e !! k)
  /\ gameTimers e' !! gameId = None
  /\ (forall h, gameTimers e !! gameId = Some h -> timeouts e' !! h = None)
  /\ timeouts e' !! nextHandle e = Some (CbPurge gameId, 60000%Z)
  /\ emitted e' = EvGameEnded gameId reason (default_null winner) :: emitted e.
Proof.
  intros Hr Hg e'.
  pose proof (reachable_turn_slot e gameId Hr) as Ht.
  pose proof (reachable_handles_fresh cfg emptyObject hk e Hr) as [_ Hfresh].
  subst e'. unfold after, result. rewrite (endGame_whole gameId reason winner now e g Hg Ht).
  simpl. repeat split.
  - eexists. rewrite lookup_insert_eq. repeat split.
  - intros k Hk. by rewrite lookup_insert_ne.
  - apply lookup_delete_eq.
  - intros h Hh. rewrite Hh. specialize (Hfresh _ _ Hh).
    rewrite lookup_insert_ne by lia. apply lookup_delete_eq.
  - apply lookup_insert_eq.
Qed.

(** Property X8.  After the grace period the game is gone: when the removal
    scheduled by [endGame] fires, the game is no longer registered, reading
    its state raises "Game not found", and the other games are untouched. *)
Theorem purged_game_is_unreachable e gameId g reason winner now now' viewer :
  reachable cfg emptyObject hk e ->
  activeGames e !! gameId = Some g ->
  let ended := after (endGame gameId reason winner now) e in
  let purged := after (fire hk (nextHandle e) now') ended in
  activeGames purged !! gameId = None
  /\ getGameState hk gameId viewer purged = (purged, Throw GameNotFound)
  /\ forall k, k <> gameId -> activeGames purged !! k = activeGames e !! k.
Proof.
  intros Hr Hg ended purged.
  pose proof (reachable_turn_slot e gameId Hr) as Ht.
  assert (Hp : activeGames purged = delete gameId (activeGames e)).
  { subst purged ended. unfold after at 2.
    rewrite (endGame_whole gameId reason winner now e g Hg Ht). simpl.
    unfold after. erewrite fire_live by (simpl; apply lookup_insert_eq).
    simpl. by rewrite delete_insert_eq. }
  repeat split.
  - rewrite Hp. apply lookup_delete_eq.
  - unfold getGameState, bind, getGame, gets. simpl.
    by rewrite Hp, lookup_delete_eq.
  - intros k Hk. rewrite Hp. by rewrite lookup_delete_ne.
Qed.

(** Property X9.  The lifetime timer ends the game whatever its status:
    when the timer stored for a registered game fires, the game is ended
    with reason "timeout" and winner [null], and the call returns normally.
    [createGame] stores such a timer, with the configured delay. *)
Theorem lifetime_timer_ends_game e gameId g h delay now :
  reachable cfg emptyObject hk e ->
  activeGames e !! gameId = Some g ->
  gameTimers e !! gameId = Some h ->
  timeouts e !! h = Some (CbGameTimeout gameId, delay) ->
  result (fire hk h now) e = Ok tt
  /\ exists g', activeGames (after (fire hk h now) e) !! gameId = Some g'
       /\ terminal_state (g_state g') = (Ended, Some now, Some "timeout", JNull)
       /\ st_players (g_state g') = st_players (g_state g).
Proof.
  intros Hr Hg Hh Hlive.
  pose proof (reachable_turn_slot e gameId Hr) as Ht.
  unfold result, after. rewrite (fire_live e h _ _ now Hlive). simpl.
  unfold handleGameTimeout.
  rewrite (endGame_whole gameId (Some "timeout") JUndefined now
             (after (clearTimeout h) e) g Hg Ht).
  simpl. split; [done|]. eexists. rewrite lookup_insert_eq. by repeat split.
Qed.

Lemma createGame_arms_lifetime_timer e gameId gameConfig now :
  let e' := after (createGame cfg emptyObject gameId gameConfig now) e in
  activeGames e' !! gameId = Some (new_game cfg emptyObject gameId gameConfig now)
  /\ gameTimers e' !! gameId = Some (nextHandle e)
  /\ timeouts e' !! nextHandle e = Some (CbGameTimeout gameId, gameTimeout cfg).
Proof.
  unfold after, createGame, setGameTimeout, setTimeout, bind, modify, ret. simpl.
  repeat split; apply lookup_insert_eq.
Qed.
End Closing.

(** ** What a firing timer can do *)

Section Firing.
Context {GD Act : Type}.
Variable cfg : host_config.
Variable emptyObject : GD.
Variable hk : hooks GD Act.

Implicit Types (e : engine GD) (g : game GD) (gameId : string).

Lemma fire_dead e h now : timeouts e !! h = None -> fire hk h now e = (e, Ok tt).
Proof. intros Hh. unfold fire, bind, gets, ret. simpl. by rewrite Hh. Qed.


(** Claim C9, what the code does instead.  No timer ever passes the turn:
    in a reachable engine the game has no turn timer, no live timeout is a
    turn timeout, and whichever handle fires, at whatever time, a game that
    is still registered afterwards has the holder, the game data and the
    participants it had before. *)
Theorem timers_never_pass_the_turn e h now gameId g :
  reachable cfg emptyObject hk e ->
  activeGames e !! gameId = Some g ->
  turnTimers e !! gameId = None
  /\ (forall cb delay k, timeouts e !! h = Some (cb, delay) -> cb <> CbTurnTimeout k)
  /\ forall g',
       activeGames (after (fire hk h now) e) !! gameId = Some g' ->
       st_currentTurn (g_state g') = st_currentTurn (g_state g)
       /\ st_gameData (g_state g') = st_gameData (g_state g)
       /\ st_players (g_state g') = st_players (g_state g).
Proof.
  intros Hr Hg.
  pose proof (reachable_no_turn_timer cfg emptyObject hk e Hr) as [Ht Hl].
  split; [rewrite Ht; apply lookup_empty|].
  split; [intros cb delay k Hh; by eapply Hl|].
  intros g' Hg'. unfold after in Hg'.
  destruct (timeouts e !! h) as [[cb delay]|] eqn:Hh.
  - rewrite (fire_live hk e h cb delay now Hh) in Hg'.
    set (e1 := after (clearTimeout h) e) in Hg'.
    assert (He1 : activeGames e1 = activeGames e) by reflexivity.
    destruct cb as [k|k|k].
    + by destruct (Hl h _ _ Hh k).
    + change (activeGames (after (endGame k (Some "timeout") JUndefined now) e1) !! gameId
              = Some g') in Hg'.
      rewrite endGame_games, He1 in Hg'.
      destruct (decide (k = gameId)) as [->|Hne].
      * rewrite lookup_alter_eq, Hg in Hg'. by simplify_eq/=.
      * rewrite lookup_alter_ne, Hg in Hg' by done. by simplify_eq.
    + change (delete k (activeGames e1) !! gameId = Some g') in Hg'.
      rewrite He1 in Hg'.
      apply lookup_delete_Some in Hg' as [_ Hg']. rewrite Hg in Hg'. by simplify_eq.
  - rewrite (fire_dead e h now Hh) in Hg'. simpl in Hg'. rewrite Hg in Hg'. by simplify_eq.
Qed.
End Firing.



(** Witness for C9: the only live timeout of the started duel is its
    lifetime timer; when it fires, long after the turn time limit, B still
    holds the turn. *)
Lemma timers_never_pass_the_turn_witness :
  Scenario.holder (after (fire Scenario.base 0 300001) Scenario.started) = Some (JId "B").
Proof.
  destruct (timers_never_pass_the_turn Scenario.cfg 0 Scenario.base Scenario.started 0
              300001 "g" Cases.started_game) as (_ & _ & Hkeep).
  - by exists Scenario.duel_history.
  - vm_compute. reflexivity.
  - unfold Scenario.holder, Scenario.state_of.
    destruct (activeGames (after (fire Scenario.base 0 300001) Scenario.started) !! "g")
      as [g'|] eqn:Hg'; [|vm_compute in Hg'; discriminate Hg'].
    simpl. f_equal. by destruct (Hkeep g' eq_refl) as (-> & _).
Defined.

(** ** What a call returns or raises *)

Section Outcomes.
Context {GD Act : Type}.
Variable hk : hooks GD Act.

Implicit Types (e : engine GD) (g : game GD) (gameId : string).

(** An accepted action returns the hook's result, unless the turn passes to
    a present participant: arming the turn timer then raises. *)
Lemma processAction_result gameId playerId action now e g :
  activeGames e !! gameId = Some g ->
  st_status (g_state g) = Active ->
  st_currentTurn (g_state g) = playerId ->
  valid (validateAction hk g playerId action) = true ->
  let r := executeAction hk g playerId action in
  result (processAction hk gameId playerId action now) e =
    if r_gameEnded r then Ok r
    else if is_Some_b (find_player (st_players (g_state g))
                         (next_holder (st_turnOrder (g_state g)) playerId))
         then Throw (ReferenceError "game is not defined")
         else Ok r.
Proof.
  intros Hg Hs Ht Hv r.
  unfold result, processAction, bind at 1, getGame, gets. simpl. rewrite Hg.
  rewrite !bool_decide_eq_true_2 by done. simpl. rewrite Hv. simpl.
  unfold bind at 1, update_state, modify. simpl.
  rewrite (alter_present _ _ _ _ Hg). fold r.
  set (e1 := with_games _ e).
  assert (Hg1 : activeGames e1 !! gameId = Some (with_state (commit r now) g)).
  { subst e1. simpl. apply lookup_insert_eq. }
  destruct (r_gameEnded r).
  - assert (Hr : result (endGame gameId (r_endReason r) (r_winner r) now) e1 = Ok tt).
    { by rewrite endGame_result, Hg1. }
    by rewrite (bind_ok _ _ _ _ Hr).
  - pose proof (nextTurn_result gameId e1) as Hr. rewrite Hg1 in Hr. simpl in Hr.
    rewrite Ht in Hr.
    destruct (is_Some_b _).
    + by rewrite (bind_throw _ _ _ _ Hr).
    + by rewrite (bind_ok _ _ _ _ Hr).
Qed.

(** A removal that finds its participant returns [true], unless the holder
    left an active game and the turn passes to a present participant. *)
Lemma removePlayer_result gameId playerId now e g i p :
  activeGames e !! gameId = Some g ->
  list_find (fun p => p_id p = playerId) (st_players (g_state g)) = Some (i, p) ->
  result (removePlayer gameId playerId now) e =
    if bool_decide (st_status (g_state g) = Active)
       && bool_decide (st_currentTurn (g_state g) = JId playerId)
       && is_Some_b (find_player (delete i (st_players (g_state g)))
                       (next_holder (st_turnOrder (g_state g)) (JId playerId)))
    then Throw (ReferenceError "game is not defined")
    else Ok true.
Proof.
  intros Hg Hf.
  unfold result, removePlayer, bind at 1, getGame, gets. simpl. rewrite Hg, Hf.
  unfold bind at 1, update_state, modify. simpl.
  rewrite (alter_present _ _ _ _ Hg).
  set (e1 := with_games _ e).
  assert (Hg1 : activeGames e1 !! gameId = Some (with_state (leave i now) g)).
  { subst e1. simpl. apply lookup_insert_eq. }
  set (turn := if _ && _ then nextTurn gameId else ret ()).
  assert (Hturn : result turn e1 =
            if bool_decide (st_status (g_state g) = Active)
               && bool_decide (st_currentTurn (g_state g) = JId playerId)
               && is_Some_b (find_player (delete i (st_players (g_state g)))
                               (next_holder (st_turnOrder (g_state g)) (JId playerId)))
            then Throw (ReferenceError "game is not defined") else Ok tt).
  { subst turn. destruct (bool_decide (st_status (g_state g) = Active)); simpl; [|done].
    case_bool_decide as Hc; simpl; [|done].
    rewrite nextTurn_result, Hg1. simpl. rewrite Hc. by destruct (is_Some_b _). }
  destruct (_ && _ && _) eqn:Hcase.
  - by rewrite (bind_throw _ _ _ _ Hturn).
  - rewrite (bind_ok _ _ _ _ Hturn).
    assert (is_Some (activeGames (after turn e1) !! gameId)) as [g2 Hg2].
    { subst turn.
      destruct (bool_decide (st_status (g_state g) = Active)
                && bool_decide (st_currentTurn (g_state g) = JId playerId)).
      - rewrite nextTurn_games, lookup_alter, decide_True, Hg1 by done. by eexists.
      - by eexists. }
    unfold bind at 1, gets. cbv beta iota. rewrite Hg2.
    destruct (js_lt _ _ && _); [|done].
    assert (Hr : result (endGame gameId (Some "insufficient_players") JUndefined now)
                   (after turn e1) = Ok tt).
    { by rewrite endGame_result, Hg2. }
    by rewrite (bind_ok _ _ _ _ Hr).
Qed.

(** Property X10.  A plain [Error] means nothing happened: when
    [addPlayer], [removePlayer], [startGame], [processAction] or [endGame]
    raises an [Error] ("Game not found", "Game is full", "Not your turn", a
    refused action, ...), the engine is exactly as before the call.  Only the
    [ReferenceError] of the turn timer can follow a write. *)
Theorem error_means_unchanged :
  (forall e gameId p rnd now message,
      result (addPlayer hk gameId p rnd now) e = Throw (Error message) ->
      after (addPlayer hk gameId p rnd now) e = e)
  /\ (forall e gameId playerId now message,
      result (removePlayer gameId playerId now) e = Throw (Error message) ->
      after (removePlayer gameId playerId now) e = e)
  /\ (forall e gameId rnd now message,
      result (startGame hk gameId rnd now) e = Throw (Error message) ->
      after (startGame hk gameId rnd now) e = e)
  /\ (forall e gameId playerId action now message,
      result (processAction hk gameId playerId action now) e = Throw (Error message) ->
      after (processAction hk gameId playerId action now) e = e)
  /\ (forall e gameId reason winner now message,
      result (endGame gameId reason winner now) e = Throw (Error message) ->
      after (endGame gameId reason winner now) e = e).
Proof.
  repeat split.
  - intros e gameId p rnd now message Hr.
    destruct (activeGames e !! gameId) as [g|] eqn:Hg.
    + destruct (decide (length (st_players (g_state g)) < g_maxPlayers g)) as [Hroom|Hfull].
      * destruct (decide (pl_id p ∈ player_ids g)) as [Hdup|Hnew].
        -- unfold after. by erewrite addPlayer_duplicate.
        -- unfold result in Hr. by erewrite addPlayer_joins in Hr.
      * unfold after. erewrite addPlayer_full; [done..|lia].
    + unfold after, addPlayer, bind, getGame, gets. simpl. by rewrite Hg.
  - intros e gameId playerId now message Hr.
    destruct (activeGames e !! gameId) as [g|] eqn:Hg.
    + destruct (list_find (fun p => p_id p = playerId) (st_players (g_state g)))
        as [[i p]|] eqn:Hf.
      * rewrite (removePlayer_result _ _ _ _ _ _ _ Hg Hf) in Hr.
        by destruct (_ && _ && _).
      * unfold after. by erewrite removePlayer_absent.
    + unfold after, removePlayer, bind, getGame, gets. simpl. by rewrite Hg.
  - intros e gameId rnd now message Hr.
    rewrite startGame_result in Hr.
    unfold after, startGame, bind at 1, getGame, gets. simpl.
    destruct (activeGames e !! gameId) as [g|] eqn:Hg; [|done].
    destruct (negb _); [done|]. destruct (js_lt _ _); [done|].
    by destruct (is_Some_b _).
  - intros e gameId playerId action now message Hr.
    destruct (activeGames e !! gameId) as [g|] eqn:Hg;
      [|unfold after; by rewrite processAction_not_found].
    destruct (decide (st_status (g_state g) = Active)) as [Hs|Hs];
      [|unfold after; by erewrite processAction_not_active].
    destruct (decide (playerId = st_currentTurn (g_state g))) as [Ht|Ht];
      [|unfold after; by erewrite processAction_not_your_turn].
    destruct (valid (validateAction hk g playerId action)) eqn:Hv;
      [|unfold after; by erewrite processAction_invalid].
    rewrite (processAction_result _ _ _ _ _ _ Hg Hs (eq_sym Ht) Hv) in Hr.
    destruct (r_gameEnded _); [done|]. by destruct (is_Some_b _).
  - intros e gameId reason winner now message Hr.
    rewrite endGame_result in Hr.
    unfold after, endGame, bind at 1, getGame, gets. simpl.
    by destruct (activeGames e !! gameId).
Qed.
End Outcomes.

(** ** Joining and the automatic start *)

Section Joining.
Context {GD Act : Type}.
Variable hk : hooks GD Act.

Implicit Types (e : engine GD) (g : game GD) (gameId : string).

(** Property X11.  [addPlayer] only appends: when there is room and the
    identifier is new, the call returns [true] and the only change in the
    whole engine is that the game has one more participant, placed last, not
    ready and connected.  In particular it never starts the game: the
    participant it has just pushed fails the all-ready test of
    [checkGameStart]. *)
Theorem addPlayer_only_appends e gameId g p rnd now :
  activeGames e !! gameId = Some g ->
  length (st_players (g_state g)) < g_maxPlayers g ->
  pl_id p ∉ player_ids g ->
  exists g',
    addPlayer hk gameId p rnd now e
    = (with_games (<[gameId := g']> (activeGames e)) e, Ok true)
    /\ st_players (g_state g')
       = st_players (g_state g) ++ [mkParticipant (pl_id p) (pl_name p) false true now now]
    /\ st_status (g_state g') = st_status (g_state g)
    /\ st_turnOrder (g_state g') = st_turnOrder (g_state g)
    /\ st_currentTurn (g_state g') = st_currentTurn (g_state g)
    /\ st_gameData (g_state g') = st_gameData (g_state g)
    /\ g_config g' = g_config g.
Proof.
  intros Hg Hroom Hnew. exists (with_state (join p now) g).
  split; [by apply addPlayer_joins|]. by repeat split.
Qed.

Lemma filter_ready_all (players : list participant) :
  (forall p, p ∈ players -> p_ready p = true) ->
  filter (fun p => p_ready p = true) players = players.
Proof.
  intros Hall. induction players as [|q players IH]; [done|].
  rewrite filter_cons_True by (apply Hall, list_elem_of_here).
  f_equal. apply IH. intros p Hp. apply Hall. by apply list_elem_of_further.
Qed.

Lemma checkGameStart_starts e gameId g rnd now :
  activeGames e !! gameId = Some g ->
  (forall p, p ∈ st_players (g_state g) -> p_ready p = true) ->
  js_ge (length (st_players (g_state g))) (c_minPlayers (g_config g)) = true ->
  after (checkGameStart hk gameId rnd now) e = after (startGame hk gameId rnd now) e
  /\ result (checkGameStart hk gameId rnd now) e
     = match result (startGame hk gameId rnd now) e with
       | Ok _ => Ok tt
       | Throw err => Throw err
       end.
Proof.
  intros Hg Hall Hmin.
  unfold after, result, checkGameStart, bind, getGame, gets. simpl. rewrite Hg.
  rewrite (filter_ready_all _ Hall), Hmin, Nat.eqb_refl. simpl.
  by destruct (startGame _ _ _ _ _) as [e' [b|err]].
Qed.

(** Property X12.  [checkGameStart] starts the game exactly when every
    participant is ready and there are at least [minPlayers] of them: then
    it does what [startGame] does and raises what [startGame] raises;
    otherwise it does nothing. *)
Theorem checkGameStart_when_all_ready e gameId g rnd now :
  activeGames e !! gameId = Some g ->
  ((forall p, p ∈ st_players (g_state g) -> p_ready p = true) ->
   js_ge (length (st_players (g_state g))) (c_minPlayers (g_config g)) = true ->
   after (checkGameStart hk gameId rnd now) e = after (startGame hk gameId rnd now) e
   /\ result (checkGameStart hk gameId rnd now) e
      = match result (startGame hk gameId rnd now) e with
        | Ok _ => Ok tt
        | Throw err => Throw err
        end)
  /\ ((exists p, p ∈ st_players (g_state g) /\ p_ready p = false)
      \/ js_ge (length (st_players (g_state g))) (c_minPlayers (g_config g)) = false ->
      checkGameStart hk gameId rnd now e = (e, Ok tt)).
Proof.
  intros Hg. split.
  - by apply checkGameStart_starts.
  - intros [(p & Hp & Hr)|Hmin]; [by eapply checkGameStart_not_ready|].
    unfold checkGameStart, bind, getGame, gets. simpl. rewrite Hg.
    assert (js_ge (length (filter (fun p => p_ready p = true) (st_players (g_state g))))
              (c_minPlayers (g_config g)) = false) as ->; [|done].
    unfold js_ge in *. destruct (c_minPlayers _) as [k|]; [|done].
    apply Nat.leb_gt. apply Nat.leb_gt in Hmin.
    pose proof (length_filter (fun p => p_ready p = true) (st_players (g_state g))). lia.
Qed.

End Joining.

(** ** The socket handler's engine *)

Section Handler.
Context {GD Act : Type}.
Variable cfg : host_config.
Variable emptyObject : GD.
Variable hk : hooks GD Act.

Lemma handlePlayerReady_empty gameId playerId ready rnd now :
  handlePlayerReady hk gameId playerId ready rnd now (@new_engine GD) = (new_engine, Ok tt).
Proof.
  unfold handlePlayerReady, try_catch. f_equal.
  destruct (String.eqb gameId EmptyString); [done|].
  unfold bind, getGame, gets. simpl. by rewrite lookup_empty.
Qed.

Lemma getGameState_empty gameId playerId :
  getGameState hk gameId playerId (@new_engine GD) = (new_engine, Throw GameNotFound).
Proof.
  unfold getGameState, bind, getGame, gets. simpl. by rewrite lookup_empty.
Qed.

Lemma handler_step (o : op Act) now :
  handler_call o -> step cfg emptyObject hk o now new_engine = new_engine.
Proof.
  destruct o; intros Ho; try (by destruct Ho); unfold step, after.
  by rewrite handlePlayerReady_empty.
Qed.

(** Property X13.  The socket handler's own engine never holds a game:
    from a new engine, any sequence of the calls the handler makes on it
    ([processAction], the ready handler with its [getGame] and
    [checkGameStart], [getGameState]) leaves it exactly a new engine, since
    the handler calls neither [createGame] nor [addPlayer] on it.  So on that
    engine the ready handler changes nothing and starts no game, and
    [processAction] and [getGameState] raise "Game not found". *)
Theorem handler_engine_holds_no_game (history : list (op Act * Z)) :
  Forall (fun c => handler_call c.1) history ->
  let e := run cfg emptyObject hk history new_engine in
  e = new_engine
  /\ (forall gameId playerId ready rnd now,
        handlePlayerReady hk gameId playerId ready rnd now e = (e, Ok tt))
  /\ (forall gameId playerId action now,
        processAction hk gameId playerId action now e = (e, Throw GameNotFound))
  /\ (forall gameId playerId,
        getGameState hk gameId playerId e = (e, Throw GameNotFound)).
Proof.
  intros Hcalls e.
  assert (He : e = new_engine).
  { subst e. induction Hcalls as [|[o now] rest Ho _ IH]; [done|].
    simpl. by rewrite handler_step. }
  rewrite He. split; [done|]. split; [|split].
  - intros. apply handlePlayerReady_empty.
  - intros. apply processAction_not_found, lookup_empty.
  - intros. apply getGameState_empty.
Qed.
End Handler.

(** ** Accepted actions *)

Section Acting.
Context {GD Act : Type}.
Variable cfg : host_config.
Variable emptyObject : GD.
Variable hk : hooks GD Act.

Implicit Types (e : engine GD) (g : game GD) (gameId : string).

(** Past its checks [processAction] commits the hook's data and then ends
    the game or passes the turn. *)
Lemma processAction_accepted gameId playerId action now e g :
  activeGames e !! gameId = Some g ->
  st_status (g_state g) = Active ->
  st_currentTurn (g_state g) = playerId ->
  valid (validateAction hk g playerId action) = true ->
  let r := executeAction hk g playerId action in
  let e1 := with_games (<[gameId := with_state (commit r now) g]> (activeGames e)) e in
  after (processAction hk gameId playerId action now) e
  = if r_gameEnded r
    then after (endGame gameId (r_endReason r) (r_winner r) now) e1
    else after (nextTurn gameId) e1.
Proof.
  intros Hg Hs Ht Hv r e1.
  unfold after at 1, processAction, bind at 1, getGame, gets. simpl. rewrite Hg.
  rewrite !bool_decide_eq_true_2 by done. simpl. rewrite Hv. simpl.
  unfold bind at 1, update_state, modify. simpl.
  rewrite (alter_present _ _ _ _ Hg). fold r. fold e1.
  unfold bind, after.
  destruct (r_gameEnded r).
  - by destruct (endGame _ _ _ _ _) as [e' [[]|err]].
  - by destruct (nextTurn _ _) as [e' [[]|err]].
Qed.

(** Property X14.  An action that ends the game: when the execution hook
    signals the end, [processAction] returns the hook's result and leaves the
    game ended with the hook's reason, its winner ([null] when it names
    none), the hook's data and the time of the call; the game's timer slots
    are empty and a [gameEnded] event is emitted. *)
Theorem processAction_ends_game e gameId g playerId action now :
  activeGames e !! gameId = Some g ->
  st_status (g_state g) = Active ->
  st_currentTurn (g_state g) = playerId ->
  valid (validateAction hk g playerId action) = true ->
  r_gameEnded (executeAction hk g playerId action) = true ->
  let r := executeAction hk g playerId action in
  let e' := after (processAction hk gameId playerId action now) e in
  result (processAction hk gameId playerId action now) e = Ok r
  /\ (exists g', activeGames e' !! gameId = Some g'
        /\ terminal_state (g_state g') = (Ended, Some now, r_endReason r, default_null (r_winner r))
        /\ st_gameData (g_state g') = r_gameData r
        /\ st_currentTurn (g_state g') = playerId)
  /\ gameTimers e' !! gameId = None
  /\ turnTimers e' !! gameId = None
  /\ emitted e' = EvGameEnded gameId (r_endReason r) (default_null (r_winner r)) :: emitted e.
Proof.
  intros Hg Hs Ht Hv Hend r e'.
  pose proof (processAction_result hk gameId playerId action now e g Hg Hs Ht Hv) as Hr.
  pose proof (processAction_accepted gameId playerId action now e g Hg Hs Ht Hv) as Ha.
  pose proof (processAction_games hk gameId playerId action now e g Hg Hs Ht Hv) as Hgm.
  simpl in Hr, Ha, Hgm. unfold settle in Hgm. rewrite Hend in Hr, Ha, Hgm.
  set (e1 := with_games (<[gameId := with_state (commit r now) g]> (activeGames e)) e) in *.
  assert (Hg1 : activeGames e1 !! gameId = Some (with_state (commit r now) g))
    by apply lookup_insert_eq.
  subst e'. split; [done|]. split.
  - eexists. rewrite Hgm, lookup_insert_eq. by repeat split.
  - rewrite Ha.
    destruct (endGame_timers gameId (r_endReason r) (r_winner r) now e1 _ Hg1).
    repeat split; try done. by erewrite endGame_emitted.
Qed.

(** Property X15.  An action that does not end the game: in a reachable
    engine the only change is to the game, which gets the hook's data and the
    next holder of the rotation.  The call returns the hook's result when the
    next holder is not a participant any more, and raises the
    [ReferenceError] of the turn timer, after these writes, when the next
    holder is present. *)
Theorem processAction_passes_turn e gameId g playerId action now :
  reachable cfg emptyObject hk e ->
  activeGames e !! gameId = Some g ->
  st_status (g_state g) = Active ->
  st_currentTurn (g_state g) = playerId ->
  valid (validateAction hk g playerId action) = true ->
  r_gameEnded (executeAction hk g playerId action) = false ->
  let r := executeAction hk g playerId action in
  let next := next_holder (st_turnOrder (g_state g)) playerId in
  (exists g',
     after (processAction hk gameId playerId action now) e
     = with_games (<[gameId := g']> (activeGames e)) e
     /\ st_gameData (g_state g') = r_gameData r
     /\ st_currentTurn (g_state g') = next
     /\ st_status (g_state g') = Active
     /\ st_players (g_state g') = st_players (g_state g)
     /\ st_turnOrder (g_state g') = st_turnOrder (g_state g))
  /\ (next ∈ (JId <$> player_ids g) ->
      result (processAction hk gameId playerId action now) e
      = Throw (ReferenceError "game is not defined"))
  /\ (next ∉ (JId <$> player_ids g) ->
      result (processAction hk gameId playerId action now) e = Ok r).
Proof.
  intros Hreach Hg Hs Ht Hv Hend r next.
  pose proof (reachable_turn_slot cfg emptyObject hk e gameId Hreach) as Hslot.
  pose proof (processAction_result hk gameId playerId action now e g Hg Hs Ht Hv) as Hr.
  pose proof (processAction_accepted gameId playerId action now e g Hg Hs Ht Hv) as Ha.
  simpl in Hr, Ha. rewrite Hend in Hr, Ha.
  split; [|split].
  - exists (with_state advance (with_state (commit r now) g)).
    rewrite Ha, nextTurn_whole by done. simpl.
    rewrite alter_insert_eq. unfold with_games. simpl.
    repeat split; try done.
    simpl. by rewrite Ht.
  - intros Hin. rewrite Hr.
    destruct (find_player _ _) eqn:Hf; [done|]. exfalso.
    apply list_elem_of_fmap in Hin as (s & Hs' & Hin).
    rewrite find_player_None in Hf. by apply (Hf s Hs').
  - intros Hnot. rewrite Hr.
    destruct (find_player _ _) eqn:Hf; [|done]. exfalso. apply Hnot.
    destruct (proj1 (find_player_Some _ _) (mk_is_Some _ _ Hf)) as (s & Hs' & Hin).
    apply list_elem_of_fmap. by exists s.
Qed.
End Acting.

(** ** Leaving *)

Section Leaving.
Context {GD Act : Type}.
Variable cfg : host_config.
Variable emptyObject : GD.
Variable hk : hooks GD Act.

Implicit Types (e : engine GD) (g : game GD) (gameId : string).

(** When the one who leaves does not hold the turn of an active game, the
    removal is followed only by the check for too few players. *)
Lemma removePlayer_bystander gameId playerId now e g i p :
  activeGames e !! gameId = Some g ->
  list_find (fun p => p_id p = playerId) (st_players (g_state g)) = Some (i, p) ->
  ~ (st_status (g_state g) = Active /\ st_currentTurn (g_state g) = JId playerId) ->
  let e1 := with_games (<[gameId := with_state (leave i now) g]> (activeGames e)) e in
  removePlayer gameId playerId now e
  = bind (if js_lt (length (delete i (st_players (g_state g)))) (c_minPlayers (g_config g))
             && bool_decide (st_status (g_state g) = Active)
          then endGame gameId (Some "insufficient_players") JUndefined now
          else ret tt)
      (fun _ => ret true) e1.
Proof.
  intros Hg Hf Hnot e1.
  unfold removePlayer, bind at 1, getGame, gets. simpl. rewrite Hg, Hf.
  unfold bind at 1, update_state, modify. simpl.
  rewrite (alter_present _ _ _ _ Hg). fold e1.
  assert (bool_decide (st_status (g_state g) = Active)
          && bool_decide (st_currentTurn (g_state g) = JId playerId) = false) as ->.
  { apply andb_false_iff.
    destruct (decide (st_status (g_state g) = Active)) as [Hs|Hs].
    - right. apply bool_decide_eq_false. intros Hc. by apply Hnot.
    - left. by apply bool_decide_eq_false. }
  unfold bind at 1, ret at 1. unfold bind at 1, gets. cbv beta iota.
  assert (activeGames e1 !! gameId = Some (with_state (leave i now) g)) as ->
    by apply lookup_insert_eq.
  done.
Qed.

(** Property X16.  A bystander leaves: when the participant who leaves does
    not hold the turn of an active game, and the game is not active or keeps
    at least [minPlayers] participants, [removePlayer] returns [true] and the
    only change in the whole engine is that the game has lost that
    participant; the holder, the turn order and the status are as before. *)
Theorem removePlayer_bystander_leaves e gameId g playerId now i p :
  activeGames e !! gameId = Some g ->
  list_find (fun p => p_id p = playerId) (st_players (g_state g)) = Some (i, p) ->
  ~ (st_status (g_state g) = Active /\ st_currentTurn (g_state g) = JId playerId) ->
  st_status (g_state g) <> Active
  \/ js_lt (length (st_players (g_state g)) - 1) (c_minPlayers (g_config g)) = false ->
  exists g',
    removePlayer gameId playerId now e
    = (with_games (<[gameId := g']> (activeGames e)) e, Ok true)
    /\ st_players (g_state g') = delete i (st_players (g_state g))
    /\ length (st_players (g_state g')) = length (st_players (g_state g)) - 1
    /\ st_currentTurn (g_state g') = st_currentTurn (g_state g)
    /\ st_turnOrder (g_state g') = st_turnOrder (g_state g)
    /\ st_status (g_state g') = st_status (g_state g).
Proof.
  intros Hg Hf Hnot Henough.
  assert (Hlen : length (delete i (st_players (g_state g)))
                 = length (st_players (g_state g)) - 1).
  { apply list_find_Some in Hf as (Hi & _ & _).
    rewrite length_delete by (by eexists). done. }
  exists (with_state (leave i now) g).
  rewrite (removePlayer_bystander _ _ _ _ _ _ _ Hg Hf Hnot), Hlen.
  assert (js_lt (length (st_players (g_state g)) - 1) (c_minPlayers (g_config g))
          && bool_decide (st_status (g_state g) = Active) = false) as ->.
  { apply andb_false_iff. destruct Henough as [Hs|Hm]; [right|by left].
    by apply bool_decide_eq_false. }
  by repeat split.
Qed.

(** Property X17.  Too few players end the game: when a participant who
    does not hold the turn leaves an active game and fewer than [minPlayers]
    remain, [removePlayer] returns [true] and the game is ended with reason
    "insufficient_players" and winner [null], without the one who left, and
    with its timer slots empty. *)
Theorem removePlayer_too_few_ends_game e gameId g playerId now i p :
  activeGames e !! gameId = Some g ->
  list_find (fun p => p_id p = playerId) (st_players (g_state g)) = Some (i, p) ->
  st_status (g_state g) = Active ->
  st_currentTurn (g_state g) <> JId playerId ->
  js_lt (length (st_players (g_state g)) - 1) (c_minPlayers (g_config g)) = true ->
  let e' := after (removePlayer gameId playerId now) e in
  result (removePlayer gameId playerId now) e = Ok true
  /\ (exists g', activeGames e' !! gameId = Some g'
        /\ terminal_state (g_state g')
           = (Ended, Some now, Some "insufficient_players", JNull)
        /\ st_players (g_state g') = delete i (st_players (g_state g)))
  /\ gameTimers e' !! gameId = None
  /\ turnTimers e' !! gameId = None.
Proof.
  intros Hg Hf Hs Hturn Hfew e'.
  assert (Hlen : length (delete i (st_players (g_state g)))
                 = length (st_players (g_state g)) - 1).
  { apply list_find_Some in Hf as (Hi & _ & _).
    rewrite length_delete by (by eexists). done. }
  assert (Hnot : ~ (st_status (g_state g) = Active
                    /\ st_currentTurn (g_state g) = JId playerId)) by (by intros [_ ?]).
  pose proof (removePlayer_bystander _ _ now _ _ _ _ Hg Hf Hnot) as Hcall.
  simpl in Hcall. rewrite Hlen, Hfew, bool_decide_eq_true_2 in Hcall by done.
  simpl in Hcall.
  set (e1 := with_games (<[gameId := with_state (leave i now) g]> (activeGames e)) e) in *.
  assert (Hg1 : activeGames e1 !! gameId = Some (with_state (leave i now) g))
    by apply lookup_insert_eq.
  assert (Hr : result (endGame gameId (Some "insufficient_players") JUndefined now) e1
               = Ok tt) by (by rewrite endGame_result, Hg1).
  rewrite (bind_ok _ _ _ _ Hr) in Hcall.
  subst e'. unfold result, after at 1 2 3. rewrite Hcall. simpl.
  destruct (endGame_timers gameId (Some "insufficient_players") JUndefined now e1 _ Hg1).
  repeat split; try done.
  eexists. rewrite endGame_games, lookup_alter, decide_True, Hg1 by done.
  by repeat split.
Qed.

(** Property X18.  The holder leaves and the call aborts: when the holder
    of an active game of a reachable engine leaves and the next entry of the
    turn order is still a participant, [removePlayer] removes the participant,
    hands the turn to that entry and then raises the [ReferenceError] of the
    turn timer.  The check for too few players is not reached: the game stays
    active however few participants remain. *)
Theorem removePlayer_holder_aborts e gameId g playerId now i p :
  reachable cfg emptyObject hk e ->
  activeGames e !! gameId = Some g ->
  list_find (fun p => p_id p = playerId) (st_players (g_state g)) = Some (i, p) ->
  st_status (g_state g) = Active ->
  st_currentTurn (g_state g) = JId playerId ->
  let next := next_holder (st_turnOrder (g_state g)) (JId playerId) in
  next ∈ (JId <$> (p_id <$> delete i (st_players (g_state g)))) ->
  exists g',
    removePlayer gameId playerId now e
    = (with_games (<[gameId := g']> (activeGames e)) e,
       Throw (ReferenceError "game is not defined"))
    /\ st_players (g_state g') = delete i (st_players (g_state g))
    /\ st_currentTurn (g_state g') = next
    /\ st_status (g_state g') = Active.
Proof.
  intros Hreach Hg Hf Hs Hturn next Hnext.
  pose proof (reachable_turn_slot cfg emptyObject hk e gameId Hreach) as Hslot.
  exists (with_state advance (with_state (leave i now) g)).
  split; [|repeat split; simpl; [by rewrite Hturn|done]].
  unfold removePlayer, bind at 1, getGame, gets. simpl. rewrite Hg, Hf.
  unfold bind at 1, update_state, modify. simpl.
  rewrite (alter_present _ _ _ _ Hg).
  rewrite !bool_decide_eq_true_2 by done. simpl.
  set (e1 := with_games _ e).
  assert (Hg1 : activeGames e1 !! gameId = Some (with_state (leave i now) g))
    by apply lookup_insert_eq.
  assert (Hr : result (nextTurn gameId) e1 = Throw (ReferenceError "game is not defined")).
  { rewrite nextTurn_result, Hg1. simpl. rewrite Hturn.
    destruct (find_player _ _) eqn:Hfind; [done|]. exfalso.
    apply list_elem_of_fmap in Hnext as (s & Hs' & Hin).
    rewrite find_player_None in Hfind. by apply (Hfind s Hs'). }
  rewrite (bind_throw _ _ _ _ Hr). f_equal.
  rewrite nextTurn_whole by done. subst e1. simpl.
  rewrite alter_insert_eq. done.
Qed.
End Leaving.

(** * Properties of the persisted document *)

Section Document.
Import GameState.

Implicit Types (d : document).

Lemma getPlayerById_None d playerId :
  getPlayerById d playerId = None <-> playerId ∉ ids d.
Proof.
  unfold getPlayerById, ids. split.
  - intros Hf Hin. apply list_elem_of_fmap in Hin as (q & -> & Hq).
    apply fmap_None in Hf. eapply list_find_None in Hf.
    rewrite Forall_forall in Hf. by apply (Hf q Hq).
  - intros Hnot. apply fmap_None. apply list_find_None, Forall_forall.
    intros q Hq Heq. apply Hnot. apply list_elem_of_fmap. by exists q.
Qed.

(** Property X19.  Adding to the document is idempotent: [addPlayer] leaves
    a document that already has the identifier exactly as it is, appends a
    fresh entry (not ready, connected, not a spectator) otherwise, keeps the
    identifiers distinct, and adding the same player a second time changes
    nothing. *)
Theorem document_addPlayer_idempotent d p now now' :
  (pl_id p ∈ ids d -> addPlayer d p now = d)
  /\ (pl_id p ∉ ids d ->
      players (addPlayer d p now)
      = players d ++ [mkMember (pl_id p) (pl_name p) false true now now 0 0 false])
  /\ (NoDup (ids d) -> NoDup (ids (addPlayer d p now)))
  /\ addPlayer (addPlayer d p now) p now' = addPlayer d p now.
Proof.
  assert (Hin : forall d t, pl_id p ∈ ids d -> addPlayer d p t = d).
  { intros d0 t Hin. unfold addPlayer.
    destruct (getPlayerById d0 (pl_id p)) eqn:Hf; [done|].
    by apply getPlayerById_None in Hf. }
  assert (Hout : pl_id p ∉ ids d ->
            addPlayer d p now
            = set_players (players d
                ++ [mkMember (pl_id p) (pl_name p) false true now now 0 0 false]) d).
  { intros Hnot. unfold addPlayer.
    by rewrite (proj2 (getPlayerById_None d (pl_id p)) Hnot). }
  repeat split.
  - apply Hin.
  - intros Hnot. by rewrite Hout.
  - intros Hnd. destruct (decide (pl_id p ∈ ids d)) as [Hi|Hnot].
    + by rewrite Hin.
    + rewrite Hout by done. unfold ids in *. simpl. rewrite fmap_app. simpl.
      apply NoDup_app. repeat split; [done| |apply NoDup_singleton].
      intros x Hx ->%list_elem_of_singleton. done.
  - apply Hin. destruct (decide (pl_id p ∈ ids d)) as [Hi|Hnot].
    + by rewrite Hin.
    + rewrite Hout by done. unfold ids. simpl. rewrite fmap_app.
      apply elem_of_app. right. simpl. apply list_elem_of_here.
Qed.

(** Property X20.  Removing from the document: after [removePlayer] the
    identifier is gone, every other participant is kept, in order, removing
    again changes nothing, and neither the holder nor the turn order is
    touched, also when the one removed held the turn. *)
Theorem document_removePlayer_removes d playerId :
  (playerId ∉ ids (removePlayer d playerId))
  /\ (forall q, q <> playerId -> q ∈ ids (removePlayer d playerId) <-> q ∈ ids d)
  /\ (players (removePlayer d playerId) `sublist_of` players d)
  /\ removePlayer (removePlayer d playerId) playerId = removePlayer d playerId
  /\ currentTurn (removePlayer d playerId) = currentTurn d
  /\ turnOrder (removePlayer d playerId) = turnOrder d.
Proof.
  unfold removePlayer, ids. simpl. repeat split.
  - intros Hin. apply list_elem_of_fmap in Hin as (m & -> & Hm).
    apply list_elem_of_filter in Hm as [Hne _]. done.
  - intros Hin. apply list_elem_of_fmap in Hin as (m & -> & Hm).
    apply list_elem_of_filter in Hm as [_ Hm]. apply list_elem_of_fmap. by exists m.
  - intros Hin. apply list_elem_of_fmap in Hin as (m & -> & Hm).
    apply list_elem_of_fmap. exists m. split; [done|].
    by apply list_elem_of_filter.
  - apply sublist_filter.
  - unfold set_players. simpl. f_equal.
    induction (players d) as [|m l IH]; [done|].
    rewrite filter_cons. case_decide as Hm.
    + rewrite filter_cons_True by done. by f_equal.
    + done.
Qed.

Lemma findIndex_NoDup (order : list string) (i : nat) (s : string) :
  NoDup order -> order !! i = Some s -> findIndex order s = Some i.
Proof.
  intros Hnd Hi. unfold findIndex.
  destruct (list_find (fun x => x = s) order) as [[k x]|] eqn:Hf; simpl.
  - apply list_find_Some in Hf as (Hk & -> & _).
    f_equal. by eapply NoDup_lookup.
  - exfalso. eapply list_find_None in Hf. rewrite Forall_forall in Hf.
    apply (Hf s); [|done]. by eapply list_elem_of_lookup_2.
Qed.

Lemma succ_div_mod (n k : nat) :
  0 < k ->
  S n `div` k = n `div` k + (if S n `mod` k =? 0 then 1 else 0)
  /\ S n `mod` k = (n `mod` k + 1) `mod` k.
Proof.
  intros Hk.
  pose proof (Nat.div_mod_eq n k) as Hn.
  pose proof (Nat.mod_upper_bound n k ltac:(lia)) as Hlt.
  destruct (decide (n `mod` k + 1 = k)) as [Hwrap|Hin].
  - assert (S n = (n `div` k + 1) * k + 0) as Hs by nia.
    assert (S n `div` k = n `div` k + 1) as Hd.
    { symmetry. apply (Nat.div_unique _ k _ 0); [lia|lia]. }
    assert (S n `mod` k = 0) as Hm.
    { symmetry. apply (Nat.mod_unique _ k (n `div` k + 1) 0); [lia|lia]. }
    rewrite Hd, Hm, Hwrap, Nat.Div0.mod_same. done.
  - assert (S n `div` k = n `div` k) as Hd.
    { symmetry. apply (Nat.div_unique _ k _ (n `mod` k + 1)); [lia|lia]. }
    assert (S n `mod` k = n `mod` k + 1) as Hm.
    { symmetry. apply (Nat.mod_unique _ k (n `div` k) (n `mod` k + 1)); [lia|lia]. }
    rewrite Hd, Hm, (Nat.mod_small (n `mod` k + 1)) by lia.
    rewrite (proj2 (Nat.eqb_neq _ _)) by lia. split; lia.
Qed.

Lemma nextTurn_step d i s :
  NoDup (turnOrder d) ->
  turnOrder d !! i = Some s ->
  currentTurn d = Some s ->
  nextTurn d
  = mkDocument (minPlayers d) (status d) (players d)
      (turnOrder d !! ((i + 1) `mod` length (turnOrder d))) (turnOrder d)
      (if (i + 1) `mod` length (turnOrder d) =? 0 then currentRound d + 1
       else currentRound d)
      (startedAt d) (endedAt d) (endReason d) (winner d).
Proof.
  intros Hnd Hi Hc. unfold nextTurn. rewrite Hc, (findIndex_NoDup _ _ _ Hnd Hi).
  destruct (turnOrder d) eqn:Ho; [done|]. done.
Qed.

(** Property X21.  Rounds of the document: with a turn order of [k]
    distinct entries and the first entry holding the turn, after [n] calls of
    [nextTurn] the holder is entry [n mod k], the round counter has grown by
    [n / k], and the turn order is unchanged. *)
Theorem document_nextTurn_counts_rounds d n :
  NoDup (turnOrder d) ->
  turnOrder d <> [] ->
  currentTurn d = turnOrder d !! 0 ->
  turnOrder (turns n d) = turnOrder d
  /\ currentTurn (turns n d) = turnOrder d !! (n `mod` length (turnOrder d))
  /\ currentRound (turns n d) = currentRound d + n `div` length (turnOrder d).
Proof.
  intros Hnd Hne H0.
  assert (Hk : 0 < length (turnOrder d)).
  { destruct (turnOrder d); [done|simpl; lia]. }
  induction n as [|n (Ho & Hc & Hr)].
  - simpl. rewrite Nat.Div0.mod_0_l, Nat.Div0.div_0_l. split; [done|]. split; [done|lia].
  - destruct (succ_div_mod n (length (turnOrder d)) Hk) as [Hdiv Hmod].
    destruct (lookup_lt_is_Some_2 (turnOrder d) (n `mod` length (turnOrder d)))
      as [s Hs]; [by apply Nat.mod_upper_bound, Nat.neq_0_lt_0|].
    unfold turns in *.
    change (Nat.iter (S n) nextTurn d) with (nextTurn (Nat.iter n nextTurn d)).
    rewrite (nextTurn_step (Nat.iter n nextTurn d) (n `mod` length (turnOrder d)) s)
      by (rewrite ?Ho, ?Hc; done).
    simpl. rewrite Ho, <- Hmod. split; [done|]. split; [done|].
    rewrite Hr, Hdiv. destruct (S n `mod` length (turnOrder d) =? 0); lia.
Qed.

(** Property X22.  Starting the document: [startGame] makes the document
    active in round 1 with the first entry of the turn order holding the
    turn; a turn order that is already set is kept as it is, and an empty one
    is replaced by a permutation of the identifiers of the participants that
    are not spectators. *)
Theorem document_startGame_order d rnd now :
  status (startGame d rnd now) = Active
  /\ currentRound (startGame d rnd now) = 1
  /\ players (startGame d rnd now) = players d
  /\ currentTurn (startGame d rnd now) = turnOrder (startGame d rnd now) !! 0
  /\ (turnOrder d <> [] -> turnOrder (startGame d rnd now) = turnOrder d)
  /\ (turnOrder d = [] ->
      turnOrder (startGame d rnd now)
      ≡ₚ m_id <$> filter (fun p => m_isSpectator p = false) (players d)).
Proof.
  unfold startGame. simpl. repeat split.
  - intros Hne. by destruct (turnOrder d).
  - intros ->. apply shuffle_from_perm.
Qed.

Lemma filter_both_length (l : list member) :
  length (filter (fun p => m_ready p && negb (m_isSpectator p) = true) l)
  = length (filter (fun p => negb (m_isSpectator p) = true) l)
  <-> forall p, p ∈ l -> m_isSpectator p = false -> m_ready p = true.
Proof.
  induction l as [|m l IH].
  - split; [|done]. intros _ p Hp. by apply elem_of_nil in Hp.
  - pose proof (length_filter (fun p => m_ready p && negb (m_isSpectator p) = true) l) as Hle1.
    assert (length (filter (fun p => m_ready p && negb (m_isSpectator p) = true) l)
            <= length (filter (fun p => negb (m_isSpectator p) = true) l)) as Hle.
    { clear. induction l as [|x l IH]; [done|].
      rewrite !filter_cons.
      destruct (m_ready x), (m_isSpectator x); simpl; repeat case_decide; simpl;
        try done; lia. }
    rewrite !filter_cons.
    destruct (m_ready m) eqn:Hr, (m_isSpectator m) eqn:Hsp; simpl;
      repeat case_decide; try done; simpl.
    + rewrite IH. split.
      * intros H p [->|Hp]%elem_of_cons; [congruence|by apply H].
      * intros H p Hp. apply H. by apply list_elem_of_further.
    + split.
      * intros Heq%Nat.succ_inj. rewrite IH in Heq.
        intros p [->|Hp]%elem_of_cons; [done|by apply Heq].
      * intros H. f_equal. apply IH. intros p Hp. apply H. by apply list_elem_of_further.
    + rewrite IH. split.
      * intros H p [->|Hp]%elem_of_cons; [congruence|by apply H].
      * intros H p Hp. apply H. by apply list_elem_of_further.
    + split; [lia|].
      intros H. specialize (H m (list_elem_of_here _ _) Hsp). congruence.
Qed.

Lemma filter_spectator_length (l : list member) :
  length (filter (fun p => negb (m_isSpectator p) = true) l)
  = length (filter (fun p => m_isSpectator p = false) l).
Proof.
  induction l as [|m l IH]; [done|].
  rewrite !filter_cons. destruct (m_isSpectator m); simpl; repeat case_decide;
    simpl; try done; by f_equal.
Qed.

(** Property X23.  [canStart] says yes exactly when every participant that
    is not a spectator is ready and there are at least [minPlayers] of
    them. *)
Theorem document_canStart_iff d :
  canStart d = true
  <-> minPlayers d <= length (filter (fun p => m_isSpectator p = false) (players d))
      /\ forall p, p ∈ players d -> m_isSpectator p = false -> m_ready p = true.
Proof.
  unfold canStart. rewrite andb_true_iff, Nat.leb_le, Nat.eqb_eq, filter_both_length.
  split.
  - intros [Hmin Hall]. split; [|done].
    rewrite <- filter_spectator_length. by rewrite <- (proj2 (filter_both_length _) Hall).
  - intros [Hmin Hall]. split; [|done].
    rewrite (proj2 (filter_both_length _) Hall), filter_spectator_length. done.
Qed.

Lemma filter_insert_length {A} (P : A -> Prop) `{!forall x, Decision (P x)}
    (l : list A) (i : nat) (x y : A) :
  l !! i = Some x -> (P x <-> P y) ->
  length (filter P (<[i:=y]> l)) = length (filter P l).
Proof.
  intros Hi Hxy. revert i Hi. induction l as [|a l IH]; intros [|i] Hi; simplify_eq/=.
  - rewrite !filter_cons. repeat case_decide; simpl; try done; by destruct Hxy; exfalso; auto.
  - rewrite !filter_cons. case_decide; simpl; by rewrite (IH i Hi).
Qed.

(** Property X24.  The last ready flag makes the document startable: when
    the identifiers are distinct, every other participant that is not a
    spectator is ready and there are at least [minPlayers] of them,
    [setPlayerReady] with [true] for a participant keeps the identifiers and
    makes [canStart] say yes. *)
Theorem document_last_ready_canStart d playerId :
  NoDup (ids d) ->
  playerId ∈ ids d ->
  (forall p, p ∈ players d -> m_id p <> playerId -> m_isSpectator p = false ->
             m_ready p = true) ->
  minPlayers d <= length (filter (fun p => m_isSpectator p = false) (players d)) ->
  ids (setPlayerReady d playerId true) = ids d
  /\ canStart (setPlayerReady d playerId true) = true.
Proof.
  intros Hnd Hin Hothers Hmin. unfold setPlayerReady.
  destruct (list_find (fun p => m_id p = playerId) (players d)) as [[i p]|] eqn:Hf.
  - apply list_find_Some in Hf as (Hi & Hid & _).
    set (p' := mkMember _ _ _ _ _ _ _ _ _).
    assert (Hall : forall q, q ∈ <[i:=p']> (players d) -> m_isSpectator q = false ->
                             m_ready q = true).
    { intros q Hq Hsp. apply list_elem_of_lookup in Hq as [j Hj].
      apply list_lookup_insert_Some in Hj as [(-> & <- & _)|[Hne Hj]]; [done|].
      apply Hothers; [by eapply list_elem_of_lookup_2| |done].
      intros Heq. apply Hne. apply (NoDup_lookup (ids d) i j playerId Hnd); unfold ids;
        rewrite list_lookup_fmap; [by rewrite Hi; simpl; rewrite Hid|by rewrite Hj; simpl; rewrite Heq]. }
    split.
    + unfold ids. simpl. rewrite list_fmap_insert. simpl.
      apply list_insert_id. by rewrite list_lookup_fmap, Hi.
    + unfold canStart. simpl. apply andb_true_iff. split.
      * apply Nat.leb_le.
        rewrite (proj2 (filter_both_length _) Hall), filter_spectator_length.
        by rewrite (filter_insert_length _ _ i p p' Hi).
      * apply Nat.eqb_eq. by apply filter_both_length.
  - exfalso. eapply list_find_None in Hf. rewrite Forall_forall in Hf.
    apply list_elem_of_fmap in Hin as (q & -> & Hq). by apply (Hf q Hq).
Qed.
End Document.

(** * The further properties on concrete games *)

(** A listed call is not the creation of a game. *)
Ltac no_create Hin :=
  repeat (apply elem_of_cons in Hin as [Hin|Hin]; [by simplify_eq|]);
  by apply elem_of_nil in Hin.

(** Witness: the started duel is ended by [endGame]; its status has moved
    from active to ended. *)
Lemma status_never_moves_back_witness :
  status_rank (st_status (g_state Cases.started_game))
  <= status_rank (st_status (g_state Cases.closed_game)).
Proof.
  refine (proj1 (status_never_moves_back Scenario.cfg 0 Scenario.base Cases.closing
                   Scenario.started "g" Cases.started_game Cases.closed_game _ _ _)).
  - intros o now Hin [c ->]. unfold Cases.closing in Hin. no_create Hin.
  - vm_compute. reflexivity.
  - vm_compute. reflexivity.
Defined.

(** Witness: starting the lobby's game leaves what [createGame] fixed. *)
Lemma creation_parameters_are_fixed_witness :
  g_id Cases.started_game = g_id Cases.lobby_game
  /\ g_config Cases.started_game = g_config Cases.lobby_game
  /\ g_maxPlayers Cases.started_game = g_maxPlayers Cases.lobby_game
  /\ g_turnTimeLimit Cases.started_game = g_turnTimeLimit Cases.lobby_game
  /\ st_createdAt (g_state Cases.started_game) = st_createdAt (g_state Cases.lobby_game).
Proof.
  apply (creation_parameters_are_fixed Scenario.cfg 0 Scenario.base
           [(OpStartGame "g" Scenario.zeros, 4%Z)] Scenario.lobby "g").
  - intros o now Hin [c ->]. no_create Hin.
  - vm_compute. reflexivity.
  - vm_compute. reflexivity.
Defined.

(** Witness: A walks out of the started duel, which ends it; the turn order
    still lists her. *)
Lemma turnOrder_fixed_after_start_witness :
  st_turnOrder (g_state Cases.deserted_game) = st_turnOrder (g_state Cases.started_game)
  /\ st_startedAt (g_state Cases.deserted_game) = st_startedAt (g_state Cases.started_game).
Proof.
  apply (turnOrder_fixed_after_start Scenario.cfg 0 Scenario.base Cases.walkout
           Scenario.started "g").
  - intros o now Hin [c ->]. unfold Cases.walkout in Hin. no_create Hin.
  - vm_compute. reflexivity.
  - vm_compute. discriminate.
  - vm_compute. reflexivity.
Defined.

(** Witness: the duel that was started and then ended. *)
Lemma reachable_games_coherent_witness : coherent Cases.closed_game.
Proof.
  apply (reachable_games_coherent Scenario.cfg 0 Scenario.base
           (run Scenario.cfg 0 Scenario.base (Scenario.duel_history ++ Cases.closing)
              new_engine) "g").
  - by exists (Scenario.duel_history ++ Cases.closing).
  - vm_compute. reflexivity.
Defined.

(** Witness: the three-player game after C has left. *)
Lemma participants_are_distinct_witness :
  NoDup (player_ids Cases.left_game) /\ NoDup (st_turnOrder (g_state Cases.left_game)).
Proof.
  apply (participants_are_distinct Scenario.cfg 0 Scenario.base Scenario.after_leave "g").
  - by exists Scenario.trio_history.
  - vm_compute. reflexivity.
Defined.

(** Witness: [endGame] without a winner on the started duel. *)
Lemma endGame_ends_and_cleans_up_witness :
  result (endGame "g" (Some "resigned") JUndefined 9) Scenario.started = Ok tt
  /\ gameTimers (after (endGame "g" (Some "resigned") JUndefined 9) Scenario.started) !! "g"
     = None.
Proof.
  destruct (endGame_ends_and_cleans_up Scenario.cfg 0 Scenario.base Scenario.started "g"
              Cases.started_game (Some "resigned") JUndefined 9)
    as (Hres & _ & _ & Hslot & _).
  - by exists Scenario.duel_history.
  - vm_compute. reflexivity.
  - split; [exact Hres|exact Hslot].
Defined.

(** Witness: the started duel is ended and its removal fires a minute
    later. *)
Lemma purged_game_is_unreachable_witness :
  activeGames
    (after (fire Scenario.base (nextHandle Scenario.started) 60009)
       (after (endGame "g" (Some "resigned") JNull 9) Scenario.started)) !! "g" = None.
Proof.
  refine (proj1 (purged_game_is_unreachable Scenario.cfg 0 Scenario.base Scenario.started
                   "g" Cases.started_game (Some "resigned") JNull 9 60009 (JId "A") _ _)).
  - by exists Scenario.duel_history.
  - vm_compute. reflexivity.
Defined.

(** Witness: the lifetime timer of the started duel, handle [0], fires. *)
Lemma lifetime_timer_ends_game_witness :
  result (fire Scenario.base 0 300001) Scenario.started = Ok tt.
Proof.
  refine (proj1 (lifetime_timer_ends_game Scenario.cfg 0 Scenario.base Scenario.started
                   "g" Cases.started_game 0 300000 300001 _ _ _ _)).
  - by exists Scenario.duel_history.
  - vm_compute. reflexivity.
  - vm_compute. reflexivity.
  - vm_compute. reflexivity.
Defined.

(** Witness: B joins the three-seat game A is in. *)
Lemma addPlayer_only_appends_witness :
  exists g',
    addPlayer Scenario.base "g" Scenario.bob Scenario.zeros 9 Scenario.solo
    = (with_games (<["g" := g']> (activeGames Scenario.solo)) Scenario.solo, Ok true)
    /\ player_ids g' = ["A"; "B"].
Proof.
  destruct (addPlayer_only_appends Scenario.base Scenario.solo "g" Cases.solo_game
              Scenario.bob Scenario.zeros 9) as (g' & Hcall & Hplayers & _).
  - vm_compute. reflexivity.
  - vm_compute. lia.
  - compute_done.
  - exists g'. split; [exact Hcall|]. unfold player_ids. rewrite Hplayers. reflexivity.
Defined.

(** Witness: nobody is ready in the lobby, so the check does nothing. *)
Lemma checkGameStart_when_all_ready_witness :
  checkGameStart Scenario.base "g" Scenario.zeros 9 Scenario.lobby = (Scenario.lobby, Ok tt).
Proof.
  refine (proj2 (checkGameStart_when_all_ready Scenario.base Scenario.lobby "g"
                   Cases.lobby_game Scenario.zeros 9 _) _).
  - vm_compute. reflexivity.
  - left. exists (Cases.seat "A" "Alice" false 2). split; [|reflexivity].
    apply list_elem_of_here.
Defined.

(** Witness: B, who holds the turn of the started duel, plays 42 in a game
    type where every action wins. *)
Lemma processAction_ends_game_witness :
  result (processAction Cases.finishing "g" (JId "B") 42 9) Scenario.started
  = Ok (mkResult 42 true (Some "checkmate") (JId "B")).
Proof.
  refine (proj1 (processAction_ends_game Cases.finishing Scenario.started "g"
                   Cases.started_game (JId "B") 42 9 _ _ _ _ _)).
  - vm_compute. reflexivity.
  - reflexivity.
  - reflexivity.
  - reflexivity.
  - reflexivity.
Defined.

(** Witness: B plays in the started duel; the turn goes to A, who is
    present, and the call raises. *)
Lemma processAction_passes_turn_witness :
  result (processAction Scenario.base "g" (JId "B") 1 9) Scenario.started
  = Throw (ReferenceError "game is not defined").
Proof.
  destruct (processAction_passes_turn Scenario.cfg 0 Scenario.base Scenario.started "g"
              Cases.started_game (JId "B") 1 9) as (_ & Hraises & _).
  - by exists Scenario.duel_history.
  - vm_compute. reflexivity.
  - reflexivity.
  - reflexivity.
  - reflexivity.
  - reflexivity.
  - apply Hraises. vm_compute. set_solver.
Defined.

(** Witness: A leaves the lobby. *)
Lemma removePlayer_bystander_leaves_witness :
  exists g',
    removePlayer "g" "A" 9 Scenario.lobby
    = (with_games (<["g" := g']> (activeGames Scenario.lobby)) Scenario.lobby, Ok true)
    /\ player_ids g' = ["B"].
Proof.
  destruct (removePlayer_bystander_leaves Scenario.lobby "g" Cases.lobby_game "A" 9 0
              (Cases.seat "A" "Alice" false 2)) as (g' & Hcall & Hplayers & _).
  - vm_compute. reflexivity.
  - vm_compute. reflexivity.
  - intros [Hs _]. discriminate Hs.
  - left. discriminate.
  - exists g'. split; [exact Hcall|]. unfold player_ids. rewrite Hplayers. reflexivity.
Defined.

(** Witness: A, who does not hold the turn, leaves the started duel. *)
Lemma removePlayer_too_few_ends_game_witness :
  result (removePlayer "g" "A" 7) Scenario.started = Ok true
  /\ gameTimers (after (removePlayer "g" "A" 7) Scenario.started) !! "g" = None.
Proof.
  destruct (removePlayer_too_few_ends_game Scenario.started "g" Cases.started_game "A" 7 0
              (Cases.seat "A" "Alice" false 2)) as (Hres & _ & Hslot & _).
  - vm_compute. reflexivity.
  - vm_compute. reflexivity.
  - reflexivity.
  - discriminate.
  - reflexivity.
  - split; [exact Hres|exact Hslot].
Defined.

(** Witness: B, who holds the turn of the started duel, leaves it. *)
Lemma removePlayer_holder_aborts_witness :
  exists g',
    removePlayer "g" "B" 7 Scenario.started
    = (with_games (<["g" := g']> (activeGames Scenario.started)) Scenario.started,
       Throw (ReferenceError "game is not defined"))
    /\ st_currentTurn (g_state g') = JId "A"
    /\ st_status (g_state g') = Active.
Proof.
  destruct (removePlayer_holder_aborts Scenario.cfg 0 Scenario.base Scenario.started "g"
              Cases.started_game "B" 7 1 (Cases.seat "B" "Bob" false 3))
    as (g' & Hcall & _ & Hturn & Hstatus).
  - by exists Scenario.duel_history.
  - vm_compute. reflexivity.
  - vm_compute. reflexivity.
  - reflexivity.
  - reflexivity.
  - vm_compute. set_solver.
  - exists g'. split; [exact Hcall|]. split; [|exact Hstatus].
    rewrite Hturn. reflexivity.
Defined.

(** Witness: seven turns round a table of three. *)
Lemma document_nextTurn_counts_rounds_witness :
  GameState.currentTurn (GameState.turns 7 Cases.table) = Some "b"
  /\ GameState.currentRound (GameState.turns 7 Cases.table) = 3.
Proof.
  destruct (document_nextTurn_counts_rounds Cases.table 7) as (_ & Hturn & Hround).
  - compute_done.
  - discriminate.
  - reflexivity.
  - split; [rewrite Hturn|rewrite Hround]; reflexivity.
Defined.

(** Witness: Ann is ready and Ben declares himself ready. *)
Lemma document_last_ready_canStart_witness :
  GameState.canStart (GameState.setPlayerReady Cases.pair "b" true) = true.
Proof.
  refine (proj2 (document_last_ready_canStart Cases.pair "b" _ _ _ _)).
  - compute_done.
  - compute_done.
  - intros p Hp Hne _. apply elem_of_cons in Hp as [->|Hp]; [reflexivity|].
    apply list_elem_of_singleton in Hp as ->. by destruct Hne.
  - vm_compute. lia.
Defined.

(** Witness: a socket joins the room of game ["g"], declares itself ready
    and sends an action; the handler's engine is still a new engine. *)
Lemma handler_engine_holds_no_game_witness :
  run Scenario.cfg 0 Scenario.base Cases.handler_history new_engine = new_engine.
Proof.
  refine (proj1 (handler_engine_holds_no_game Scenario.cfg 0 Scenario.base
                   Cases.handler_history _)).
  repeat constructor.
Defined.
